(** * Old World League ELO tracker: rating model, match ledger and pairing engine

    A shallow embedding of [elo_tracker.py].  Tables are lists of rows in
    storage order, a session is explicit state passing over [Store], and every
    page handler returns the feedback it shows together with the store it
    leaves behind.  Python sets and dicts are stdpp's [gset] and [gmap].
    Floats, the [str] methods that depend on the interpreter's Unicode
    tables and the range of the database's INTEGER column are interfaces:
    the handlers are defined over every interpretation of them. *)

From Stdlib Require Import ZArith QArith Reals String Ascii.
From stdpp Require Import gmap strings list sorting.

Set Warnings "-clear-no-such-hyp".

Close Scope R_scope.
Close Scope Q_scope.
Open Scope string_scope.
Open Scope list_scope.
Open Scope Z_scope.

(** ** Floating point numbers

    Ratings are Python floats.  The carrier and the five operations the
    source uses on it are an interface; the ledger and the pairing engine
    only copy and compare ratings.  The operations are total: rounding is
    left to the interpretation, and the [OverflowError] that Python raises
    when [x ** y] is out of range has no counterpart. *)

Class FloatArith (F : Type) := {
  float_lit : Q → F;          (* a float literal: [1.0], [400.0], [0.5] *)
  float_of_int : Z → F;       (* the int operand of a mixed int/float operation *)
  fadd : F → F → F;
  fsub : F → F → F;
  fmul : F → F → F;
  fdiv : F → F → F;
  fpow : F → F → F             (* [x ** y] *)
}.

(** The order the database sorts ratings by ([ORDER BY rating]). *)
Class RatingOrder (F : Type) := rating_leb : F → F → bool.

Declare Scope pyfloat_scope.
Delimit Scope pyfloat_scope with pf.
Infix "+" := fadd : pyfloat_scope.
Infix "-" := fsub : pyfloat_scope.
Infix "*" := fmul : pyfloat_scope.
Infix "/" := fdiv : pyfloat_scope.
Infix "**" := fpow (at level 30, right associativity) : pyfloat_scope.

(** ** Models *)

(** [datetime.utcnow()] is read from the environment; handlers take it as an
    argument. *)
Definition datetime := Z.

(** A Python [str] is the list of its code points.  What is typed into a
    form is a [str]; the rows keep text as the database does, in UTF-8. *)
Abbreviation str := (list N) (only parsing).

(** [Match.result]: ["pending" | "a_win" | "b_win" | "draw"]. *)
Inductive MatchResult := pending | a_win | b_win | draw.

Global Instance MatchResult_eq_dec : EqDecision MatchResult.
Proof. solve_decision. Defined.

Record Player (F : Type) := mkPlayer {
  p_id : Z;
  name : string;
  rating : F;
  active : bool;
  faction : option string;
  created_at : datetime
}.
Arguments mkPlayer {F}.
Arguments p_id {F}.
Arguments name {F}.
Arguments rating {F}.
Arguments active {F}.
Arguments faction {F}.
Arguments created_at {F}.

Record Match (F : Type) := mkMatch {
  m_id : Z;
  week : string;
  player_a_id : Z;
  player_b_id : option Z;          (* [None] means BYE for A *)
  result : MatchResult;
  a_rating_before : option F;
  b_rating_before : option F;
  a_rating_after : option F;
  b_rating_after : option F;
  reported_at : option datetime;
  k_factor_used : option Z;
  a_faction : option string;
  b_faction : option string
}.
Arguments mkMatch {F}.
Arguments m_id {F}.
Arguments week {F}.
Arguments player_a_id {F}.
Arguments player_b_id {F}.
Arguments result {F}.
Arguments a_rating_before {F}.
Arguments b_rating_before {F}.
Arguments a_rating_after {F}.
Arguments b_rating_after {F}.
Arguments reported_at {F}.
Arguments k_factor_used {F}.
Arguments a_faction {F}.
Arguments b_faction {F}.

Record Attendance := mkAttendance {
  att_id : Z;
  att_week : string;
  player_id : Z;
  present : bool
}.

(** The database: one list of rows per table. *)
Record Store (F : Type) := mkStore {
  players : list (Player F);
  matches : list (Match F);
  attendance : list Attendance
}.
Arguments mkStore {F}.
Arguments players {F}.
Arguments matches {F}.
Arguments attendance {F}.

(** What a handler shows: [st.error], [st.success], or the exception that
    ends the run. *)
Inductive Feedback :=
  | error_already_recorded        (* "Match not found or already recorded." *)
  | success_bye                   (* "BYE recorded (no rating change)." *)
  | success_saved (k : Z)         (* "Saved result (K={k})." *)
  | error_pairings_exist (n : nat) (* "Pairings already exist for {week} ({n}). ..." *)
  | success_created (n : nat)     (* "Created {n} matches." *)
  | success_no_players            (* "No players to pair." *)
  | error_invalid_token (t : str) (* "Invalid token: '{t}'. Use integers or 'BYE'." *)
  | error_no_ids                  (* "Please enter at least two player IDs." *)
  | error_duplicate_ids           (* "Duplicate IDs detected; each player can appear once." *)
  | success_manual (created : Z)  (* "Manual pairings applied: {created} matches created." *)
  | raised_AttributeError         (* [pa.rating] with [pa] being [None] *)
  | raised_ValueError             (* [int(t)] on a [t] that is no decimal integer *)
  | raised_OverflowError.         (* [s.commit()] with an id outside the INTEGER column *)

(** ** ELO helpers *)

Section Elo.
Context {F : Type} `{FloatArith F}.
Local Open Scope pyfloat_scope.

Definition expected_score (rp ro : F) : F :=
  float_lit 1 / (float_lit 1 + float_of_int 10 ** ((ro - rp) / float_lit 400)).

Definition update_elo (r_a r_b score_a : F) (k : Z) : F * F :=
  let e_a := expected_score r_a r_b in
  let e_b := expected_score r_b r_a in
  (r_a + float_of_int k * (score_a - e_a),
   r_b + float_of_int k * ((float_of_int 1 - score_a) - e_b)).
End Elo.

(** ** Sessions: reading and writing rows *)

Section Session.
Context {F : Type}.

(** [session.get(Match, i)] *)
Definition get_match (st : Store F) (i : Z) : option (Match F) :=
  find (λ m, m_id m =? i) (matches st).

(** [session.get(Player, i)] *)
Definition get_player (st : Store F) (i : Z) : option (Player F) :=
  find (λ p, p_id p =? i) (players st).

(** [session.add(row); session.commit()] for a row that is already stored *)
Definition put_match (m : Match F) (st : Store F) : Store F :=
  mkStore (players st)
          (map (λ r, if m_id r =? m_id m then m else r) (matches st))
          (attendance st).

Definition set_rating (i : Z) (r : F) (st : Store F) : Store F :=
  mkStore (map (λ p, if p_id p =? i
                     then mkPlayer (p_id p) (name p) r (active p) (faction p) (created_at p)
                     else p) (players st))
          (matches st) (attendance st).

(** The key the database gives a new row of [matches]: one more than the
    largest key of the table, as SQLite does for an integer primary key. *)
Definition next_match_id (st : Store F) : Z :=
  1 + foldr (λ m acc, Z.max (m_id m) acc) 0 (matches st).

(** [m = Match(week=.., player_a_id=a, player_b_id=b, result="pending");
    session.add(m); session.commit(); session.refresh(m)] *)
Definition new_match (st : Store F) (w : string) (a : Z) (b : option Z) : Match F :=
  mkMatch (next_match_id st) w a b pending None None None None None None None None.

Definition add_match (st : Store F) (w : string) (a : Z) (b : option Z) : Match F * Store F :=
  let m := new_match st w a b in
  (m, mkStore (players st) (matches st ++ [m]) (attendance st)).
End Session.

(** ** Match ledger *)

Section Ledger.
Context {F : Type}.

(** One step of the counting loops of [most_played_faction]:
    [if f: counts[f] = counts.get(f, 0) + 1]; [None] and [""] are falsy. *)
Definition count_faction (counts : gmap string Z) (f : option string) : gmap string Z :=
  match f with
  | Some (String _ _ as s) => <[s := default 0 (counts !! s) + 1]> counts
  | _ => counts
  end.

(** The sort key [(-kv[1], kv[0])], compared as Python compares tuples. *)
Definition faction_key_le (kv1 kv2 : string * Z) : Prop :=
  - kv1.2 < - kv2.2 ∨ (- kv1.2 = - kv2.2 ∧ String.leb kv1.1 kv2.1).

Global Instance faction_key_le_dec kv1 kv2 : Decision (faction_key_le kv1 kv2).
Proof. unfold faction_key_le. apply _. Defined.

Definition faction_counts (st : Store F) (player : Z) : gmap string Z :=
  let counts := foldl (λ counts m, count_faction counts (a_faction m)) ∅
                  (filter (λ m, player_a_id m = player) (matches st)) in
  foldl (λ counts m, count_faction counts (b_faction m)) counts
    (filter (λ m, player_b_id m = Some player) (matches st)).

Definition most_played_faction (st : Store F) (player : Z) : option string :=
  let counts := faction_counts st player in
  if decide (counts = ∅) then None
  else fst <$> head (merge_sort faction_key_le (map_to_list counts)).

(** One iteration of the loop of [player_record]. *)
Definition record_step (player : Z) (wdl : Z * Z * Z) (m : Match F) : Z * Z * Z :=
  let '(w, d, l) := wdl in
  match player_b_id m with
  | None =>
      if decide (player_a_id m = player ∧ result m ≠ pending) then (w + 1, d, l)
      else (w, d, l)
  | Some b =>
      match result m with
      | pending => (w, d, l)
      | draw => (w, d + 1, l)
      | a_win => if decide (player_a_id m = player) then (w + 1, d, l) else (w, d, l + 1)
      | b_win => if decide (b = player) then (w + 1, d, l) else (w, d, l + 1)
      end
  end.

Definition player_record (st : Store F) (player : Z) : Z * Z * Z :=
  foldl (record_step player) (0, 0, 0)
    (filter (λ m, player_a_id m = player ∨ player_b_id m = Some player) (matches st)).

(** [tuple(sorted([a, b]))] *)
Definition sorted_pair (a b : Z) : Z * Z := (Z.min a b, Z.max a b).

Definition fetch_past_pairs (st : Store F) : gset (Z * Z) :=
  foldl (λ s m, match player_b_id m with
                | None => s
                | Some b => s ∪ {[sorted_pair (player_a_id m) b]}
                end) ∅ (matches st).
End Ledger.

(** ** Pairing engine *)

Section Pairing.
Context {F : Type} `{RatingOrder F}.

(** [select(Player).where(Player.active == True).order_by(Player.rating.desc())] *)
Definition active_by_rating (st : Store F) : list (Player F) :=
  merge_sort (λ p q, rating_leb (rating q) (rating p))
    (filter (λ p, active p = true) (players st)).

(** [if restrict_to: ids = [i for i in ids if i in restrict_to]];
    [None] and the empty set are falsy. *)
Definition restrict_ids (restrict_to : option (gset Z)) (ids : list Z) : list Z :=
  match restrict_to with
  | None => ids
  | Some s => if decide (s = ∅) then ids else filter (λ i, i ∈ s) ids
  end.

Definition eligible_ids (st : Store F) (restrict_to : option (gset Z)) : list Z :=
  restrict_ids restrict_to (p_id <$> active_by_rating st).

(** The two scans [for j in range(i + 1, len(ids))] over the rest of the
    list: first for an opponent not met before, then for anyone unused. *)
Definition pick_opponent (past : gset (Z * Z)) (used : gset Z) (pid : Z)
    (rest : list Z) : option Z :=
  match find (λ cand, bool_decide ((cand ∉ used) ∧ (sorted_pair pid cand ∉ past))) rest with
  | Some opp => Some opp
  | None => find (λ cand, bool_decide (cand ∉ used)) rest
  end.

(** The loop [for i, pid in enumerate(ids)], from position [i] on. *)
Fixpoint pair_loop (past : gset (Z * Z)) (used : gset Z) (ids : list Z)
    : list (Z * option Z) :=
  match ids with
  | [] => []
  | pid :: rest =>
      if decide (pid ∈ used) then pair_loop past used rest
      else match pick_opponent past used pid rest with
           | None => (pid, None) :: pair_loop past (used ∪ {[pid]}) rest
           | Some opp => (pid, Some opp) :: pair_loop past (used ∪ {[pid; opp]}) rest
           end
  end.

(** The loop [for a, b in pairings] that stores the rows. *)
Definition create_matches (w : string) (pairings : list (Z * option Z)) (st : Store F)
    : list (Match F) * Store F :=
  foldl (λ '(created, st) '(a, b),
           let '(m, st') := add_match st w a b in (created ++ [m], st'))
        ([], st) pairings.

Definition generate_weekly_pairings (st : Store F) (w : string)
    (restrict_to : option (gset Z)) : list (Match F) * Store F :=
  let ids := eligible_ids st restrict_to in
  match ids with
  | [] => ([], st)
  | _ => create_matches w (pair_loop (fetch_past_pairs st) ∅ ids) st
  end.

(** [{r.player_id for r in ... where(Attendance.week == week) if r.present}] *)
Definition attendance_ids (st : Store F) (w : string) : gset Z :=
  list_to_set (player_id <$> filter (λ r, att_week r = w ∧ present r = true) (attendance st)).

(** The "Generate pairings" button. *)
Definition generate_pairings (st : Store F) (w : string) : Feedback * Store F :=
  match filter (λ m, week m = w) (matches st) with
  | (_ :: _) as existing => (error_pairings_exist (length existing), st)
  | [] =>
      let present_ids := attendance_ids st w in
      let restrict := if decide (present_ids = ∅) then None else Some present_ids in
      let '(created, st') := generate_weekly_pairings st w restrict in
      (match created with
       | [] => success_no_players
       | _ => success_created (length created)
       end, st')
  end.
End Pairing.

(** ** Recording a result (the "Save result" button of a match form) *)

(** The "K-factor" radio and the "Result" select box. *)
Inductive KChoice := Casual | Competitive.
Inductive ResultChoice := choose_a_win | choose_b_win | choose_draw.

Definition result_of_choice (r : ResultChoice) : MatchResult :=
  match r with
  | choose_a_win => a_win
  | choose_b_win => b_win
  | choose_draw => draw
  end.

Section RecordResult.
Context {F : Type} `{FloatArith F}.

(** [k = 10 if k_choice.startswith("Casual") else 40] *)
Definition k_of_choice (k_choice : KChoice) : Z :=
  match k_choice with Casual => 10 | Competitive => 40 end.

(** [score_a = 1.0 if result == "a_win" else 0.0 if result == "b_win" else 0.5] *)
Definition score_of_choice (r : ResultChoice) : F :=
  match r with
  | choose_a_win => float_lit 1
  | choose_b_win => float_lit 0
  | choose_draw => float_lit (1 # 2)
  end.

Definition record_result (st : Store F) (match_id : Z) (k_choice : KChoice)
    (res : ResultChoice) (a_fac b_fac : option string) (now : datetime)
    : Feedback * Store F :=
  match get_match st match_id with
  | None => (error_already_recorded, st)
  | Some m =>
      if decide (result m ≠ pending) then (error_already_recorded, st)
      else
        match get_player st (player_a_id m) with
        | None => (raised_AttributeError, st)
        | Some pa =>
            let pb := match player_b_id m with
                      | Some b => get_player st b
                      | None => None
                      end in
            match pb with
            | None =>
                let m' := mkMatch (m_id m) (week m) (player_a_id m) (player_b_id m)
                            a_win (Some (rating pa)) None (Some (rating pa))
                            (b_rating_after m) (Some now) None a_fac None in
                (success_bye, put_match m' st)
            | Some pb =>
                let k := k_of_choice k_choice in
                let '(new_a, new_b) :=
                  update_elo (rating pa) (rating pb) (score_of_choice res) k in
                let m' := mkMatch (m_id m) (week m) (player_a_id m) (player_b_id m)
                            (result_of_choice res)
                            (Some (rating pa)) (Some (rating pb))
                            (Some new_a) (Some new_b) (Some now) (Some k)
                            a_fac b_fac in
                (success_saved k,
                 put_match m' (set_rating (p_id pb) new_b (set_rating (p_id pa) new_a st)))
            end
        end
  end.
End RecordResult.

(** ** Manual pairing editor *)

(** *** Text *)

(** An ASCII literal of the source as a [str]. *)
Definition str_of_ascii (s : string) : str := N_of_ascii <$> list_ascii_of_string s.

(** [c.isspace()], the white space that [str.strip] removes: the code points
    of bidirectional type WS, B or S and those of category Zs. *)
Definition is_space (c : N) : bool :=
  ((0x09 <=? c) && (c <=? 0x0D) || (0x1C <=? c) && (c <=? 0x20) ||
   (c =? 0x85) || (c =? 0xA0) || (c =? 0x1680) ||
   (0x2000 <=? c) && (c <=? 0x200A) || (0x2028 <=? c) && (c <=? 0x2029) ||
   (c =? 0x202F) || (c =? 0x205F) || (c =? 0x3000))%N.

(** [s.split(sep)] for a separator of one code point *)
Fixpoint split (sep : N) (s : str) : list str :=
  match s with
  | [] => [[]]
  | c :: s' =>
      if (c =? sep)%N then [] :: split sep s'
      else match split sep s' with
           | piece :: pieces => (c :: piece) :: pieces
           | [] => [[c]]
           end
  end.

Fixpoint lstrip (s : str) : str :=
  match s with
  | c :: s' => if is_space c then lstrip s' else s
  | [] => []
  end.

Fixpoint rstrip (s : str) : str :=
  match s with
  | c :: s' =>
      match rstrip s' with
      | [] => if is_space c then [] else [c]
      | r => c :: r
      end
  | [] => []
  end.

(** [s.strip()] *)
Definition strip (s : str) : str := rstrip (lstrip s).

(** The UTF-8 bytes of a code point, and the text of a [str] as a row
    keeps it. *)
Definition utf8 (c : N) : list N :=
  (if c <? 0x80 then [c]
   else if c <? 0x800 then [0xC0 + c / 64; 0x80 + c mod 64]
   else if c <? 0x10000 then [0xE0 + c / 4096; 0x80 + (c / 64) mod 64; 0x80 + c mod 64]
   else [0xF0 + c / 262144; 0x80 + (c / 4096) mod 64; 0x80 + (c / 64) mod 64;
         0x80 + c mod 64])%N.

Definition encode (s : str) : string :=
  string_of_list_ascii (ascii_of_N <$> (s ≫= utf8)).

(** *** The platform

    What [str.upper], [str.isdigit] and [int] return depends on the Unicode
    tables and the settings of the interpreter, and which ids a row can hold
    depends on the database engine behind [DATABASE_URL].  The editor is
    defined over any such platform. *)
Class Platform := {
  upper : str → str;          (* [s.upper()] *)
  isdigit : str → bool;       (* [s.isdigit()] *)
  int : str → option Z;       (* [int(s)], [None] when it raises [ValueError] *)
  fits_INTEGER : Z → bool     (* the engine can bind the id to an INTEGER column *)
}.

(** The bye marker ["BYE"]. *)
Definition BYE : str := str_of_ascii "BYE".

(** [[t.strip().upper() for t in manual_order.split(",") if t.strip()]] *)
Definition tokens_of `{Platform} (manual_order : str) : list str :=
  (λ t, upper (strip t)) <$> filter (λ t, strip t ≠ []) (split (N_of_ascii ",") manual_order).

(** How the loop [for t in tokens] ends: with [break] on a token, with the
    [ValueError] of [int(t)], or in its [else] with the state
    [(ids, has_bye_token)]. *)
Inductive Scan :=
  | broke_on (t : str)
  | int_raised
  | ran_out (ids : list Z) (has_bye_token : bool).

Fixpoint scan_tokens `{Platform} (tokens : list str) (ids : list Z) (has_bye_token : bool)
    : Scan :=
  match tokens with
  | [] => ran_out ids has_bye_token
  | t :: tokens' =>
      if decide (t = BYE) then scan_tokens tokens' ids true
      else if negb (isdigit t) then broke_on t
      else match int t with
           | Some n => scan_tokens tokens' (ids ++ [n]) has_bye_token
           | None => int_raised
           end
  end.

Section ManualPairings.
Context {F : Type} `{!Platform}.

(** The loop [while i < len(ids)], from position [i] on.  Every row is
    committed on its own; a commit with an id that the engine cannot bind
    raises (with SQLite: [OverflowError]) and stores nothing, the rows
    committed before stay.  [None] stands for that exception. *)
Fixpoint manual_loop (w : string) (ids : list Z) (created : Z) (st : Store F)
    : option Z * Store F :=
  match ids with
  | [] => (Some created, st)
  | [a] =>
      if fits_INTEGER a then (Some (created + 1), (add_match st w a None).2)
      else (None, st)
  | a :: b :: ids' =>
      if fits_INTEGER a && fits_INTEGER b
      then manual_loop w ids' (created + 1) (add_match st w a (Some b)).2
      else (None, st)
  end.

(** [for m in pend: s.delete(m)] with [pend] the pending rows of the week *)
Definition delete_pending (w : string) (st : Store F) : Store F :=
  mkStore (players st)
          (filter (λ m, ¬ (week m = w ∧ result m = pending)) (matches st))
          (attendance st).

(** The "Apply manual pairings" button. *)
Definition apply_manual_pairings (st : Store F) (w : string) (manual_order : str)
    (clear_pending : bool) : Feedback * Store F :=
  match scan_tokens (tokens_of manual_order) [] false with
  | broke_on t => (error_invalid_token t, st)
  | int_raised => (raised_ValueError, st)
  | ran_out ids _ =>
      if decide (length ids = 0%nat) then (error_no_ids, st)
      else if decide (length ids ≠ size (list_to_set ids : gset Z))
      then (error_duplicate_ids, st)
      else
        let st1 := if clear_pending then delete_pending w st else st in
        let '(created, st2) := manual_loop w ids 0 st1 in
        (match created with
         | Some n => success_manual n
         | None => raised_OverflowError
         end, st2)
  end.
End ManualPairings.

(** ** Faction pickers *)

Definition PLACEHOLDER_FACTIONS : list string :=
  ["Empire of Man"; "Dwarfen Mountain Holds"; "Kingdom of Bretonnia"; "Wood Elf Realms";
   "High Elf Realms"; "Orc & Goblin Tribes"; "Warriors of Chaos"; "Beastmen Brayheards";
   "Tomb Kings of Khemri"; "Skaven"; "Ogre Kingdoms"; "Lizardmen"; "Chaos Dwarfs";
   "Dark Elves"; "Daemons of Chaos"; "Vampire Counts"].

(** The blank entry of the select boxes. *)
Definition blank_choice : string := "— None —".

Definition PLACEHOLDER_FACTIONS_WITH_BLANK : list string :=
  blank_choice :: PLACEHOLDER_FACTIONS.

(** [l.index(value)]; [None] stands for the [ValueError] of a missing value. *)
Fixpoint index (value : string) (l : list string) : option nat :=
  match l with
  | [] => None
  | x :: l' => if decide (x = value) then Some 0%nat else S <$> index value l'
  end.

Definition faction_index_or_blank (value : option string) : nat :=
  match value with
  | Some (String _ _ as v) =>
      match index v PLACEHOLDER_FACTIONS with
      | Some i => (1 + i)%nat
      | None => 0%nat
      end
  | _ => 0%nat
  end.

(** [x or y] on optional strings: [None] and [""] are falsy. *)
Definition or_else (x y : option string) : option string :=
  match x with
  | Some (String _ _) => x
  | _ => y
  end.

(** [a_default_idx] of a match form: the faction stored on the match, else the
    player's most played faction, else the player's own faction. *)
Definition result_form_default (match_faction most_played player_faction : option string)
    : nat :=
  faction_index_or_blank (or_else match_faction (or_else most_played player_faction)).

(** [a_def_idx] of the ad-hoc form. *)
Definition adhoc_form_default (most_played player_faction : option string) : nat :=
  match most_played ≫= λ f, index f PLACEHOLDER_FACTIONS with
  | Some i => i
  | None =>
      match player_faction ≫= λ f, index f PLACEHOLDER_FACTIONS with
      | Some i => i
      | None => 0%nat
      end
  end.

(** [None if choice == "— None —" else choice] *)
Definition normalize_choice (choice : string) : option string :=
  if decide (choice = blank_choice) then None else Some choice.

(** ** Week ids *)

(** A [date] is its proleptic Gregorian ordinal, from [date.min] (1) to
    [date.max] (3652059); [d.weekday()] is [(ordinal + 6) % 7], Monday being 0. *)
Definition date_min : Z := 1.
Definition date_max : Z := 3652059.

Definition weekday (d : Z) : Z := (d + 6) `mod` 7.

(** [d + timedelta(days=n)], [None] for the [OverflowError] of a date out of
    range. *)
Definition date_add (d n : Z) : option Z :=
  if decide (date_min ≤ d + n ≤ date_max) then Some (d + n) else None.

(** The date [week_id_wed] formats: the Wednesday of the week containing [d]. *)
Definition week_wednesday (d : Z) : option Z :=
  let offset := 2 - weekday d in
  date_add d offset.

(** ** Week passwords *)

Record WeekKey := mkWeekKey {
  wk_id : Z;
  wk_week : string;
  results_password : string
}.

(** [week_password(session, week)] on the table [week_keys]. *)
Definition week_password (keys : list WeekKey) (w : string) : option string :=
  results_password <$> find (λ r, bool_decide (wk_week r = w)) keys.

Definition next_week_key_id (keys : list WeekKey) : Z :=
  1 + foldr (λ r acc, Z.max (wk_id r) acc) 0 keys.

(** [session.delete(wk); session.commit()] when a row of the week exists. *)
Definition clear_week_password (keys : list WeekKey) (w : string) : list WeekKey :=
  match find (λ r, bool_decide (wk_week r = w)) keys with
  | Some wk => filter (λ r, wk_id r ≠ wk_id wk) keys
  | None => keys
  end.

Definition set_week_password (keys : list WeekKey) (w : string) (password : option string)
    : list WeekKey :=
  match password with
  | Some (String _ _ as pw) =>
      match find (λ r, bool_decide (wk_week r = w)) keys with
      | Some wk =>
          map (λ r, if wk_id r =? wk_id wk then mkWeekKey (wk_id wk) (wk_week wk) pw else r)
              keys
      | None => keys ++ [mkWeekKey (next_week_key_id keys) w pw]
      end
  | _ =>
      match find (λ r, bool_decide (wk_week r = w)) keys with
      | Some wk => filter (λ r, wk_id r ≠ wk_id wk) keys
      | None => keys
      end
  end.

(** The "Set / Update password" button: [_val = (pw_new or "").strip()]. *)
Definition update_password_clicked (keys : list WeekKey) (w : string) (pw_new : str)
    : list WeekKey :=
  match strip pw_new with
  | [] => clear_week_password keys w
  | _val => set_week_password keys w (Some (encode _val))
  end.

(** [locked = wk_pw and (not st.session_state[wk_key])] *)
Definition results_locked (keys : list WeekKey) (w : string) (unlocked : bool) : bool :=
  match week_password keys w with
  | Some (String _ _) => negb unlocked
  | _ => false
  end.

(** The "Unlock week" button, shown while the week is locked:
    [st.session_state[wk_key] = (pw_try == wk_pw)], the typed [str] against
    the stored text. *)
Definition unlock_week_clicked (keys : list WeekKey) (w : string) (unlocked : bool)
    (pw_try : str) : bool :=
  match week_password keys w with
  | Some (String _ _ as wk_pw) =>
      if unlocked then unlocked else bool_decide (encode pw_try = wk_pw)
  | _ => unlocked
  end.

(** ** Administration *)

(** What the administration handlers show. *)
Inductive AdminFeedback :=
  | error_name_required            (* "Please enter a name." *)
  | success_player_added           (* "Added {name} with rating {starting}." *)
  | error_related_records          (* "Player has related matches/attendance. ..." *)
  | success_player_deleted         (* "Player deleted permanently." *)
  | nothing_shown
  | success_adhoc (k : Z) (match_id : Z)  (* "Ad-hoc match saved (K={k}). Match {id}." *)
  | adhoc_AttributeError.          (* [pa.rating] or [pb.rating] on [None] *)

Section Administration.
Context {F : Type}.

Definition next_player_id (st : Store F) : Z :=
  1 + foldr (λ p acc, Z.max (p_id p) acc) 0 (players st).

(** The "Add player" form. *)
Definition add_player (st : Store F) (player_name : str) (starting : F)
    (faction_choice : string) (now : datetime) : AdminFeedback * Store F :=
  match strip player_name with
  | [] => (error_name_required, st)
  | stripped =>
      (success_player_added,
       mkStore (players st ++ [mkPlayer (next_player_id st) (encode stripped) starting true
                                        (normalize_choice faction_choice) now])
               (matches st) (attendance st))
  end.

(** [p = s.get(Player, pid); p.active = flag; s.add(p); s.commit()] *)
Definition set_active (i : Z) (flag : bool) (st : Store F) : Store F :=
  mkStore (map (λ p, if p_id p =? i
                     then mkPlayer (p_id p) (name p) (rating p) flag (faction p) (created_at p)
                     else p) (players st))
          (matches st) (attendance st).

(** The "Archive" button, offered for an active player. *)
Definition archive_player (st : Store F) (pid : Z) : Store F :=
  match get_player st pid with
  | Some p => if active p then set_active pid false st else st
  | None => st
  end.

(** The "Restore" button, offered for an archived player. *)
Definition restore_player (st : Store F) (pid : Z) : Store F :=
  match get_player st pid with
  | Some p => if active p then st else set_active pid true st
  | None => st
  end.

Definition involves (pid : Z) (m : Match F) : Prop :=
  player_a_id m = pid ∨ player_b_id m = Some pid.

Global Instance involves_dec pid m : Decision (involves pid m).
Proof. unfold involves. apply _. Defined.

(** The "Delete player now" button. *)
Definition delete_player (st : Store F) (sel_id : Z) (hard_delete : bool)
    : AdminFeedback * Store F :=
  let st1 :=
    if hard_delete
    then Some (mkStore (players st)
                       (filter (λ m, ¬ involves sel_id m) (matches st))
                       (filter (λ r, player_id r ≠ sel_id) (attendance st)))
    else
      match filter (involves sel_id) (matches st),
            filter (λ r, player_id r = sel_id) (attendance st) with
      | [], [] => Some st
      | _, _ => None
      end in
  match st1 with
  | None => (error_related_records, st)
  | Some st1 =>
      match get_player st1 sel_id with
      | Some pl =>
          (success_player_deleted,
           mkStore (filter (λ p, p_id p ≠ p_id pl) (players st1))
                   (matches st1) (attendance st1))
      | None => (nothing_shown, st1)
      end
  end.

(** The "Reset pairings for this week" button. *)
Definition reset_pairings (st : Store F) (w : string) (include_reported : bool) : Store F :=
  mkStore (players st)
          (filter (λ m, ¬ (week m = w ∧ (include_reported = true ∨ result m = pending)))
                  (matches st))
          (attendance st).

(** One turn of the loop [for mid in selected_ids] of "Delete selected
    pairings". *)
Definition delete_pairing (allow_reported_delete : bool) (st : Store F) (mid : Z)
    : Store F :=
  match get_match st mid with
  | None => st
  | Some m =>
      if negb allow_reported_delete && bool_decide (result m ≠ pending) then st
      else mkStore (players st) (filter (λ r, m_id r ≠ m_id m) (matches st)) (attendance st)
  end.

(** The button reports [len(selected_ids)] deletions. *)
Definition delete_selected_pairings (st : Store F) (selected_ids : list Z)
    (allow_reported_delete : bool) : nat * Store F :=
  (length selected_ids, foldl (delete_pairing allow_reported_delete) st selected_ids).

(** The rows [Attendance(week=w, player_id=pid, present=True)] of a saved
    selection, keyed from [next] on. *)
Fixpoint attendance_rows (w : string) (next : Z) (pids : list Z) : list Attendance :=
  match pids with
  | [] => []
  | pid :: pids' => mkAttendance next w pid true :: attendance_rows w (next + 1) pids'
  end.

Definition next_attendance_id (st : Store F) : Z :=
  1 + foldr (λ r acc, Z.max (att_id r) acc) 0 (attendance st).

(** The "Save attendance" button: the rows of the week are replaced by one
    row per selected player. *)
Definition save_attendance (st : Store F) (w : string) (selected_ids : gset Z) : Store F :=
  mkStore (players st) (matches st)
          (filter (λ r, att_week r ≠ w) (attendance st)
           ++ attendance_rows w (next_attendance_id st) (elements selected_ids)).

(** The "Clear attendance" button. *)
Definition clear_attendance (st : Store F) (w : string) : Store F :=
  mkStore (players st) (matches st) (filter (λ r, att_week r ≠ w) (attendance st)).

(** The list "Eligible this week" of the manual pairing editor. *)
Definition editor_eligible_ids (st : Store F) (w : string) : list Z :=
  let eligible :=
    p_id <$> merge_sort (λ p q, String.leb (name p) (name q))
               (filter (λ p, active p = true) (players st)) in
  let present_ids := attendance_ids st w in
  let allowed : gset Z :=
    if decide (present_ids = ∅) then list_to_set eligible else present_ids in
  filter (λ i, i ∈ allowed) eligible.
End Administration.

Section AdHoc.
Context {F : Type} `{FloatArith F}.

(** The "Save ad-hoc result" button: the match is stored as pending with the
    ratings before, then reported in the same session. *)
Definition adhoc_match (st : Store F) (w : string) (pid_a pid_b : Z) (k_choice : KChoice)
    (res : ResultChoice) (a_fac b_fac : option string) (now : datetime)
    : AdminFeedback * Store F :=
  match get_player st pid_a, get_player st pid_b with
  | Some pa, Some pb =>
      let m := mkMatch (next_match_id st) w pid_a (Some pid_b) pending
                 (Some (rating pa)) (Some (rating pb)) None None None None a_fac b_fac in
      let st1 := mkStore (players st) (matches st ++ [m]) (attendance st) in
      let k := k_of_choice k_choice in
      let '(new_a, new_b) := update_elo (rating pa) (rating pb) (score_of_choice res) k in
      let m' := mkMatch (m_id m) w pid_a (Some pid_b) (result_of_choice res)
                  (Some (rating pa)) (Some (rating pb)) (Some new_a) (Some new_b)
                  (Some now) (Some k) a_fac b_fac in
      (success_adhoc k (m_id m),
       put_match m' (set_rating (p_id pb) new_b (set_rating (p_id pa) new_a st1)))
  | _, _ => (adhoc_AttributeError, st)
  end.
End AdHoc.

(** ** Vocabulary of the statements *)

Section Vocabulary.
Context {F : Type}.

(** The player ids a match row names: A, and B unless the row is a bye. *)
Definition ids_of_match (m : Match F) : list Z :=
  player_a_id m :: option_list (player_b_id m).

Definition pair_of_match (m : Match F) : Z * option Z :=
  (player_a_id m, player_b_id m).

Definition ids_of_pair (p : Z * option Z) : list Z := p.1 :: option_list p.2.

(** Primary keys: no two rows of a table share their id. *)
Definition unique_keys (st : Store F) : Prop :=
  NoDup (p_id <$> players st) ∧ NoDup (m_id <$> matches st).

(** The store with its attendance table replaced. *)
Definition with_attendance (att : list Attendance) (st : Store F) : Store F :=
  mkStore (players st) (matches st) att.

(** How often the ledger records faction [f] against a player: as
    [a_faction] of a row that has the player as A, or as [b_faction] of a
    row that has the player as B. *)
Definition times_played (st : Store F) (player : Z) (f : string) : Z :=
  Z.of_nat (length (filter (λ m, player_a_id m = player ∧ a_faction m = Some f)
                      (matches st))) +
  Z.of_nat (length (filter (λ m, player_b_id m = Some player ∧ b_faction m = Some f)
                      (matches st))).

(** Membership of the eligible pool, as far as attendance decides it: a
    missing or empty restriction admits every id. *)
Definition in_pool (restrict_to : option (gset Z)) (i : Z) : Prop :=
  match restrict_to with
  | None => True
  | Some s => s = ∅ ∨ i ∈ s
  end.

Global Instance in_pool_dec restrict_to i : Decision (in_pool restrict_to i).
Proof. destruct restrict_to; simpl; apply _. Defined.

Definition is_bye (m : Match F) : Prop := player_b_id m = None.
Definition is_two_sided (m : Match F) : Prop := player_b_id m ≠ None.

Global Instance is_bye_dec m : Decision (is_bye m).
Proof. unfold is_bye. apply _. Defined.
Global Instance is_two_sided_dec m : Decision (is_two_sided m).
Proof. unfold is_two_sided. apply _. Defined.
End Vocabulary.

(** A token of the manual order is valid when it is the bye marker or a
    decimal integer: a [str] of digits that [int] converts.  [ids_of_tokens]
    are the player ids a sequence of tokens names. *)
Definition valid_token `{Platform} (t : str) : Prop :=
  t = BYE ∨ (isdigit t = true ∧ is_Some (int t)).

Global Instance valid_token_dec `{Platform} (t : str) : Decision (valid_token t).
Proof. unfold valid_token. apply _. Defined.

Definition id_of_token `{Platform} (t : str) : option Z :=
  if decide (t = BYE) then None else if isdigit t then int t else None.

Definition ids_of_tokens `{Platform} (tokens : list str) : list Z :=
  omap id_of_token tokens.

(** The pairs that are committed before the first pair with an id that the
    engine cannot hold. *)
Definition fits_pair `{Platform} (p : Z * option Z) : bool :=
  fits_INTEGER p.1 && from_option fits_INTEGER true p.2.

Fixpoint pairs_before_overflow `{Platform} (pairs : list (Z * option Z))
    : list (Z * option Z) :=
  match pairs with
  | p :: pairs' => if fits_pair p then p :: pairs_before_overflow pairs' else []
  | [] => []
  end.

(** The outcome of a scan without the flag [has_bye_token], which the
    handler sets and never reads. *)
Definition forget_bye (s : Scan) : Scan :=
  match s with
  | ran_out ids _ => ran_out ids false
  | _ => s
  end.


(** Consecutive pairs of a list, the last element alone when the length is
    odd. *)
Fixpoint consecutive_pairs (ids : list Z) : list (Z * option Z) :=
  match ids with
  | a :: b :: ids' => (a, Some b) :: consecutive_pairs ids'
  | [a] => [(a, None)]
  | [] => []
  end.

(** ** Vocabulary of the further statements *)

Section MoreVocabulary.
Context {F : Type}.

(** The reported games of a player: the rows that name the player and are no
    longer pending. *)
Definition reported_games (st : Store F) (player : Z) : list (Match F) :=
  filter (λ m, involves player m ∧ result m ≠ pending) (matches st).

(** What a reported result adds to the record of side A and of side B. *)
Definition record_gain (res : ResultChoice) (side_a : bool) : Z * Z * Z :=
  match res, side_a with
  | choose_draw, _ => (0, 1, 0)
  | choose_a_win, true | choose_b_win, false => (1, 0, 0)
  | choose_a_win, false | choose_b_win, true => (0, 0, 1)
  end.

Definition add_record (r g : Z * Z * Z) : Z * Z * Z :=
  (r.1.1 + g.1.1, r.1.2 + g.1.2, r.2 + g.2).

(** The row of a player with another rating. *)
Definition with_rating (r : F) (p : Player F) : Player F :=
  mkPlayer (p_id p) (name p) r (active p) (faction p) (created_at p).

(** No match and no attendance row names a player missing from the table. *)
Definition references_ok (st : Store F) : Prop :=
  (∀ m i, m ∈ matches st → i ∈ ids_of_match m → i ∈ p_id <$> players st) ∧
  (∀ r, r ∈ attendance st → player_id r ∈ p_id <$> players st).

(** A player has related rows: matches or attendance that name the player. *)
Definition has_related (st : Store F) (pid : Z) : Prop :=
  Exists (involves pid) (matches st) ∨ Exists (λ r, player_id r = pid) (attendance st).
End MoreVocabulary.

(** A [str] of white space only, the empty one included. *)
Definition blank (s : str) : Prop := Forall (λ c, is_space c = true) s.

Global Instance blank_dec (s : str) : Decision (blank s).
Proof. unfold blank. apply _. Defined.

(** A [str] as a form delivers it: Unicode scalar values, without
    surrogates. *)
Definition scalar_value (c : N) : Prop := (c < 0xD800 ∨ 0xE000 ≤ c < 0x110000)%N.

(** A table of week passwords as the handlers keep it: unique keys, one row
    per week, no empty password. *)
Definition week_keys_ok (keys : list WeekKey) : Prop :=
  NoDup (wk_id <$> keys) ∧ NoDup (wk_week <$> keys) ∧
  Forall (λ r, results_password r ≠ "") keys.

Definition valid_date (d : Z) : Prop := date_min ≤ d ≤ date_max.

(** The Monday that begins the week of a date. *)
Definition week_monday (d : Z) : Z := d - weekday d.

(** ** Two carriers for ratings *)

(** Real arithmetic: [x ** y] is [Rpower]. *)
Global Instance real_arith : FloatArith R := {|
  float_lit := Q2R;
  float_of_int := IZR;
  fadd := Rplus;
  fsub := Rminus;
  fmul := Rmult;
  fdiv := Rdiv;
  fpow := Rpower
|}.

(** Ratings as the rationals they denote, ordered by [Qle_bool]. *)
Global Instance rational_order : RatingOrder Q := Qle_bool.

(** The order of [ORDER BY rating DESC] on rational ratings. *)
Definition by_rating_desc : relation (Player Q) :=
  λ p q, rating_leb (rating q) (rating p).

(** ** The platform of the examples

    CPython 3.11 with the tables of Unicode 14.0.0 and its default limit of
    4300 digits for [int], on the SQLite database the program falls back
    to. *)

(** Membership of one of the ranges [(first, last)]. *)
Definition in_ranges (ranges : list (N * N)) (c : N) : bool :=
  existsb (λ '(a, b), (a <=? c) && (c <=? b))%N ranges.

(** The code points of numeric type Digit or Decimal: [c.isdigit()]. *)
Definition digit_ranges : list (N * N) :=
  [(0x30, 0x39); (0xB2, 0xB3); (0xB9, 0xB9); (0x660, 0x669); (0x6F0, 0x6F9); (0x7C0, 0x7C9);
   (0x966, 0x96F); (0x9E6, 0x9EF); (0xA66, 0xA6F); (0xAE6, 0xAEF); (0xB66, 0xB6F);
   (0xBE6, 0xBEF); (0xC66, 0xC6F); (0xCE6, 0xCEF); (0xD66, 0xD6F); (0xDE6, 0xDEF);
   (0xE50, 0xE59); (0xED0, 0xED9); (0xF20, 0xF29); (0x1040, 0x1049); (0x1090, 0x1099);
   (0x1369, 0x1371); (0x17E0, 0x17E9); (0x1810, 0x1819); (0x1946, 0x194F); (0x19D0, 0x19DA);
   (0x1A80, 0x1A89); (0x1A90, 0x1A99); (0x1B50, 0x1B59); (0x1BB0, 0x1BB9); (0x1C40, 0x1C49);
   (0x1C50, 0x1C59); (0x2070, 0x2070); (0x2074, 0x2079); (0x2080, 0x2089); (0x2460, 0x2468);
   (0x2474, 0x247C); (0x2488, 0x2490); (0x24EA, 0x24EA); (0x24F5, 0x24FD); (0x24FF, 0x24FF);
   (0x2776, 0x277E); (0x2780, 0x2788); (0x278A, 0x2792); (0xA620, 0xA629); (0xA8D0, 0xA8D9);
   (0xA900, 0xA909); (0xA9D0, 0xA9D9); (0xA9F0, 0xA9F9); (0xAA50, 0xAA59); (0xABF0, 0xABF9);
   (0xFF10, 0xFF19); (0x104A0, 0x104A9); (0x10A40, 0x10A43); (0x10D30, 0x10D39);
   (0x10E60, 0x10E68); (0x11052, 0x1105A); (0x11066, 0x1106F); (0x110F0, 0x110F9);
   (0x11136, 0x1113F); (0x111D0, 0x111D9); (0x112F0, 0x112F9); (0x11450, 0x11459);
   (0x114D0, 0x114D9); (0x11650, 0x11659); (0x116C0, 0x116C9); (0x11730, 0x11739);
   (0x118E0, 0x118E9); (0x11950, 0x11959); (0x11C50, 0x11C59); (0x11D50, 0x11D59);
   (0x11DA0, 0x11DA9); (0x16A60, 0x16A69); (0x16AC0, 0x16AC9); (0x16B50, 0x16B59);
   (0x1D7CE, 0x1D7FF); (0x1E140, 0x1E149); (0x1E2F0, 0x1E2F9); (0x1E950, 0x1E959);
   (0x1F100, 0x1F10A); (0x1FBF0, 0x1FBF9)]%N.

(** The decimal digits, each run counting from zero to nine: [c.isdecimal()]. *)
Definition decimal_ranges : list (N * N) :=
  [(0x30, 0x39); (0x660, 0x669); (0x6F0, 0x6F9); (0x7C0, 0x7C9); (0x966, 0x96F);
   (0x9E6, 0x9EF); (0xA66, 0xA6F); (0xAE6, 0xAEF); (0xB66, 0xB6F); (0xBE6, 0xBEF);
   (0xC66, 0xC6F); (0xCE6, 0xCEF); (0xD66, 0xD6F); (0xDE6, 0xDEF); (0xE50, 0xE59);
   (0xED0, 0xED9); (0xF20, 0xF29); (0x1040, 0x1049); (0x1090, 0x1099); (0x17E0, 0x17E9);
   (0x1810, 0x1819); (0x1946, 0x194F); (0x19D0, 0x19D9); (0x1A80, 0x1A89); (0x1A90, 0x1A99);
   (0x1B50, 0x1B59); (0x1BB0, 0x1BB9); (0x1C40, 0x1C49); (0x1C50, 0x1C59); (0xA620, 0xA629);
   (0xA8D0, 0xA8D9); (0xA900, 0xA909); (0xA9D0, 0xA9D9); (0xA9F0, 0xA9F9); (0xAA50, 0xAA59);
   (0xABF0, 0xABF9); (0xFF10, 0xFF19); (0x104A0, 0x104A9); (0x10D30, 0x10D39);
   (0x11066, 0x1106F); (0x110F0, 0x110F9); (0x11136, 0x1113F); (0x111D0, 0x111D9);
   (0x112F0, 0x112F9); (0x11450, 0x11459); (0x114D0, 0x114D9); (0x11650, 0x11659);
   (0x116C0, 0x116C9); (0x11730, 0x11739); (0x118E0, 0x118E9); (0x11950, 0x11959);
   (0x11C50, 0x11C59); (0x11D50, 0x11D59); (0x11DA0, 0x11DA9); (0x16A60, 0x16A69);
   (0x16AC0, 0x16AC9); (0x16B50, 0x16B59); (0x1D7CE, 0x1D7FF); (0x1E140, 0x1E149);
   (0x1E2F0, 0x1E2F9); (0x1E950, 0x1E959); (0x1FBF0, 0x1FBF9)]%N.

Definition is_digit (c : N) : bool := in_ranges digit_ranges c.

(** The value of a decimal digit. *)
Definition decimal (c : N) : option Z :=
  (λ '(a, _), Z.of_N ((c - a) mod 10))
    <$> find (λ '(a, b), (a <=? c) && (c <=? b))%N decimal_ranges.

(** Upper case.  [upper_simple] holds the mappings to one code point: the
    code points [first, first + step, ..., last] move by [delta];
    [upper_special] holds the code points whose upper case is several code
    points.  Every other code point is its own upper case. *)
Definition upper_simple : list (N * N * N * Z) :=
  [(0x61%N, 0x7A%N, 1%N, -32); (0xB5%N, 0xB5%N, 1%N, 743); (0xE0%N, 0xF6%N, 1%N, -32);
   (0xF8%N, 0xFE%N, 1%N, -32); (0xFF%N, 0xFF%N, 1%N, 121); (0x101%N, 0x12F%N, 2%N, -1);
   (0x131%N, 0x131%N, 1%N, -232); (0x133%N, 0x137%N, 2%N, -1); (0x13A%N, 0x148%N, 2%N, -1);
   (0x14B%N, 0x177%N, 2%N, -1); (0x17A%N, 0x17E%N, 2%N, -1); (0x17F%N, 0x17F%N, 1%N, -300);
   (0x180%N, 0x180%N, 1%N, 195); (0x183%N, 0x185%N, 2%N, -1); (0x188%N, 0x188%N, 1%N, -1);
   (0x18C%N, 0x18C%N, 1%N, -1); (0x192%N, 0x192%N, 1%N, -1); (0x195%N, 0x195%N, 1%N, 97);
   (0x199%N, 0x199%N, 1%N, -1); (0x19A%N, 0x19A%N, 1%N, 163); (0x19E%N, 0x19E%N, 1%N, 130);
   (0x1A1%N, 0x1A5%N, 2%N, -1); (0x1A8%N, 0x1A8%N, 1%N, -1); (0x1AD%N, 0x1AD%N, 1%N, -1);
   (0x1B0%N, 0x1B0%N, 1%N, -1); (0x1B4%N, 0x1B6%N, 2%N, -1); (0x1B9%N, 0x1B9%N, 1%N, -1);
   (0x1BD%N, 0x1BD%N, 1%N, -1); (0x1BF%N, 0x1BF%N, 1%N, 56); (0x1C5%N, 0x1C5%N, 1%N, -1);
   (0x1C6%N, 0x1C6%N, 1%N, -2); (0x1C8%N, 0x1C8%N, 1%N, -1); (0x1C9%N, 0x1C9%N, 1%N, -2);
   (0x1CB%N, 0x1CB%N, 1%N, -1); (0x1CC%N, 0x1CC%N, 1%N, -2); (0x1CE%N, 0x1DC%N, 2%N, -1);
   (0x1DD%N, 0x1DD%N, 1%N, -79); (0x1DF%N, 0x1EF%N, 2%N, -1); (0x1F2%N, 0x1F2%N, 1%N, -1);
   (0x1F3%N, 0x1F3%N, 1%N, -2); (0x1F5%N, 0x1F5%N, 1%N, -1); (0x1F9%N, 0x21F%N, 2%N, -1);
   (0x223%N, 0x233%N, 2%N, -1); (0x23C%N, 0x23C%N, 1%N, -1); (0x23F%N, 0x240%N, 1%N, 10815);
   (0x242%N, 0x242%N, 1%N, -1); (0x247%N, 0x24F%N, 2%N, -1); (0x250%N, 0x250%N, 1%N, 10783);
   (0x251%N, 0x251%N, 1%N, 10780); (0x252%N, 0x252%N, 1%N, 10782);
   (0x253%N, 0x253%N, 1%N, -210); (0x254%N, 0x254%N, 1%N, -206); (0x256%N, 0x257%N, 1%N, -205);
   (0x259%N, 0x259%N, 1%N, -202); (0x25B%N, 0x25B%N, 1%N, -203);
   (0x25C%N, 0x25C%N, 1%N, 42319); (0x260%N, 0x260%N, 1%N, -205);
   (0x261%N, 0x261%N, 1%N, 42315); (0x263%N, 0x263%N, 1%N, -207);
   (0x265%N, 0x265%N, 1%N, 42280); (0x266%N, 0x266%N, 1%N, 42308);
   (0x268%N, 0x268%N, 1%N, -209); (0x269%N, 0x269%N, 1%N, -211);
   (0x26A%N, 0x26A%N, 1%N, 42308); (0x26B%N, 0x26B%N, 1%N, 10743);
   (0x26C%N, 0x26C%N, 1%N, 42305); (0x26F%N, 0x26F%N, 1%N, -211);
   (0x271%N, 0x271%N, 1%N, 10749); (0x272%N, 0x272%N, 1%N, -213);
   (0x275%N, 0x275%N, 1%N, -214); (0x27D%N, 0x27D%N, 1%N, 10727);
   (0x280%N, 0x280%N, 1%N, -218); (0x282%N, 0x282%N, 1%N, 42307);
   (0x283%N, 0x283%N, 1%N, -218); (0x287%N, 0x287%N, 1%N, 42282);
   (0x288%N, 0x288%N, 1%N, -218); (0x289%N, 0x289%N, 1%N, -69); (0x28A%N, 0x28B%N, 1%N, -217);
   (0x28C%N, 0x28C%N, 1%N, -71); (0x292%N, 0x292%N, 1%N, -219); (0x29D%N, 0x29D%N, 1%N, 42261);
   (0x29E%N, 0x29E%N, 1%N, 42258); (0x345%N, 0x345%N, 1%N, 84); (0x371%N, 0x373%N, 2%N, -1);
   (0x377%N, 0x377%N, 1%N, -1); (0x37B%N, 0x37D%N, 1%N, 130); (0x3AC%N, 0x3AC%N, 1%N, -38);
   (0x3AD%N, 0x3AF%N, 1%N, -37); (0x3B1%N, 0x3C1%N, 1%N, -32); (0x3C2%N, 0x3C2%N, 1%N, -31);
   (0x3C3%N, 0x3CB%N, 1%N, -32); (0x3CC%N, 0x3CC%N, 1%N, -64); (0x3CD%N, 0x3CE%N, 1%N, -63);
   (0x3D0%N, 0x3D0%N, 1%N, -62); (0x3D1%N, 0x3D1%N, 1%N, -57); (0x3D5%N, 0x3D5%N, 1%N, -47);
   (0x3D6%N, 0x3D6%N, 1%N, -54); (0x3D7%N, 0x3D7%N, 1%N, -8); (0x3D9%N, 0x3EF%N, 2%N, -1);
   (0x3F0%N, 0x3F0%N, 1%N, -86); (0x3F1%N, 0x3F1%N, 1%N, -80); (0x3F2%N, 0x3F2%N, 1%N, 7);
   (0x3F3%N, 0x3F3%N, 1%N, -116); (0x3F5%N, 0x3F5%N, 1%N, -96); (0x3F8%N, 0x3F8%N, 1%N, -1);
   (0x3FB%N, 0x3FB%N, 1%N, -1); (0x430%N, 0x44F%N, 1%N, -32); (0x450%N, 0x45F%N, 1%N, -80);
   (0x461%N, 0x481%N, 2%N, -1); (0x48B%N, 0x4BF%N, 2%N, -1); (0x4C2%N, 0x4CE%N, 2%N, -1);
   (0x4CF%N, 0x4CF%N, 1%N, -15); (0x4D1%N, 0x52F%N, 2%N, -1); (0x561%N, 0x586%N, 1%N, -48);
   (0x10D0%N, 0x10FA%N, 1%N, 3008); (0x10FD%N, 0x10FF%N, 1%N, 3008);
   (0x13F8%N, 0x13FD%N, 1%N, -8); (0x1C80%N, 0x1C80%N, 1%N, -6254);
   (0x1C81%N, 0x1C81%N, 1%N, -6253); (0x1C82%N, 0x1C82%N, 1%N, -6244);
   (0x1C83%N, 0x1C84%N, 1%N, -6242); (0x1C85%N, 0x1C85%N, 1%N, -6243);
   (0x1C86%N, 0x1C86%N, 1%N, -6236); (0x1C87%N, 0x1C87%N, 1%N, -6181);
   (0x1C88%N, 0x1C88%N, 1%N, 35266); (0x1D79%N, 0x1D79%N, 1%N, 35332);
   (0x1D7D%N, 0x1D7D%N, 1%N, 3814); (0x1D8E%N, 0x1D8E%N, 1%N, 35384);
   (0x1E01%N, 0x1E95%N, 2%N, -1); (0x1E9B%N, 0x1E9B%N, 1%N, -59);
   (0x1EA1%N, 0x1EFF%N, 2%N, -1); (0x1F00%N, 0x1F07%N, 1%N, 8); (0x1F10%N, 0x1F15%N, 1%N, 8);
   (0x1F20%N, 0x1F27%N, 1%N, 8); (0x1F30%N, 0x1F37%N, 1%N, 8); (0x1F40%N, 0x1F45%N, 1%N, 8);
   (0x1F51%N, 0x1F57%N, 2%N, 8); (0x1F60%N, 0x1F67%N, 1%N, 8); (0x1F70%N, 0x1F71%N, 1%N, 74);
   (0x1F72%N, 0x1F75%N, 1%N, 86); (0x1F76%N, 0x1F77%N, 1%N, 100);
   (0x1F78%N, 0x1F79%N, 1%N, 128); (0x1F7A%N, 0x1F7B%N, 1%N, 112);
   (0x1F7C%N, 0x1F7D%N, 1%N, 126); (0x1FB0%N, 0x1FB1%N, 1%N, 8);
   (0x1FBE%N, 0x1FBE%N, 1%N, -7205); (0x1FD0%N, 0x1FD1%N, 1%N, 8);
   (0x1FE0%N, 0x1FE1%N, 1%N, 8); (0x1FE5%N, 0x1FE5%N, 1%N, 7); (0x214E%N, 0x214E%N, 1%N, -28);
   (0x2170%N, 0x217F%N, 1%N, -16); (0x2184%N, 0x2184%N, 1%N, -1);
   (0x24D0%N, 0x24E9%N, 1%N, -26); (0x2C30%N, 0x2C5F%N, 1%N, -48);
   (0x2C61%N, 0x2C61%N, 1%N, -1); (0x2C65%N, 0x2C65%N, 1%N, -10795);
   (0x2C66%N, 0x2C66%N, 1%N, -10792); (0x2C68%N, 0x2C6C%N, 2%N, -1);
   (0x2C73%N, 0x2C73%N, 1%N, -1); (0x2C76%N, 0x2C76%N, 1%N, -1); (0x2C81%N, 0x2CE3%N, 2%N, -1);
   (0x2CEC%N, 0x2CEE%N, 2%N, -1); (0x2CF3%N, 0x2CF3%N, 1%N, -1);
   (0x2D00%N, 0x2D25%N, 1%N, -7264); (0x2D27%N, 0x2D27%N, 1%N, -7264);
   (0x2D2D%N, 0x2D2D%N, 1%N, -7264); (0xA641%N, 0xA66D%N, 2%N, -1);
   (0xA681%N, 0xA69B%N, 2%N, -1); (0xA723%N, 0xA72F%N, 2%N, -1); (0xA733%N, 0xA76F%N, 2%N, -1);
   (0xA77A%N, 0xA77C%N, 2%N, -1); (0xA77F%N, 0xA787%N, 2%N, -1); (0xA78C%N, 0xA78C%N, 1%N, -1);
   (0xA791%N, 0xA793%N, 2%N, -1); (0xA794%N, 0xA794%N, 1%N, 48); (0xA797%N, 0xA7A9%N, 2%N, -1);
   (0xA7B5%N, 0xA7C3%N, 2%N, -1); (0xA7C8%N, 0xA7CA%N, 2%N, -1); (0xA7D1%N, 0xA7D1%N, 1%N, -1);
   (0xA7D7%N, 0xA7D9%N, 2%N, -1); (0xA7F6%N, 0xA7F6%N, 1%N, -1);
   (0xAB53%N, 0xAB53%N, 1%N, -928); (0xAB70%N, 0xABBF%N, 1%N, -38864);
   (0xFF41%N, 0xFF5A%N, 1%N, -32); (0x10428%N, 0x1044F%N, 1%N, -40);
   (0x104D8%N, 0x104FB%N, 1%N, -40); (0x10597%N, 0x105A1%N, 1%N, -39);
   (0x105A3%N, 0x105B1%N, 1%N, -39); (0x105B3%N, 0x105B9%N, 1%N, -39);
   (0x105BB%N, 0x105BC%N, 1%N, -39); (0x10CC0%N, 0x10CF2%N, 1%N, -64);
   (0x118C0%N, 0x118DF%N, 1%N, -32); (0x16E60%N, 0x16E7F%N, 1%N, -32);
   (0x1E922%N, 0x1E943%N, 1%N, -34)].

Definition upper_special : list (N * list N) :=
  [(0xDF, [0x53; 0x53]); (0x149, [0x2BC; 0x4E]); (0x1F0, [0x4A; 0x30C]);
   (0x390, [0x399; 0x308; 0x301]); (0x3B0, [0x3A5; 0x308; 0x301]); (0x587, [0x535; 0x552]);
   (0x1E96, [0x48; 0x331]); (0x1E97, [0x54; 0x308]); (0x1E98, [0x57; 0x30A]);
   (0x1E99, [0x59; 0x30A]); (0x1E9A, [0x41; 0x2BE]); (0x1F50, [0x3A5; 0x313]);
   (0x1F52, [0x3A5; 0x313; 0x300]); (0x1F54, [0x3A5; 0x313; 0x301]);
   (0x1F56, [0x3A5; 0x313; 0x342]); (0x1F80, [0x1F08; 0x399]); (0x1F81, [0x1F09; 0x399]);
   (0x1F82, [0x1F0A; 0x399]); (0x1F83, [0x1F0B; 0x399]); (0x1F84, [0x1F0C; 0x399]);
   (0x1F85, [0x1F0D; 0x399]); (0x1F86, [0x1F0E; 0x399]); (0x1F87, [0x1F0F; 0x399]);
   (0x1F88, [0x1F08; 0x399]); (0x1F89, [0x1F09; 0x399]); (0x1F8A, [0x1F0A; 0x399]);
   (0x1F8B, [0x1F0B; 0x399]); (0x1F8C, [0x1F0C; 0x399]); (0x1F8D, [0x1F0D; 0x399]);
   (0x1F8E, [0x1F0E; 0x399]); (0x1F8F, [0x1F0F; 0x399]); (0x1F90, [0x1F28; 0x399]);
   (0x1F91, [0x1F29; 0x399]); (0x1F92, [0x1F2A; 0x399]); (0x1F93, [0x1F2B; 0x399]);
   (0x1F94, [0x1F2C; 0x399]); (0x1F95, [0x1F2D; 0x399]); (0x1F96, [0x1F2E; 0x399]);
   (0x1F97, [0x1F2F; 0x399]); (0x1F98, [0x1F28; 0x399]); (0x1F99, [0x1F29; 0x399]);
   (0x1F9A, [0x1F2A; 0x399]); (0x1F9B, [0x1F2B; 0x399]); (0x1F9C, [0x1F2C; 0x399]);
   (0x1F9D, [0x1F2D; 0x399]); (0x1F9E, [0x1F2E; 0x399]); (0x1F9F, [0x1F2F; 0x399]);
   (0x1FA0, [0x1F68; 0x399]); (0x1FA1, [0x1F69; 0x399]); (0x1FA2, [0x1F6A; 0x399]);
   (0x1FA3, [0x1F6B; 0x399]); (0x1FA4, [0x1F6C; 0x399]); (0x1FA5, [0x1F6D; 0x399]);
   (0x1FA6, [0x1F6E; 0x399]); (0x1FA7, [0x1F6F; 0x399]); (0x1FA8, [0x1F68; 0x399]);
   (0x1FA9, [0x1F69; 0x399]); (0x1FAA, [0x1F6A; 0x399]); (0x1FAB, [0x1F6B; 0x399]);
   (0x1FAC, [0x1F6C; 0x399]); (0x1FAD, [0x1F6D; 0x399]); (0x1FAE, [0x1F6E; 0x399]);
   (0x1FAF, [0x1F6F; 0x399]); (0x1FB2, [0x1FBA; 0x399]); (0x1FB3, [0x391; 0x399]);
   (0x1FB4, [0x386; 0x399]); (0x1FB6, [0x391; 0x342]); (0x1FB7, [0x391; 0x342; 0x399]);
   (0x1FBC, [0x391; 0x399]); (0x1FC2, [0x1FCA; 0x399]); (0x1FC3, [0x397; 0x399]);
   (0x1FC4, [0x389; 0x399]); (0x1FC6, [0x397; 0x342]); (0x1FC7, [0x397; 0x342; 0x399]);
   (0x1FCC, [0x397; 0x399]); (0x1FD2, [0x399; 0x308; 0x300]); (0x1FD3, [0x399; 0x308; 0x301]);
   (0x1FD6, [0x399; 0x342]); (0x1FD7, [0x399; 0x308; 0x342]); (0x1FE2, [0x3A5; 0x308; 0x300]);
   (0x1FE3, [0x3A5; 0x308; 0x301]); (0x1FE4, [0x3A1; 0x313]); (0x1FE6, [0x3A5; 0x342]);
   (0x1FE7, [0x3A5; 0x308; 0x342]); (0x1FF2, [0x1FFA; 0x399]); (0x1FF3, [0x3A9; 0x399]);
   (0x1FF4, [0x38F; 0x399]); (0x1FF6, [0x3A9; 0x342]); (0x1FF7, [0x3A9; 0x342; 0x399]);
   (0x1FFC, [0x3A9; 0x399]); (0xFB00, [0x46; 0x46]); (0xFB01, [0x46; 0x49]);
   (0xFB02, [0x46; 0x4C]); (0xFB03, [0x46; 0x46; 0x49]); (0xFB04, [0x46; 0x46; 0x4C]);
   (0xFB05, [0x53; 0x54]); (0xFB06, [0x53; 0x54]); (0xFB13, [0x544; 0x546]);
   (0xFB14, [0x544; 0x535]); (0xFB15, [0x544; 0x53B]); (0xFB16, [0x54E; 0x546]);
   (0xFB17, [0x544; 0x53D])]%N.

Definition upper_char (c : N) : list N :=
  match find (λ '(k, _), k =? c)%N upper_special with
  | Some (_, u) => u
  | None =>
      match find (λ '(a, b, step, _), (a <=? c) && (c <=? b) && ((c - a) mod step =? 0))%N
                 upper_simple with
      | Some (_, _, _, delta) => [Z.to_N (Z.of_N c + delta)]
      | None => [c]
      end
  end.

(** [s.upper()] *)
Definition cpython_upper (s : str) : str := s ≫= upper_char.

(** [s.isdigit()] *)
Definition cpython_isdigit (s : str) : bool :=
  match s with
  | [] => false
  | _ => forallb is_digit s
  end.

(** [int(s)] for a [str] of digits, which is all the editor calls it on: the
    decimal digits of any script are read in base ten; a digit without a
    decimal value and a [str] of more than 4300 digits raise [ValueError].
    (Signs, underscores and white space around the digits, which [int] also
    reads, never reach it.) *)
Definition cpython_int (s : str) : option Z :=
  match s with
  | [] => None
  | _ =>
      if decide (length s ≤ 4300)%nat
      then foldl (λ acc c, a ← acc; d ← decimal c; Some (10 * a + d)) (Some 0) s
      else None
  end.

(** SQLite keeps an INTEGER in 64 bits: [sqlite3] raises [OverflowError]
    for any other [int]. *)
Definition sqlite_fits_INTEGER (i : Z) : bool := bool_decide (- 2 ^ 63 ≤ i < 2 ^ 63).

Definition cpython_sqlite : Platform := {|
  upper := cpython_upper;
  isdigit := cpython_isdigit;
  int := cpython_int;
  fits_INTEGER := sqlite_fits_INTEGER
|}.

(** ** Example ledgers *)

(** A league of two with one reported match and one bye waiting to be
    resolved, rated in real numbers. *)
Definition karl : Player R := mkPlayer 1 "Karl" 1016%R true (Some "Empire of Man") 0.
Definition grimgor : Player R := mkPlayer 2 "Grimgor" 984%R true None 0.

Definition reported_match : Match R :=
  mkMatch 1 "05/11/2025" 1 (Some 2) a_win (Some 1000%R) (Some 1000%R)
          (Some 1016%R) (Some 984%R) (Some 17) (Some 40)
          (Some "Empire of Man") (Some "Orc & Goblin Tribes").

Definition pending_bye : Match R :=
  mkMatch 2 "12/11/2025" 1 None pending None None None None None None None None.

Definition small_ledger : Store R :=
  mkStore [karl; grimgor] [reported_match; pending_bye] [].

(** A league of six rated in rationals: four present players, one absent
    and one archived. *)
Definition league_player (i : Z) (n : string) (r : Q) (a : bool) : Player Q :=
  mkPlayer i n r a None 0.

Definition league_players : list (Player Q) :=
  [league_player 12 "Bertha" 1100 true; league_player 7 "Albrecht" 1200 true;
   league_player 5 "Elsa" 1300 true; league_player 3 "Conrad" 1000 true;
   league_player 9 "Fritz" 1250 false; league_player 21 "Dieter" 900 true].

Definition league_attendance : list Attendance :=
  [mkAttendance 1 "12/11/2025" 7 true; mkAttendance 2 "12/11/2025" 12 true;
   mkAttendance 3 "12/11/2025" 3 true; mkAttendance 4 "12/11/2025" 21 true;
   mkAttendance 5 "19/11/2025" 5 false].

Definition earlier_match : Match Q :=
  mkMatch 1 "05/11/2025" 12 (Some 7) b_win (Some 1100%Q) (Some 1180%Q)
          (Some 1080%Q) (Some 1200%Q) (Some 17) (Some 40) None None.

Definition league : Store Q := mkStore league_players [] league_attendance.
Definition league_after_a_week : Store Q :=
  mkStore league_players [earlier_match] league_attendance.

(** Rows that record factions for player 1, as A and as B. *)
Definition faction_row (i a : Z) (b : option Z) (fa fb : option string) : Match Q :=
  mkMatch i "05/11/2025" a b a_win None None None None None None fa fb.

Definition empire_thrice : Store Q :=
  mkStore []
    [faction_row 1 1 (Some 2) (Some "Empire of Man") (Some "Skaven");
     faction_row 2 2 (Some 1) (Some "Skaven") (Some "Empire of Man");
     faction_row 3 1 (Some 2) (Some "Dwarfen Mountain Holds") (Some "");
     faction_row 4 1 None (Some "Empire of Man") None;
     faction_row 5 3 (Some 1) None None] [].

Definition two_each : Store Q :=
  mkStore []
    [faction_row 1 1 (Some 2) (Some "Empire of Man") (Some "Skaven");
     faction_row 2 2 (Some 1) (Some "Skaven") (Some "Empire of Man");
     faction_row 3 1 (Some 2) (Some "Dwarfen Mountain Holds") None;
     faction_row 4 1 None (Some "Dwarfen Mountain Holds") None] [].

(** ** Further example data *)

(** Ratings in real numbers, ordered by [≤]. *)
Definition real_order : RatingOrder R := λ x y, if Rle_dec x y then true else false.

(** [small_ledger] with a pending game between its two players. *)
Definition rematch : Match R :=
  mkMatch 3 "12/11/2025" 2 (Some 1) pending None None None None None None None None.

Definition ledger_with_rematch : Store R :=
  mkStore [karl; grimgor] [reported_match; pending_bye; rematch] [].

(** [small_ledger] with a pending game against a player who is not in the
    table. *)
Definition orphan_match : Match R :=
  mkMatch 3 "12/11/2025" 1 (Some 9) pending None None None None None None None None.

Definition ledger_with_orphan : Store R :=
  mkStore [karl; grimgor] [reported_match; pending_bye; orphan_match] [].

(** [league] with its round of 12/11/2025 generated and not yet played. *)
Definition pending_first : Match Q :=
  mkMatch 1 "12/11/2025" 7 (Some 12) pending None None None None None None None None.

Definition pending_second : Match Q :=
  mkMatch 2 "12/11/2025" 3 (Some 21) pending None None None None None None None None.

Definition league_with_round : Store Q :=
  mkStore league_players [pending_first; pending_second] league_attendance.

(** Two weeks locked behind a password. *)
Definition example_keys : list WeekKey :=
  [mkWeekKey 1 "05/11/2025" "waaagh"; mkWeekKey 2 "12/11/2025" "sigmar"].

(** Monday 10 and Sunday 16 November 2025 as ordinals. *)
Definition mon_10_11_2025 : Z := 739565.
Definition sun_16_11_2025 : Z := 739571.

(** ** The rating model *)

Section EloFacts.
Context {F : Type} `{FloatArith F}.
Local Open Scope pyfloat_scope.

(** Each side is updated by its own expected score. *)
Lemma update_elo_unfold (ra rb score_a : F) (k : Z) :
  update_elo ra rb score_a k =
    (ra + float_of_int k * (score_a - expected_score ra rb),
     rb + float_of_int k * ((float_of_int 1 - score_a) - expected_score rb ra)).
Proof. reflexivity. Qed.
End EloFacts.

(** Read in real arithmetic, the expected score is the logistic curve of
    scale 400. *)
Section RealRatings.
Local Open Scope R_scope.

Lemma expected_score_real (rp ro : R) :
  expected_score rp ro = 1 / (1 + Rpower 10 ((ro - rp) / 400)).
Proof.
  unfold expected_score. simpl. unfold Q2R. simpl. rewrite !Rinv_1, !Rmult_1_r. done.
Qed.
End RealRatings.

(** C2: [update_elo] returns, for each side, the old rating plus [k] times
    the difference between the side's actual score ([score_a] for A,
    [1 - score_a] for B) and the side's own expected score, where the
    expected score of [rp] against [ro] is
    [1 / (1 + 10 ** ((ro - rp) / 400))]: for every interpretation of the
    float operations, and so in real arithmetic.  Both functions are
    functions of their arguments alone. *)
Theorem update_elo_formula :
  (∀ (F : Type) (ops : FloatArith F) (ra rb score_a : F) (k : Z),
     let E rp ro :=
       (float_lit 1 / (float_lit 1 + float_of_int 10 ** ((ro - rp) / float_lit 400)))%pf in
     expected_score ra rb = E ra rb ∧
     expected_score rb ra = E rb ra ∧
     update_elo ra rb score_a k =
       ((ra + float_of_int k * (score_a - E ra rb))%pf,
        (rb + float_of_int k * ((float_of_int 1 - score_a) - E rb ra))%pf)) ∧
  (∀ (ra rb score_a : R) (k : Z),
     let E rp ro := (1 / (1 + Rpower 10 ((ro - rp) / 400)))%R in
     update_elo ra rb score_a k =
       ((ra + IZR k * (score_a - E ra rb))%R,
        (rb + IZR k * ((1 - score_a) - E rb ra))%R)).
Proof.
  split.
  - intros F ops ra rb score_a k E. by rewrite update_elo_unfold.
  - intros ra rb score_a k E. rewrite update_elo_unfold, !expected_score_real. done.
Qed.

(** ** Reading back what was written *)

Section SessionFacts.
Context {F : Type}.
Implicit Types (st : Store F) (m : Match F) (p : Player F).

Lemma get_match_Some st i m : get_match st i = Some m → m ∈ matches st ∧ m_id m = i.
Proof.
  unfold get_match. intros Hf. apply find_some in Hf as [Hin Heq].
  split; [by apply list_elem_of_In | lia].
Qed.

Lemma find_id_split (l : list (Match F)) i m :
  NoDup (m_id <$> l) → find (λ r, m_id r =? i) l = Some m →
  ∃ l1 l2, l = l1 ++ m :: l2 ∧ m_id m = i ∧
           Forall (λ r, m_id r ≠ i) l1 ∧ Forall (λ r, m_id r ≠ i) l2.
Proof.
  induction l as [|r l IH]; simpl; [done|].
  rewrite NoDup_cons. intros [Hr Hnd]. destruct (Z.eqb_spec (m_id r) i) as [Heq|Hne].
  - intros [= <-]. exists [], l. repeat split; auto.
    apply Forall_forall. intros r' Hr' Heq'. apply Hr.
    rewrite Heq, <- Heq'. by apply list_elem_of_fmap_2.
  - intros Hf. destruct (IH Hnd Hf) as (l1 & l2 & -> & Hid & H1 & H2).
    exists (r :: l1), l2. repeat split; auto.
Qed.

Lemma map_replace_other (l : list (Match F)) i m' :
  Forall (λ r, m_id r ≠ i) l → map (λ r, if m_id r =? i then m' else r) l = l.
Proof.
  induction 1 as [|r l Hr _ IH]; simpl; [done|].
  rewrite IH. by destruct (Z.eqb_spec (m_id r) i).
Qed.

Lemma put_match_split st l1 l2 m m' :
  matches st = l1 ++ m :: l2 → m_id m' = m_id m →
  Forall (λ r, m_id r ≠ m_id m) l1 → Forall (λ r, m_id r ≠ m_id m) l2 →
  matches (put_match m' st) = l1 ++ m' :: l2.
Proof.
  intros Hst Hid H1 H2. unfold put_match. simpl. rewrite Hst, Hid, map_app. simpl.
  rewrite Z.eqb_refl, !map_replace_other by done. done.
Qed.

(** The first row with key [m_id m'] is [m'] once [m'] has been put. *)
Lemma get_put_match st i m m' :
  get_match st i = Some m → m_id m' = i → get_match (put_match m' st) i = Some m'.
Proof.
  unfold get_match, put_match. simpl. intros Hf <-.
  induction (matches st) as [|r l IH]; simpl in *; [done|].
  destruct (Z.eqb_spec (m_id r) (m_id m')) as [Heq|Hne].
  - by rewrite Z.eqb_refl.
  - destruct (Z.eqb_spec (m_id r) (m_id m')); [done|]. auto.
Qed.
End SessionFacts.

(** ** Recording results *)

Section RecordResultFacts.
Context {F : Type} `{FloatArith F}.
Implicit Types (st : Store F) (m : Match F) (p : Player F).

Lemma record_result_guard st i k res fa fb now m :
  get_match st i = Some m → result m ≠ pending →
  record_result st i k res fa fb now = (error_already_recorded, st).
Proof.
  intros Hget Hres. unfold record_result. rewrite Hget.
  by destruct (decide (result m ≠ pending)).
Qed.

(** C1: when the match has no row, or its stored result is no longer
    [pending], recording a result reports "already recorded" and leaves the
    whole store, so every match field and every player rating, as it was. *)
Theorem record_result_already_recorded st i k res fa fb now :
  (∀ m, get_match st i = Some m → result m ≠ pending) →
  record_result st i k res fa fb now = (error_already_recorded, st).
Proof.
  intros Hres. destruct (get_match st i) as [m|] eqn:Hget.
  - eapply record_result_guard; eauto.
  - unfold record_result. by rewrite Hget.
Qed.

Lemma get_match_set_rating st j r i : get_match (set_rating j r st) i = get_match st i.
Proof. done. Qed.

(** Whatever a successful call stored, a second call for the same match is
    refused and changes nothing. *)
Lemma record_result_retry st i k res fa fb now fbk st' k' res' fa' fb' now' :
  record_result st i k res fa fb now = (fbk, st') →
  fbk = success_bye ∨ fbk = success_saved (k_of_choice k) →
  record_result st' i k' res' fa' fb' now' = (error_already_recorded, st').
Proof.
  unfold record_result at 1. destruct (get_match st i) as [m|] eqn:Hget.
  2: { intros [= <- <-] [?|?]; done. }
  destruct (get_match_Some _ _ _ Hget) as [_ Hid].
  destruct (decide (result m ≠ pending)). { intros [= <- <-] [?|?]; done. }
  destruct (get_player st (player_a_id m)) as [pa|]. 2: { intros [= <- <-] [?|?]; done. }
  destruct (match player_b_id m with Some b => get_player st b | None => None end) as [pb|].
  - destruct (update_elo _ _ _ _) as [new_a new_b]. intros [= <- <-] _.
    eapply record_result_guard.
    + apply get_put_match with (m := m); [|done]. by rewrite !get_match_set_rating.
    + simpl. by destruct res.
  - intros [= <- <-] _. eapply record_result_guard.
    + by apply get_put_match with (m := m).
    + done.
Qed.

Lemma record_step_shift (player : Z) (ms : list (Match F)) w d l :
  foldl (record_step player) (w + 1, d, l) ms =
  let '(w', d', l') := foldl (record_step player) (w, d, l) ms in (w' + 1, d', l').
Proof.
  revert w d l. induction ms as [|m ms IH]; intros w d l; cbn [foldl]; [done|].
  assert (record_step player (w + 1, d, l) m =
          let '(w', d', l') := record_step player (w, d, l) m in (w' + 1, d', l')) as ->.
  { unfold record_step. destruct (player_b_id m), (result m);
      repeat case_decide; f_equal; try done; f_equal; lia. }
  destruct (record_step player (w, d, l) m) as [[w' d'] l']. apply IH.
Qed.

(** C6: resolving a bye sets the result to [a_win], stores the recipient's
    rating unchanged as both the rating before and the rating after, leaves
    every player row as it was, records no K-factor, and adds exactly one
    win to the recipient's record. *)
Theorem record_result_bye st i k res fa fb now m pa :
  NoDup (m_id <$> matches st) →
  get_match st i = Some m → result m = pending → player_b_id m = None →
  get_player st (player_a_id m) = Some pa →
  ∃ st' m',
    record_result st i k res fa fb now = (success_bye, st') ∧
    players st' = players st ∧
    get_match st' i = Some m' ∧
    player_a_id m' = player_a_id m ∧ player_b_id m' = None ∧
    result m' = a_win ∧
    a_rating_before m' = Some (rating pa) ∧
    a_rating_after m' = a_rating_before m' ∧
    k_factor_used m' = None ∧
    player_record st' (player_a_id m) =
      (let '(w, d, l) := player_record st (player_a_id m) in (w + 1, d, l)).
Proof.
  intros Hnd Hget Hres Hbye Hpa. unfold record_result.
  rewrite Hget, Hpa, Hbye. destruct (decide (result m ≠ pending)); [done|].
  eexists _, _. split; [reflexivity|]. split; [done|].
  split; [apply get_put_match with (m := m); [done|apply (get_match_Some _ _ _ Hget)]|].
  simpl.
  do 6 (split; [done|]).
  destruct (find_id_split _ _ _ Hnd Hget) as (l1 & l2 & Hst & Hid & H1 & H2).
  match goal with |- context [put_match ?x st] => set (m' := x) end.
  unfold player_record.
  rewrite (put_match_split st l1 l2 m m' Hst eq_refl) by (by rewrite Hid).
  rewrite Hst, !filter_app, !filter_cons_True by (simpl; auto).
  rewrite !foldl_app. cbn [foldl].
  destruct (foldl _ (0, 0, 0) (filter _ l1)) as [[w d] l].
  assert (record_step (player_a_id m) (w, d, l) m = (w, d, l)) as ->.
  { unfold record_step. rewrite Hbye, Hres. rewrite decide_False; [done|]. by intros [_ ?]. }
  assert (record_step (player_a_id m) (w, d, l) m' = (w + 1, d, l)) as ->.
  { unfold record_step. simpl. by rewrite decide_True. }
  apply record_step_shift.
Qed.
End RecordResultFacts.

(** ** The pairing engine *)

Section PairLoopFacts.
Implicit Types (past : gset (Z * Z)) (used : gset Z) (ids rest : list Z).

Lemma pick_opponent_Some past used pid rest opp :
  pick_opponent past used pid rest = Some opp → opp ∈ rest ∧ opp ∉ used.
Proof.
  unfold pick_opponent.
  destruct (find _ rest) as [o|] eqn:H1.
  - intros [= ->]. apply find_some in H1 as [Hin Hd].
    apply bool_decide_eq_true in Hd as [? _]. split; [by apply list_elem_of_In|done].
  - intros H2. apply find_some in H2 as [Hin Hd].
    apply bool_decide_eq_true in Hd. split; [by apply list_elem_of_In|done].
Qed.

Lemma pick_opponent_None past used pid rest :
  pick_opponent past used pid rest = None → filter (λ i, i ∉ used) rest = [].
Proof.
  unfold pick_opponent. destruct (find _ rest) as [o|]; [done|]. intros H2.
  induction rest as [|x rest IH]; [done|]. simpl in H2.
  destruct (bool_decide (x ∉ used)) eqn:Hx; [done|].
  apply bool_decide_eq_false in Hx. rewrite filter_cons_False by done. auto.
Qed.

(** The opponent is the first unused later id not met before ... *)
Lemma pick_opponent_first_fresh past used pid (l1 : list Z) opp (l2 : list Z) :
  Forall (λ c, c ∈ used ∨ sorted_pair pid c ∈ past) l1 →
  opp ∉ used → sorted_pair pid opp ∉ past →
  pick_opponent past used pid (l1 ++ opp :: l2) = Some opp.
Proof.
  intros Hl1 Hu Hp. unfold pick_opponent.
  assert (find (λ cand, bool_decide ((cand ∉ used) ∧ (sorted_pair pid cand ∉ past)))
            (l1 ++ opp :: l2) = Some opp) as ->; [|done].
  induction Hl1 as [|c l1 Hc _ IH]; simpl.
  - by rewrite bool_decide_true.
  - by rewrite bool_decide_false by tauto.
Qed.

(** ... and, when every unused later id was met before, the first unused one. *)
Lemma pick_opponent_fallback past used pid (l1 : list Z) opp (l2 : list Z) :
  Forall (λ c, c ∈ used ∨ sorted_pair pid c ∈ past) (l1 ++ opp :: l2) →
  Forall (λ c, c ∈ used) l1 → opp ∉ used →
  pick_opponent past used pid (l1 ++ opp :: l2) = Some opp.
Proof.
  intros Hall Hl1 Hu. unfold pick_opponent.
  assert (find (λ cand, bool_decide ((cand ∉ used) ∧ (sorted_pair pid cand ∉ past)))
            (l1 ++ opp :: l2) = None) as ->.
  { induction Hall as [|c l Hc _ IH]; simpl; [done|].
    by rewrite bool_decide_false by tauto. }
  induction Hl1 as [|c l1 Hc _ IH]; simpl.
  - by rewrite bool_decide_true.
  - rewrite bool_decide_false by tauto. apply IH. by inversion Hall.
Qed.

Lemma filter_ext_elem {A} (P1 P2 : A → Prop)
    `{!∀ x, Decision (P1 x), !∀ x, Decision (P2 x)} (l : list A) :
  (∀ x, x ∈ l → P1 x ↔ P2 x) → filter P1 l = filter P2 l.
Proof.
  induction l as [|a l IH]; intros Hl; [done|].
  assert (filter P1 l = filter P2 l) as Hl' by (apply IH; intros x Hx; apply Hl; by right).
  pose proof (Hl a (list_elem_of_here _ _)). destruct (decide (P1 a)).
  - rewrite !filter_cons_True by naive_solver. by rewrite Hl'.
  - rewrite !filter_cons_False by naive_solver. done.
Qed.

Lemma filter_unused_more used (extra : gset Z) rest :
  (∀ x, x ∈ extra → x ∉ rest) →
  filter (λ i, i ∉ used ∪ extra) rest = filter (λ i, i ∉ used) rest.
Proof.
  intros Hex. apply filter_ext_elem. intros x Hx.
  specialize (Hex x). set_solver.
Qed.

Lemma filter_all {A} (P : A → Prop) `{!∀ x, Decision (P x)} (l : list A) :
  (∀ x, P x) → filter P l = l.
Proof.
  intros HP. induction l as [|x l IH]; [done|].
  rewrite filter_cons_True by done. by rewrite IH.
Qed.

Lemma filter_none {A} (P : A → Prop) `{!∀ x, Decision (P x)} (l : list A) :
  (∀ x, ¬ P x) → filter P l = [].
Proof.
  intros HP. induction l as [|x l IH]; [done|]. by rewrite filter_cons_False.
Qed.

Lemma filter_split_elem (P : Z → Prop) `{∀ x, Decision (P x)} (l : list Z) (o : Z) :
  NoDup l → o ∈ l → P o → filter P l ≡ₚ o :: filter (λ x, P x ∧ x ≠ o) l.
Proof.
  intros Hnd Hin Ho. induction l as [|x l IH]; [by apply elem_of_nil in Hin|].
  apply NoDup_cons in Hnd as [Hx Hnd]. apply elem_of_cons in Hin as [->|Hin].
  - rewrite filter_cons_True by done. rewrite (filter_cons_False _ x) by naive_solver.
    f_equiv. apply reflexive_eq, filter_ext_elem.
    intros y Hy. split; [|naive_solver]. intros ?; split; [done|]. by intros ->.
  - assert (x ≠ o) by (by intros ->). destruct (decide (P x)).
    + rewrite !filter_cons_True by done. rewrite IH by done. apply Permutation_swap.
    + rewrite !filter_cons_False by naive_solver. auto.
Qed.

(** Every id of the list that was not used before the loop appears in
    exactly one of the pairs it produces. *)
Lemma pair_loop_cover past used ids :
  NoDup ids →
  pair_loop past used ids ≫= ids_of_pair ≡ₚ filter (λ i, i ∉ used) ids.
Proof.
  revert used. induction ids as [|pid rest IH]; intros used Hnd; [done|].
  apply NoDup_cons in Hnd as [Hpid Hnd]. simpl.
  destruct (decide (pid ∈ used)) as [Hu|Hu].
  { rewrite filter_cons_False by naive_solver. auto. }
  rewrite filter_cons_True by done.
  destruct (pick_opponent past used pid rest) as [opp|] eqn:Hpick.
  - apply pick_opponent_Some in Hpick as [Hin Hopp].
    cbn. f_equiv. rewrite IH by done.
    rewrite (filter_split_elem (λ i, i ∉ used) rest opp) by done. f_equiv.
    apply reflexive_eq, filter_ext_elem. intros x Hx.
    assert (x ≠ pid) by (by intros ->). set_solver.
  - apply pick_opponent_None in Hpick. cbn. f_equiv. rewrite IH by done.
    rewrite filter_unused_more; [by rewrite Hpick|set_solver].
Qed.

Lemma bind_ids_nil (ps : list (Z * option Z)) : ps ≫= ids_of_pair ≡ₚ [] → ps = [].
Proof. destruct ps as [|[a b] ps]; [done|]. intros Hp. by apply Permutation_nil_r in Hp. Qed.

Lemma length_bind_ids (ps : list (Z * option Z)) :
  length (ps ≫= ids_of_pair) =
  (2 * length (filter (λ p, p.2 ≠ None) ps) + length (filter (λ p, p.2 = None) ps))%nat.
Proof.
  induction ps as [|[a [b|]] ps IH]; [done| |].
  - rewrite filter_cons_True, filter_cons_False by naive_solver.
    cbn in *. lia.
  - rewrite filter_cons_False, filter_cons_True by naive_solver.
    cbn in *. lia.
Qed.

(** At most one pair is a bye. *)
Lemma pair_loop_byes past used ids :
  NoDup ids → (length (filter (λ p, p.2 = None) (pair_loop past used ids)) ≤ 1)%nat.
Proof.
  revert used. induction ids as [|pid rest IH]; intros used Hnd; [simpl; lia|].
  apply NoDup_cons in Hnd as [Hpid Hnd]. simpl.
  destruct (decide (pid ∈ used)) as [Hu|Hu]; [auto|].
  destruct (pick_opponent past used pid rest) as [opp|] eqn:Hpick.
  - rewrite filter_cons_False by naive_solver. auto.
  - apply pick_opponent_None in Hpick.
    assert (pair_loop past (used ∪ {[pid]}) rest = []) as ->.
    { apply bind_ids_nil. rewrite pair_loop_cover by done.
      rewrite filter_unused_more; [by rewrite Hpick|set_solver]. }
    done.
Qed.
End PairLoopFacts.

Section PairingFacts.
Context {F : Type} `{RatingOrder F}.
Implicit Types (st : Store F) (m : Match F) (p : Player F).

(** The rows the creation loop returns are the rows it appends, one per
    pair and in the order of the pairs, all pending and all of the week. *)
Lemma create_matches_from w (ps : list (Z * option Z)) (acc : list (Match F)) st :
  ∃ created st',
    foldl (λ '(created, st) '(a, b),
             let '(m, st') := add_match st w a b in (created ++ [m], st'))
          (acc, st) ps = (acc ++ created, st') ∧
    players st' = players st ∧ attendance st' = attendance st ∧
    matches st' = matches st ++ created ∧
    pair_of_match <$> created = ps ∧
    Forall (λ m, week m = w ∧ result m = pending) created.
Proof.
  revert acc st. induction ps as [|[a b] ps IH]; intros acc st.
  - exists [], st. simpl. by rewrite !app_nil_r.
  - cbn [foldl]. unfold add_match at 2. cbn beta iota zeta.
    destruct (IH (acc ++ [new_match st w a b])
                (mkStore (players st) (matches st ++ [new_match st w a b]) (attendance st)))
      as (created & st' & -> & Hp & Ha & Hm & Hps & Hall).
    exists (new_match st w a b :: created), st'. simpl in Hp, Ha, Hm.
    rewrite <- app_assoc in Hm. rewrite <- app_assoc. subst ps.
    repeat split; try done. by constructor.
Qed.

Lemma create_matches_spec w (ps : list (Z * option Z)) st :
  let '(created, st') := create_matches w ps st in
  players st' = players st ∧ attendance st' = attendance st ∧
  matches st' = matches st ++ created ∧
  pair_of_match <$> created = ps ∧
  Forall (λ m, week m = w ∧ result m = pending) created.
Proof.
  unfold create_matches.
  destruct (create_matches_from w ps [] st) as (created & st' & -> & ?). done.
Qed.

Lemma generate_weekly_pairings_spec st w restrict :
  let '(created, st') := generate_weekly_pairings st w restrict in
  players st' = players st ∧ attendance st' = attendance st ∧
  matches st' = matches st ++ created ∧
  pair_of_match <$> created =
    pair_loop (fetch_past_pairs st) ∅ (eligible_ids st restrict) ∧
  Forall (λ m, week m = w ∧ result m = pending) created.
Proof.
  unfold generate_weekly_pairings.
  destruct (eligible_ids st restrict) as [|i ids] eqn:Hids.
  - simpl. by rewrite app_nil_r.
  - apply create_matches_spec.
Qed.

Lemma active_by_rating_perm st :
  active_by_rating st ≡ₚ filter (λ p, active p = true) (players st).
Proof. apply merge_sort_Permutation. Qed.

Lemma restrict_ids_sublist restrict (ids : list Z) : restrict_ids restrict ids `sublist_of` ids.
Proof.
  destruct restrict as [s|]; simpl; [|done].
  case_decide; [done|apply sublist_filter].
Qed.

(** Primary keys are unique, so no id occurs twice in the pool. *)
Lemma eligible_ids_NoDup st restrict :
  NoDup (p_id <$> players st) → NoDup (eligible_ids st restrict).
Proof.
  intros Hnd. unfold eligible_ids.
  eapply sublist_NoDup; [|apply restrict_ids_sublist].
  rewrite active_by_rating_perm.
  eapply sublist_NoDup; [exact Hnd|]. apply fmap_sublist, sublist_filter.
Qed.

Lemma bind_ids_of_match (created : list (Match F)) :
  created ≫= ids_of_match = (pair_of_match <$> created) ≫= ids_of_pair.
Proof.
  induction created as [|m ms IH]; [done|].
  rewrite fmap_cons, !bind_cons, IH. done.
Qed.

Lemma length_filter_fmap {A B} (f : A → B) (P : B → Prop) (Q : A → Prop)
    `{!∀ x, Decision (P x), !∀ x, Decision (Q x)} (l : list A) :
  (∀ x, Q x ↔ P (f x)) → length (filter Q l) = length (filter P (f <$> l)).
Proof.
  intros HQ. induction l as [|x l IH]; [done|]. rewrite fmap_cons.
  destruct (decide (Q x)) as [Hx|Hx].
  - rewrite filter_cons_True by done.
    rewrite (filter_cons_True P) by (by apply HQ). simpl. by rewrite IH.
  - rewrite filter_cons_False by done.
    rewrite (filter_cons_False P) by (by rewrite <- HQ). done.
Qed.

(** The rows of a generated round name the ids of the eligible pool, each
    as often as the pool lists it. *)
Lemma generate_weekly_pairings_ids st w restrict :
  NoDup (p_id <$> players st) →
  (generate_weekly_pairings st w restrict).1 ≫= ids_of_match
    ≡ₚ eligible_ids st restrict.
Proof.
  intros Hnd.
  pose proof (eligible_ids_NoDup st restrict Hnd) as Hids.
  pose proof (generate_weekly_pairings_spec st w restrict) as Hspec.
  destruct (generate_weekly_pairings st w restrict) as [created st'].
  destruct Hspec as (_ & _ & _ & Hps & _). simpl.
  rewrite bind_ids_of_match, Hps, pair_loop_cover by done.
  apply reflexive_eq, filter_all. set_solver.
Qed.

(** C4: the rows of a generated round name every id of the eligible pool
    exactly once; a pool of [2n+1] ids gives [n] two-sided rows and one
    bye, a pool of [2n] ids gives [n] two-sided rows and no bye, and an
    empty pool gives no row. *)
Theorem generate_weekly_pairings_cover st w restrict :
  NoDup (p_id <$> players st) →
  let ids := eligible_ids st restrict in
  let created := (generate_weekly_pairings st w restrict).1 in
  NoDup ids ∧
  created ≫= ids_of_match ≡ₚ ids ∧
  (∀ n : nat, length ids = (2 * n + 1)%nat →
     length (filter is_two_sided created) = n ∧ length (filter is_bye created) = 1%nat) ∧
  (∀ n : nat, length ids = (2 * n)%nat →
     length (filter is_two_sided created) = n ∧ length (filter is_bye created) = 0%nat) ∧
  (ids = [] → created = []).
Proof.
  intros Hnd ids created.
  pose proof (eligible_ids_NoDup st restrict Hnd) as Hids.
  pose proof (generate_weekly_pairings_spec st w restrict) as Hspec.
  pose proof (generate_weekly_pairings_ids st w restrict Hnd) as Hcover.
  fold ids in Hids, Hspec, Hcover. subst created.
  destruct (generate_weekly_pairings st w restrict) as [created st'].
  destruct Hspec as (_ & _ & _ & Hps & _). simpl in *.
  pose proof (pair_loop_byes (fetch_past_pairs st) ∅ ids Hids) as Hbyes.
  pose proof (length_bind_ids (pair_of_match <$> created)) as Hlen.
  rewrite <- bind_ids_of_match, Hcover in Hlen. rewrite <- Hps in Hbyes.
  assert (length (filter is_two_sided created) =
          length (filter (λ q : Z * option Z, q.2 ≠ None) (pair_of_match <$> created))) as Htwo
    by (by apply length_filter_fmap).
  assert (length (filter is_bye created) =
          length (filter (λ q : Z * option Z, q.2 = None) (pair_of_match <$> created))) as Hbye
    by (by apply length_filter_fmap).
  repeat split; try done; try lia.
  intros Hnil. rewrite Hnil in Hcover. apply Permutation_nil_r in Hcover.
  destruct created; [done|discriminate].
Qed.

Lemma filter_week_nil st w :
  filter (λ m, week m = w) (matches st) = [] ↔ ∀ m, m ∈ matches st → week m ≠ w.
Proof.
  split.
  - intros Hnil m Hm Hw. exact (filter_nil_not_elem_of _ _ m Hnil Hw Hm).
  - intros Hall. induction (matches st) as [|m ms IH]; [done|].
    rewrite filter_cons_False by (apply Hall; constructor).
    apply IH. intros m' Hm'. apply Hall. by constructor.
Qed.

(** C5: when the week already has a match row, the "Generate pairings"
    button reports that pairings exist and stores nothing; so rows are
    created only for a week that had none. *)
Theorem generate_pairings_refuses st w m :
  m ∈ matches st → week m = w →
  generate_pairings st w =
    (error_pairings_exist (length (filter (λ m, week m = w) (matches st))), st) ∧
  (0 < length (filter (λ m, week m = w) (matches st)))%nat.
Proof.
  intros Hm Hw. unfold generate_pairings.
  destruct (filter _ (matches st)) as [|m0 existing] eqn:Hex.
  - exfalso. exact (filter_nil_not_elem_of _ _ m Hex Hw Hm).
  - split; [done|simpl; lia].
Qed.

(** A week without rows is given pending rows of that week, appended to
    the table. *)
Lemma generate_pairings_creates st w :
  (∀ m, m ∈ matches st → week m ≠ w) →
  ∃ created,
    matches (generate_pairings st w).2 = matches st ++ created ∧
    Forall (λ m, week m = w ∧ result m = pending) created.
Proof.
  intros Hw. apply filter_week_nil in Hw. unfold generate_pairings. rewrite Hw.
  match goal with |- context [generate_weekly_pairings st w ?r] =>
    pose proof (generate_weekly_pairings_spec st w r) as Hspec;
    destruct (generate_weekly_pairings st w r) as [created st'] end.
  exists created. simpl. tauto.
Qed.

Lemma create_matches_from_attendance w (ps : list (Z * option Z)) acc st att :
  foldl (λ '(created, st) '(a, b),
           let '(m, st') := add_match st w a b in (created ++ [m], st'))
        (acc, with_attendance att st) ps =
  (let '(created, st') :=
     foldl (λ '(created, st) '(a, b),
              let '(m, st') := add_match st w a b in (created ++ [m], st'))
           (acc, st) ps in
   (created, with_attendance att st')).
Proof.
  revert acc st. induction ps as [|[a b] ps IH]; intros acc st; [done|].
  cbn [foldl]. unfold add_match at 2 4. cbn beta iota zeta.
  rewrite <- IH. done.
Qed.

Lemma generate_weekly_pairings_attendance st w restrict att :
  generate_weekly_pairings (with_attendance att st) w restrict =
  (let '(created, st') := generate_weekly_pairings st w restrict in
   (created, with_attendance att st')).
Proof.
  unfold generate_weekly_pairings.
  change (eligible_ids (with_attendance att st) restrict) with (eligible_ids st restrict).
  change (fetch_past_pairs (with_attendance att st)) with (fetch_past_pairs st).
  destruct (eligible_ids st restrict); [done|].
  apply create_matches_from_attendance.
Qed.

Lemma attendance_ids_other_weeks st w :
  attendance_ids (with_attendance (filter (λ r, att_week r ≠ w) (attendance st)) st) w = ∅.
Proof.
  unfold attendance_ids. simpl. rewrite list_filter_filter.
  rewrite filter_none; [done|]. tauto.
Qed.

(** C9: when nobody is marked present for the week, the round is generated
    as if no attendance had been recorded: same feedback, same rows, and
    the rows name every active player exactly once. *)
Theorem generate_pairings_nobody_present st w :
  NoDup (p_id <$> players st) →
  (∀ m, m ∈ matches st → week m ≠ w) →
  attendance_ids st w = ∅ →
  let st0 := with_attendance (filter (λ r, att_week r ≠ w) (attendance st)) st in
  ∃ fb created st',
    generate_pairings st w = (fb, st') ∧
    generate_pairings st0 w = (fb, with_attendance (attendance st0) st') ∧
    matches st' = matches st ++ created ∧
    created ≫= ids_of_match ≡ₚ p_id <$> filter (λ p, active p = true) (players st) ∧
    (created = [] ↔ filter (λ p, active p = true) (players st) = []).
Proof.
  intros Hnd Hw Hatt st0. apply filter_week_nil in Hw.
  pose proof (attendance_ids_other_weeks st w) as Hatt0. fold st0 in Hatt0.
  unfold generate_pairings. change (matches st0) with (matches st).
  rewrite Hw, Hatt, Hatt0. rewrite decide_True by done.
  unfold st0 at 1. rewrite generate_weekly_pairings_attendance.
  pose proof (generate_weekly_pairings_spec st w None) as Hspec.
  pose proof (generate_weekly_pairings_ids st w None Hnd) as Hcover.
  destruct (generate_weekly_pairings st w None) as [created st'].
  destruct Hspec as (_ & _ & Hm & _). simpl in Hcover.
  assert (created ≫= ids_of_match ≡ₚ p_id <$> filter (λ p, active p = true) (players st))
    as Hall by (by rewrite Hcover; unfold eligible_ids; simpl; rewrite active_by_rating_perm).
  eexists _, created, st'. repeat split; try done.
  - intros ->. symmetry in Hall. apply Permutation_nil_r in Hall.
    by apply fmap_nil_inv in Hall.
  - intros Hnone. rewrite Hnone in Hall. apply Permutation_nil_r in Hall.
    destruct created; [done|discriminate].
Qed.
End PairingFacts.

(** ** A round of four *)

Section FourPlayers.
Implicit Types (st : Store Q) (p q : Player Q).

Lemma pair_loop_paired (past : gset (Z * Z)) (used : gset Z) pid rest opp :
  pid ∉ used → pick_opponent past used pid rest = Some opp →
  pair_loop past used (pid :: rest) =
    (pid, Some opp) :: pair_loop past (used ∪ {[pid; opp]}) rest.
Proof. intros Hpid Hpick. cbn [pair_loop]. by rewrite decide_False, Hpick. Qed.

Lemma pair_loop_used (past : gset (Z * Z)) (used : gset Z) pid rest :
  pid ∈ used → pair_loop past used (pid :: rest) = pair_loop past used rest.
Proof. intros Hpid. cbn [pair_loop]. by rewrite decide_True. Qed.

Lemma pick_opponent_next (past : gset (Z * Z)) (used : gset Z) pid cand rest :
  cand ∉ used → sorted_pair pid cand ∉ past →
  pick_opponent past used pid (cand :: rest) = Some cand.
Proof. intros ? ?. unfold pick_opponent. cbn [find]. by rewrite bool_decide_true. Qed.

Lemma pick_opponent_after (past : gset (Z * Z)) (used : gset Z) pid met cand rest :
  sorted_pair pid met ∈ past → cand ∉ used → sorted_pair pid cand ∉ past →
  pick_opponent past used pid (met :: cand :: rest) = Some cand.
Proof.
  intros ? ? ?. unfold pick_opponent. cbn [find].
  rewrite bool_decide_false by tauto. by rewrite bool_decide_true.
Qed.

Lemma pair_loop_four_fresh (a b c d : Z) :
  NoDup [a; b; c; d] →
  pair_loop ∅ ∅ [a; b; c; d] = [(a, Some b); (c, Some d)].
Proof.
  intros Hnd. apply NoDup_cons in Hnd as [Ha Hnd]. apply NoDup_cons in Hnd as [Hb Hnd].
  apply NoDup_cons in Hnd as [Hc _].
  assert (a ≠ b ∧ a ≠ c ∧ a ≠ d ∧ b ≠ c ∧ b ≠ d ∧ c ≠ d) as (?&?&?&?&?&?) by set_solver.
  clear Ha Hb Hc.
  rewrite (pair_loop_paired _ _ a _ b); [|set_solver|by apply pick_opponent_next].
  rewrite pair_loop_used by set_solver.
  rewrite (pair_loop_paired _ _ c _ d); [|set_solver|apply pick_opponent_next; set_solver].
  rewrite pair_loop_used by set_solver. done.
Qed.

Lemma sorted_pair_inj_r (a b c : Z) : sorted_pair a b = sorted_pair a c → b = c.
Proof. unfold sorted_pair. intros [= ? ?]. lia. Qed.

Lemma sorted_pair_disjoint (a b d : Z) :
  a ≠ b → a ≠ d → b ≠ d → sorted_pair b d ≠ sorted_pair a b.
Proof. unfold sorted_pair. intros ? ? ? [= ? ?]. lia. Qed.

Lemma pair_loop_four_rematch (a b c d : Z) :
  NoDup [a; b; c; d] →
  pair_loop {[sorted_pair a b]} ∅ [a; b; c; d] = [(a, Some c); (b, Some d)].
Proof.
  intros Hnd. apply NoDup_cons in Hnd as [Ha Hnd]. apply NoDup_cons in Hnd as [Hb Hnd].
  apply NoDup_cons in Hnd as [Hc _].
  assert (a ≠ b ∧ a ≠ c ∧ a ≠ d ∧ b ≠ c ∧ b ≠ d ∧ c ≠ d) as (?&?&?&?&?&?) by set_solver.
  clear Ha Hb Hc.
  assert (sorted_pair a c ∉ ({[sorted_pair a b]} : gset (Z * Z))) as Hac.
  { intros Heq%elem_of_singleton. symmetry in Heq. by apply sorted_pair_inj_r in Heq. }
  assert (sorted_pair b d ∉ ({[sorted_pair a b]} : gset (Z * Z))) as Hbd.
  { intros Heq%elem_of_singleton. by apply sorted_pair_disjoint in Heq. }
  rewrite (pair_loop_paired _ _ a _ c);
    [|set_solver|apply pick_opponent_after; [set_solver|set_solver|done]].
  rewrite (pair_loop_paired _ _ b _ d); [|set_solver|].
  2: { unfold pick_opponent. cbn [find]. rewrite bool_decide_false by set_solver.
       rewrite bool_decide_true; [done|]. split; [set_solver|done]. }
  rewrite !pair_loop_used by set_solver. done.
Qed.

Lemma restrict_ids_fmap {F} restrict (ps : list (Player F)) :
  restrict_ids restrict (p_id <$> ps) =
  p_id <$> filter (λ x, in_pool restrict (p_id x)) ps.
Proof.
  destruct restrict as [s|]; simpl.
  - case_decide as Hs.
    + by rewrite filter_all by auto.
    + induction ps as [|x ps IH]; [done|]. rewrite fmap_cons.
      destruct (decide (p_id x ∈ s)).
      * rewrite !filter_cons_True by auto. by rewrite fmap_cons, IH.
      * rewrite !filter_cons_False by tauto. done.
  - by rewrite filter_all.
Qed.

Lemma StronglySorted_filter {A} (R : relation A) (P : A → Prop)
    `{!∀ x, Decision (P x)} (l : list A) :
  StronglySorted R l → StronglySorted R (filter P l).
Proof.
  induction 1 as [|x l Hl IH Hx]; [constructor|].
  destruct (decide (P x)).
  - rewrite filter_cons_True by done. constructor; [done|].
    apply Forall_forall. intros y Hy%list_elem_of_filter.
    rewrite Forall_forall in Hx. apply Hx, Hy.
  - by rewrite filter_cons_False.
Qed.

Lemma by_rating_desc_le p q : by_rating_desc p q ↔ (rating q <= rating p)%Q.
Proof.
  unfold by_rating_desc, rating_leb, rational_order.
  rewrite Is_true_true. apply Qle_bool_iff.
Qed.

Global Instance by_rating_desc_trans : Transitive by_rating_desc.
Proof. intros p q r. rewrite !by_rating_desc_le. intros ? ?. by eapply Qle_trans. Qed.

Global Instance by_rating_desc_total : Total by_rating_desc.
Proof.
  intros p q. rewrite !by_rating_desc_le.
  destruct (Qlt_le_dec (rating p) (rating q)); [right|left]; [by apply Qlt_le_weak|done].
Qed.

Lemma active_by_rating_sorted st : StronglySorted by_rating_desc (active_by_rating st).
Proof. apply (StronglySorted_merge_sort by_rating_desc). Qed.

(** The index of past pairs holds the sorted pair of every row that is not a
    bye, and nothing else. *)
Lemma elem_of_fetch_past_pairs (st : Store Q) (p : Z * Z) :
  p ∈ fetch_past_pairs st ↔
  ∃ m b, m ∈ matches st ∧ player_b_id m = Some b ∧ p = sorted_pair (player_a_id m) b.
Proof.
  unfold fetch_past_pairs.
  assert (∀ (l : list (Match Q)) (acc : gset (Z * Z)),
            p ∈ foldl (λ s m, match player_b_id m with
                              | None => s
                              | Some b => s ∪ {[sorted_pair (player_a_id m) b]}
                              end) acc l ↔
            p ∈ acc ∨ ∃ m b, m ∈ l ∧ player_b_id m = Some b ∧
                             p = sorted_pair (player_a_id m) b) as Hfold.
  { induction l as [|m l IH]; intros acc; cbn [foldl].
    - set_solver.
    - rewrite IH. destruct (player_b_id m) as [b|] eqn:Hb; set_unfold; naive_solver. }
  rewrite Hfold. split; [intros [Hin|?]; [|done]|by right]. by apply elem_of_empty in Hin.
Qed.

(** C3: four eligible players rated 1200, 1100, 1000 and 900 are paired
    first with second and third with fourth when the index of past pairs is
    empty, and first with third and second with fourth when the index holds
    exactly the pair of the first and the second; the index is read off the
    ledger: it holds the pair of every row that is not a bye. *)
Theorem four_player_round st w restrict pa pb pc pd :
  NoDup [p_id pa; p_id pb; p_id pc; p_id pd] →
  (rating pa == 1200)%Q → (rating pb == 1100)%Q →
  (rating pc == 1000)%Q → (rating pd == 900)%Q →
  filter (λ p, active p = true ∧ in_pool restrict (p_id p)) (players st)
    ≡ₚ [pa; pb; pc; pd] →
  let round := pair_of_match <$> (generate_weekly_pairings st w restrict).1 in
  (fetch_past_pairs st = ∅ →
     round = [(p_id pa, Some (p_id pb)); (p_id pc, Some (p_id pd))]) ∧
  (fetch_past_pairs st = {[sorted_pair (p_id pa) (p_id pb)]} →
     round = [(p_id pa, Some (p_id pc)); (p_id pb, Some (p_id pd))]) ∧
  (∀ past : Z * Z,
     past ∈ fetch_past_pairs st ↔
     ∃ m b, m ∈ matches st ∧ player_b_id m = Some b ∧
            past = sorted_pair (player_a_id m) b).
Proof.
  intros Hnd Ha Hb Hc Hd Hpool round.
  assert (filter (λ p, in_pool restrict (p_id p)) (active_by_rating st) = [pa; pb; pc; pd])
    as Hsorted.
  { apply (StronglySorted_unique_strong by_rating_desc).
    - intros p q Hp Hq Hpq Hqp. apply by_rating_desc_le in Hpq, Hqp.
      assert (p ∈ [pa; pb; pc; pd]) as Hp'.
      { rewrite <- Hpool. apply list_elem_of_filter in Hp as [Hin Hp].
        rewrite active_by_rating_perm in Hp. apply list_elem_of_filter in Hp as [? ?].
        by apply list_elem_of_filter. }
      set_unfold in Hp'. set_unfold in Hq.
      destruct Hp' as [->|[->|[->|[->|[]]]]]; destruct Hq as [->|[->|[->|[->|[]]]]];
        try done; exfalso; rewrite ?Ha, ?Hb, ?Hc, ?Hd in Hpq, Hqp;
        revert Hpq Hqp; unfold Qle; simpl; lia.
    - apply StronglySorted_filter, active_by_rating_sorted.
    - repeat (constructor; [|repeat (constructor; [apply by_rating_desc_le;
        rewrite ?Ha, ?Hb, ?Hc, ?Hd; unfold Qle; simpl; lia|])]); constructor.
    - rewrite active_by_rating_perm, list_filter_filter. rewrite <- Hpool.
      apply reflexive_eq, list_filter_iff. tauto. }
  pose proof (generate_weekly_pairings_spec st w restrict) as Hspec.
  subst round. destruct (generate_weekly_pairings st w restrict) as [created st'].
  destruct Hspec as (_ & _ & _ & Hps & _). simpl. rewrite Hps.
  unfold eligible_ids. rewrite restrict_ids_fmap, Hsorted. simpl.
  split; [intros ->; by apply pair_loop_four_fresh|].
  split; [intros ->; by apply pair_loop_four_rematch|].
  apply elem_of_fetch_past_pairs.
Qed.
End FourPlayers.

(** ** Most played faction *)

Section StringOrder.
Lemma ascii_compare_trans (x y z : ascii) :
  Ascii.compare x y ≠ Gt → Ascii.compare y z ≠ Gt →
  Ascii.compare x z ≠ Gt ∧
  (Ascii.compare x z = Eq → Ascii.compare x y = Eq ∧ Ascii.compare y z = Eq).
Proof.
  unfold Ascii.compare.
  destruct (N.compare_spec (N_of_ascii x) (N_of_ascii y));
    destruct (N.compare_spec (N_of_ascii y) (N_of_ascii z));
    destruct (N.compare_spec (N_of_ascii x) (N_of_ascii z)); try done; lia.
Qed.

Lemma string_compare_trans (a b c : string) :
  String.compare a b ≠ Gt → String.compare b c ≠ Gt → String.compare a c ≠ Gt.
Proof.
  revert b c. induction a as [|x a IH]; intros [|y b] [|z c]; simpl; try done.
  destruct (Ascii.compare x y) eqn:Hxy; try done;
    destruct (Ascii.compare y z) eqn:Hyz; try done; intros Hab Hbc;
    destruct (ascii_compare_trans x y z) as [Hxz Heq];
    rewrite ?Hxy, ?Hyz; try done;
    destruct (Ascii.compare x z) eqn:Hxz'; try done;
    try (destruct Heq as [? ?]; [done|]; congruence).
  by eapply IH.
Qed.

Lemma string_leb_trans (a b c : string) :
  String.leb a b → String.leb b c → String.leb a c.
Proof.
  unfold String.leb. pose proof (string_compare_trans a b c).
  destruct (String.compare a b), (String.compare b c), (String.compare a c);
    simpl; try done; intros; exfalso; by apply H.
Qed.

Lemma string_leb_refl (a : string) : String.leb a a.
Proof. destruct (String.leb_total a a) as [->| ->]; done. Qed.

Global Instance faction_key_le_trans : Transitive faction_key_le.
Proof.
  intros [k1 v1] [k2 v2] [k3 v3]. unfold faction_key_le. simpl.
  intros [?|[? ?]] [?|[? ?]]; try (left; lia).
  right. split; [lia|]. by eapply string_leb_trans.
Qed.

Global Instance faction_key_le_total : Total faction_key_le.
Proof.
  intros [k1 v1] [k2 v2]. unfold faction_key_le. simpl.
  destruct (Z.lt_trichotomy v1 v2) as [?|[->|?]]; [right; left; lia| |left; left; lia].
  destruct (String.leb_total k1 k2) as [Hk|Hk]; rewrite <- Is_true_true in Hk; auto.
Qed.
End StringOrder.

Section FactionFacts.
Context {F : Type}.
Implicit Types (st : Store F) (m : Match F) (counts : gmap string Z) (f g : string).

Lemma count_faction_lookup counts (o : option string) f :
  f ≠ "" →
  count_faction counts o !! f =
    if decide (o = Some f) then Some (default 0 (counts !! f) + 1) else counts !! f.
Proof.
  intros Hf. destruct o as [[|c s]|]; cbn [count_faction].
  - rewrite decide_False; [done|]. by intros [= <-].
  - destruct (decide (String c s = f)) as [<-|Hne].
    + by rewrite decide_True, lookup_insert_eq.
    + rewrite decide_False by congruence. by rewrite lookup_insert_ne.
  - by rewrite decide_False.
Qed.

(** A counting loop adds, for each faction, the number of rows that record
    it. *)
Lemma count_loop_lookup (get : Match F → option string) (l : list (Match F)) counts f :
  f ≠ "" →
  foldl (λ counts m, count_faction counts (get m)) counts l !! f =
    match length (filter (λ m, get m = Some f) l) with
    | O => counts !! f
    | n => Some (default 0 (counts !! f) + Z.of_nat n)
    end.
Proof.
  intros Hf. revert counts. induction l as [|m l IH]; intros counts; [done|].
  cbn [foldl]. rewrite IH, count_faction_lookup by done.
  destruct (decide (get m = Some f)) as [Hm|Hm].
  - rewrite filter_cons_True by done. cbn [length default].
    destruct (length (filter _ l)); unfold Datatypes.id; f_equal; lia.
  - by rewrite filter_cons_False.
Qed.

Lemma count_loop_lookup_empty (get : Match F → option string) (l : list (Match F)) counts :
  foldl (λ counts m, count_faction counts (get m)) counts l !! "" = counts !! "".
Proof.
  revert counts. induction l as [|m l IH]; intros counts; [done|].
  cbn [foldl]. rewrite IH. destruct (get m) as [[|c s]|]; try done.
  simpl. by rewrite lookup_insert_ne.
Qed.

Lemma length_filter_and (P Q : Match F → Prop)
    `{!∀ m, Decision (P m), !∀ m, Decision (Q m)} (l : list (Match F)) :
  length (filter Q (filter P l)) = length (filter (λ m, P m ∧ Q m) l).
Proof.
  rewrite list_filter_filter. f_equal. apply list_filter_iff. tauto.
Qed.

(** The dict of [most_played_faction] holds exactly the non-empty factions
    recorded at least once, each with the number of its records. *)
Lemma faction_counts_lookup st player f :
  faction_counts st player !! f =
    if decide (f = "" ∨ times_played st player f = 0) then None
    else Some (times_played st player f).
Proof.
  unfold faction_counts. destruct (decide (f = "")) as [->|Hf].
  { rewrite decide_True by auto. by rewrite !count_loop_lookup_empty. }
  rewrite !count_loop_lookup by done. rewrite lookup_empty. unfold times_played.
  rewrite <- !length_filter_and. cbn [default].
  destruct (length (filter (λ m, a_faction m = Some f) _)) as [|n1];
    destruct (length (filter (λ m, b_faction m = Some f) _)) as [|n2];
    case_decide; try done; try lia; try (f_equal; lia).
  all: exfalso; destruct H as [?|?]; [done|lia].
Qed.

Lemma faction_counts_empty st player :
  faction_counts st player = ∅ ↔ ∀ f, f ≠ "" → times_played st player f = 0.
Proof.
  split.
  - intros Hc f Hf. pose proof (faction_counts_lookup st player f) as Hl.
    rewrite Hc, lookup_empty in Hl. case_decide as Hd; [|done].
    by destruct Hd.
  - intros Hall. apply map_eq. intros f. rewrite faction_counts_lookup, lookup_empty.
    rewrite decide_True; [done|]. destruct (decide (f = "")); auto.
Qed.

Lemma times_played_nonneg st player f : 0 ≤ times_played st player f.
Proof. unfold times_played. lia. Qed.

(** What the head of the sorted items is. *)
Lemma most_played_faction_Some st player f :
  most_played_faction st player = Some f →
  f ≠ "" ∧ 0 < times_played st player f ∧
  ∀ g, g ≠ "" →
    times_played st player g < times_played st player f ∨
    (times_played st player g = times_played st player f ∧ String.leb f g).
Proof.
  unfold most_played_faction. case_decide as Hne; [done|].
  pose proof (StronglySorted_merge_sort faction_key_le
                (map_to_list (faction_counts st player))) as Hsorted.
  pose proof (merge_sort_Permutation faction_key_le
                (map_to_list (faction_counts st player))) as Hperm.
  destruct (merge_sort faction_key_le _) as [|[f' n] rest]; [done|].
  intros [= ->].
  assert ((f, n) ∈ map_to_list (faction_counts st player)) as Hin
    by (rewrite <- Hperm; constructor).
  apply elem_of_map_to_list in Hin. rewrite faction_counts_lookup in Hin.
  case_decide as Hd; [done|]. injection Hin as <-.
  pose proof (times_played_nonneg st player f).
  split; [tauto|]. split; [lia|]. intros g Hg.
  destruct (decide (times_played st player g = 0)) as [Hz|Hz]; [left; lia|].
  assert ((g, times_played st player g) ∈ (f, times_played st player f) :: rest) as Hg'.
  { rewrite Hperm. apply elem_of_map_to_list. rewrite faction_counts_lookup.
    rewrite decide_False; [done|]. tauto. }
  apply StronglySorted_inv in Hsorted as [_ Hhead]. rewrite Forall_forall in Hhead.
  apply elem_of_cons in Hg' as [[= -> _]|Hg'].
  - right. split; [done|apply string_leb_refl].
  - apply Hhead in Hg'. unfold faction_key_le in Hg'. simpl in Hg'.
    destruct Hg' as [?|[? ?]]; [left; lia|right; split; [lia|done]].
Qed.

Lemma most_played_faction_None st player :
  most_played_faction st player = None ↔ ∀ f, f ≠ "" → times_played st player f = 0.
Proof.
  rewrite <- faction_counts_empty. unfold most_played_faction.
  case_decide as Hc; [done|]. split; [|done].
  pose proof (merge_sort_Permutation faction_key_le
                (map_to_list (faction_counts st player))) as Hperm.
  destruct (merge_sort faction_key_le _) as [|kv rest]; [|done].
  intros _. apply Permutation_nil_l in Hperm. symmetry in Hperm.
  by apply map_to_list_empty_iff in Hperm.
Qed.

(** A recorded faction that beats every other one, by count or on equal
    counts by name, is the answer. *)
Lemma most_played_faction_unique st player f :
  f ≠ "" → 0 < times_played st player f →
  (∀ g, g ≠ "" → g ≠ f →
     times_played st player g < times_played st player f ∨
     (times_played st player g = times_played st player f ∧ String.ltb f g)) →
  most_played_faction st player = Some f.
Proof.
  intros Hf Hpos Hbest.
  destruct (most_played_faction st player) as [f'|] eqn:Hmp.
  2: { pose proof (proj1 (most_played_faction_None st player) Hmp f Hf). lia. }
  destruct (most_played_faction_Some _ _ _ Hmp) as (Hf' & _ & Hhead).
  destruct (decide (f' = f)) as [->|Hne]; [done|]. exfalso.
  destruct (Hhead f Hf) as [?|[Heq Hle]]; destruct (Hbest f' Hf' Hne) as [?|[? Hlt]];
    try lia.
  unfold String.leb, String.ltb in *. rewrite String.compare_antisym in Hle.
  by destruct (String.compare f f').
Qed.

(** C7: the answer is nothing exactly when no non-empty faction is
    recorded against the player; otherwise it is a non-empty recorded
    faction whose count no other reaches, and which comes first in
    alphabetical order among those of equal count.  With "Empire of Man"
    recorded three times and one other faction once the answer is "Empire
    of Man"; with two factions recorded twice each it is the
    alphabetically first. *)
Theorem most_played_faction_spec st player :
  (most_played_faction st player = None ↔
     ∀ f, f ≠ "" → times_played st player f = 0) ∧
  (∀ f, most_played_faction st player = Some f →
     f ≠ "" ∧ 0 < times_played st player f ∧
     ∀ g, g ≠ "" →
       times_played st player g < times_played st player f ∨
       (times_played st player g = times_played st player f ∧ String.leb f g)) ∧
  (∀ dwarfs, dwarfs ≠ "" → dwarfs ≠ "Empire of Man" →
     times_played st player "Empire of Man" = 3 →
     times_played st player dwarfs = 1 →
     (∀ h, h ≠ "" → h ≠ "Empire of Man" → h ≠ dwarfs → times_played st player h = 0) →
     most_played_faction st player = Some "Empire of Man") ∧
  (∀ f g, f ≠ "" → g ≠ "" → String.ltb f g →
     times_played st player f = 2 →
     times_played st player g = 2 →
     (∀ h, h ≠ "" → h ≠ f → h ≠ g → times_played st player h = 0) →
     most_played_faction st player = Some f).
Proof.
  split; [apply most_played_faction_None|].
  split; [apply most_played_faction_Some|]. split.
  - intros dwarfs Hd Hne He Hdw Hrest. apply most_played_faction_unique; [done|lia|].
    intros g Hg Hge. left. destruct (decide (g = dwarfs)) as [->|Hgd]; [lia|].
    rewrite Hrest by done. lia.
  - intros f g Hf Hg Hlt Hf2 Hg2 Hrest. apply most_played_faction_unique; [done|lia|].
    intros h Hh Hhf. destruct (decide (h = g)) as [->|Hhg].
    + right. split; [lia|done].
    + left. rewrite Hrest by done. lia.
Qed.
End FactionFacts.

(** ** Manual pairings *)

Section TokenFacts.
Context `{!Platform}.
Implicit Types (tokens : list str) (ids : list Z) (t : str).

Lemma id_of_valid_token t n :
  t ≠ BYE → isdigit t = true → int t = Some n → id_of_token t = Some n.
Proof. intros Hbye Hd Hint. unfold id_of_token. by rewrite decide_False, Hd. Qed.

(** The scan of valid tokens runs to its end and collects the ids the
    tokens name. *)
Lemma scan_tokens_valid tokens ids hb :
  Forall valid_token tokens →
  ∃ hb', scan_tokens tokens ids hb = ran_out (ids ++ ids_of_tokens tokens) hb'.
Proof.
  intros Hall. revert ids hb.
  induction Hall as [|t tokens Ht _ IH]; intros ids hb; cbn [scan_tokens].
  - exists hb. unfold ids_of_tokens. simpl. by rewrite app_nil_r.
  - unfold ids_of_tokens. cbn [omap list_omap]. unfold id_of_token at 1.
    destruct (decide (t = BYE)) as [->|Hbye]; [apply IH|].
    destruct Ht as [?|[Hd [n Hn]]]; [done|]. rewrite Hd, Hn. cbn [negb].
    destruct (IH (ids ++ [n]) hb) as [hb' ->]. exists hb'.
    by rewrite <- app_assoc.
Qed.


(** Only the tokens other than the bye marker decide the outcome of the
    scan: how it ends, and which ids it collects. *)
Lemma scan_tokens_without_bye tokens ids hb hb' :
  forget_bye (scan_tokens tokens ids hb) =
  forget_bye (scan_tokens (filter (λ t, t ≠ BYE) tokens) ids hb').
Proof.
  revert ids hb hb'. induction tokens as [|t tokens IH]; intros ids hb hb'; [done|].
  cbn [scan_tokens]. destruct (decide (t = BYE)) as [->|Hbye].
  - rewrite filter_cons_False by (by intros []). apply IH.
  - rewrite filter_cons_True by done. cbn [scan_tokens].
    rewrite decide_False by done. destruct (negb (isdigit t)); [done|].
    destruct (int t); [apply IH|done].
Qed.

Lemma ids_of_tokens_without_bye tokens :
  ids_of_tokens (filter (λ t, t ≠ BYE) tokens) = ids_of_tokens tokens.
Proof.
  unfold ids_of_tokens. induction tokens as [|t tokens IH]; [done|].
  destruct (decide (t = BYE)) as [->|Hbye].
  - rewrite filter_cons_False by (by intros []). cbn [omap list_omap].
    unfold id_of_token at 2. by rewrite decide_True.
  - rewrite filter_cons_True by done. cbn [omap list_omap]. by rewrite IH.
Qed.

Lemma size_list_to_set_le ids : (size (list_to_set ids : gset Z) ≤ length ids)%nat.
Proof.
  induction ids as [|i ids IH]; [done|]. rewrite list_to_set_cons. simpl.
  rewrite size_union_alt, size_singleton.
  assert (size (list_to_set ids ∖ {[i]} : gset Z) ≤ size (list_to_set ids : gset Z))%nat
    by (apply subseteq_size; set_solver).
  lia.
Qed.

(** [len(ids) != len(set(ids))] finds exactly the lists with a repeated id. *)
Lemma length_size_NoDup ids :
  length ids = size (list_to_set ids : gset Z) ↔ NoDup ids.
Proof.
  split; [|intros Hnd; by rewrite size_list_to_set].
  induction ids as [|i ids IH]; [constructor|]. simpl.
  destruct (decide (i ∈ ids)) as [Hin|Hin].
  - assert ({[i]} ∪ list_to_set ids = (list_to_set ids : gset Z)) as -> by set_solver.
    pose proof (size_list_to_set_le ids). lia.
  - rewrite size_union, size_singleton by set_solver.
    intros Hlen. constructor; [done|]. apply IH. lia.
Qed.
End TokenFacts.

Section ConsecutivePairs.
Implicit Types (ids : list Z).

Lemma list_pair_ind (P : list Z → Prop) :
  P [] → (∀ a, P [a]) → (∀ a b ids, P ids → P (a :: b :: ids)) → ∀ ids, P ids.
Proof.
  intros Hnil Hone Hstep ids.
  assert (P ids ∧ ∀ a, P (a :: ids)) as [? _]; [|done].
  induction ids as [|b ids [IH1 IH2]]; [auto|]. split; [apply IH2|].
  intros a. by apply Hstep.
Qed.

(** Row [i] pairs the id at position [2i] with the id at position [2i+1],
    and is a bye when there is none. *)
Lemma consecutive_pairs_lookup ids (i : nat) :
  consecutive_pairs ids !! i =
    (λ a, (a, ids !! (2 * i + 1)%nat)) <$> ids !! (2 * i)%nat.
Proof.
  revert i. induction ids as [|a|a b ids IH] using list_pair_ind; intros i.
  - done.
  - destruct i as [|i]; [done|]. simpl.
    replace (i + S (i + 0))%nat with (S (2 * i)) by lia. done.
  - destruct i as [|i]; [done|]. cbn [consecutive_pairs]. rewrite lookup_cons.
    replace (2 * S i)%nat with (S (S (2 * i))) by lia. cbn [lookup list_lookup Nat.add].
    apply IH.
Qed.

(** The only bye is the last id of a list of odd length. *)
Lemma consecutive_pairs_byes ids :
  filter (λ p : Z * option Z, p.2 = None) (consecutive_pairs ids) =
    if Nat.odd (length ids) then (λ a, (a, None)) <$> option_list (last ids) else [].
Proof.
  induction ids as [|a|a b ids IH] using list_pair_ind; [done..|].
  cbn [consecutive_pairs]. rewrite filter_cons_False by done. rewrite IH.
  change (Nat.odd (length (a :: b :: ids))) with (Nat.odd (length ids)).
  destruct ids as [|c ids]; [done|]. done.
Qed.

Lemma length_consecutive_pairs ids :
  (2 * length (consecutive_pairs ids) = length ids + (if Nat.odd (length ids) then 1 else 0))%nat.
Proof.
  induction ids as [|a|a b ids IH] using list_pair_ind; [done..|].
  change (Nat.odd (length (a :: b :: ids))) with (Nat.odd (length ids)).
  simpl in *. lia.
Qed.
End ConsecutivePairs.

Section ManualFacts.
Context {F : Type} `{!Platform}.
Implicit Types (st : Store F) (m : Match F).

(** The loop stores the consecutive pairs of ids that the engine can hold. *)
Lemma manual_loop_spec w (ids : list Z) (n : Z) st :
  Forall (λ i, fits_INTEGER i = true) ids →
  ∃ created,
    manual_loop w ids n st =
      (Some (n + Z.of_nat (length created)),
       mkStore (players st) (matches st ++ created) (attendance st)) ∧
    pair_of_match <$> created = consecutive_pairs ids ∧
    Forall (λ m, week m = w ∧ result m = pending) created.
Proof.
  revert n st. induction ids as [|a|a b ids IH] using list_pair_ind; intros n st Hfit.
  - exists []. simpl. rewrite app_nil_r, Z.add_0_r. by destruct st.
  - apply Forall_cons in Hfit as [Ha _]. cbn [manual_loop]. rewrite Ha.
    exists [new_match st w a None]. simpl. repeat split; auto.
  - apply Forall_cons in Hfit as [Ha Hfit]. apply Forall_cons in Hfit as [Hb Hfit].
    cbn [manual_loop]. rewrite Ha, Hb. cbn [andb].
    destruct (IH (n + 1) (add_match st w a (Some b)).2 Hfit) as (created & -> & Hps & Hall).
    exists (new_match st w a (Some b) :: created).
    rewrite fmap_cons, Hps. cbn [add_match snd players matches attendance length].
    rewrite <- app_assoc. repeat split; [do 2 f_equal; lia|by constructor].
Qed.


(** Two manual orders with the same tokens other than the bye marker, in
    the same order, have the same effect. *)
Lemma apply_manual_pairings_without_bye st w order1 order2 clear_pending :
  filter (λ t, t ≠ BYE) (tokens_of order1) = filter (λ t, t ≠ BYE) (tokens_of order2) →
  apply_manual_pairings st w order1 clear_pending =
  apply_manual_pairings st w order2 clear_pending.
Proof.
  intros Hsame. unfold apply_manual_pairings.
  pose proof (scan_tokens_without_bye (tokens_of order1) [] false false) as H1.
  pose proof (scan_tokens_without_bye (tokens_of order2) [] false false) as H2.
  rewrite Hsame, <- H2 in H1.
  destruct (scan_tokens (tokens_of order1) [] false) as [t1| |ids1 hb1];
    destruct (scan_tokens (tokens_of order2) [] false) as [t2| |ids2 hb2];
    simpl in H1; by simplify_eq.
Qed.

(** C10 (as amended): a manual order of valid tokens that names at least one
    id, no id twice and only ids the engine can hold is applied whatever bye
    markers it holds and wherever they stand: row [i] pairs the id at
    position [2i] of the ids with the id at position [2i+1], the last id
    gets a bye exactly when the number of ids is odd, and a single id gives
    a single bye row. *)
Theorem apply_manual_pairings_pairs st w manual_order clear_pending :
  let tokens := tokens_of manual_order in
  let ids := ids_of_tokens tokens in
  Forall valid_token tokens → NoDup ids → ids ≠ [] →
  Forall (λ i, fits_INTEGER i = true) ids →
  ∃ created,
    let pairs := pair_of_match <$> created in
    apply_manual_pairings st w manual_order clear_pending =
      (success_manual (Z.of_nat (length created)),
       mkStore (players st)
               (matches (if clear_pending then delete_pending w st else st) ++ created)
               (attendance st)) ∧
    Forall (λ m, week m = w ∧ result m = pending) created ∧
    (∀ i : nat,
       pairs !! i = (λ a, (a, ids !! (2 * i + 1)%nat)) <$> ids !! (2 * i)%nat) ∧
    filter (λ p : Z * option Z, p.2 = None) pairs =
      (if Nat.odd (length ids) then (λ a, (a, None)) <$> option_list (last ids) else []) ∧
    (∀ a, ids = [a] → pairs = [(a, None)]) ∧
    (∀ other,
       filter (λ t, t ≠ BYE) (tokens_of other) = filter (λ t, t ≠ BYE) tokens →
       apply_manual_pairings st w other clear_pending =
       apply_manual_pairings st w manual_order clear_pending).
Proof.
  intros tokens ids Hall Hnd Hne Hfit.
  assert (∃ created,
    apply_manual_pairings st w manual_order clear_pending =
      (success_manual (Z.of_nat (length created)),
       mkStore (players st)
               (matches (if clear_pending then delete_pending w st else st) ++ created)
               (attendance st)) ∧
    pair_of_match <$> created = consecutive_pairs ids ∧
    Forall (λ m, week m = w ∧ result m = pending) created) as (created & Happ & Hps & Hw).
  { unfold apply_manual_pairings. fold tokens.
    destruct (scan_tokens_valid tokens [] false Hall) as [hb' ->]. simpl. fold ids.
    rewrite decide_False by (by destruct ids).
    rewrite decide_False by (by intros Hlen; apply Hlen, length_size_NoDup).
    match goal with |- context [manual_loop w ids 0 ?s] =>
      destruct (manual_loop_spec w ids 0 s Hfit) as (created & -> & Hps & Hw) end.
    exists created. split; [by destruct clear_pending|done]. }
  exists created. cbv zeta. rewrite Hps. split; [done|]. split; [done|].
  split; [apply consecutive_pairs_lookup|]. split; [apply consecutive_pairs_byes|].
  split; [by intros a ->|].
  intros other Hsame. by apply apply_manual_pairings_without_bye.
Qed.
End ManualFacts.

(** ** Primary keys stay unique *)

Section Keys.
Context {F : Type} `{!Platform}.
Implicit Types (st : Store F) (m : Match F).

Lemma next_match_id_fresh st m : m ∈ matches st → m_id m < next_match_id st.
Proof.
  unfold next_match_id. induction (matches st) as [|r l IH]; intros Hm.
  - by apply elem_of_nil in Hm.
  - simpl. apply elem_of_cons in Hm as [->|Hm]; [lia|]. specialize (IH Hm). lia.
Qed.

Lemma add_match_unique st w a b : unique_keys st → unique_keys (add_match st w a b).2.
Proof.
  intros [Hp Hm]. split; [done|]. simpl. rewrite fmap_app. apply NoDup_app.
  split; [done|]. split; [|apply NoDup_singleton].
  intros i Hi Hnew. apply list_elem_of_singleton in Hnew.
  apply list_elem_of_fmap in Hi as (m & -> & Hin).
  apply next_match_id_fresh in Hin. simpl in Hnew. lia.
Qed.

Lemma create_matches_from_unique w (ps : list (Z * option Z)) (acc : list (Match F)) st :
  unique_keys st →
  unique_keys (foldl (λ '(created, st) '(a, b),
                        let '(m, st') := add_match st w a b in (created ++ [m], st'))
                     (acc, st) ps).2.
Proof.
  revert acc st. induction ps as [|[a b] ps IH]; intros acc st Hst; [done|].
  cbn [foldl]. unfold add_match at 2. cbn beta iota zeta.
  apply IH. by apply (add_match_unique st w a b).
Qed.

Lemma create_matches_unique w (ps : list (Z * option Z)) st :
  unique_keys st → unique_keys (create_matches w ps st).2.
Proof. apply create_matches_from_unique. Qed.

Lemma manual_loop_unique w (ids : list Z) n st :
  unique_keys st → unique_keys (manual_loop w ids n st).2.
Proof.
  revert n st. induction ids as [|a|a b ids IH] using list_pair_ind; intros n st Hst.
  - done.
  - cbn [manual_loop]. destruct (fits_INTEGER a); [by apply add_match_unique|done].
  - cbn [manual_loop]. destruct (fits_INTEGER a && fits_INTEGER b); [|done].
    by apply IH, add_match_unique.
Qed.

Lemma delete_pending_unique w st : unique_keys st → unique_keys (delete_pending w st).
Proof.
  intros [Hp Hm]. split; [done|]. simpl.
  eapply sublist_NoDup; [exact Hm|]. apply fmap_sublist, sublist_filter.
Qed.

Lemma put_match_ids m' st : m_id <$> matches (put_match m' st) = m_id <$> matches st.
Proof.
  unfold put_match. cbn [matches]. induction (matches st) as [|r l IH]; [done|].
  cbn [map]. rewrite !fmap_cons, IH.
  by destruct (Z.eqb_spec (m_id r) (m_id m')) as [->|].
Qed.

Lemma set_rating_ids i (r : F) st : p_id <$> players (set_rating i r st) = p_id <$> players st.
Proof.
  unfold set_rating. cbn [players]. induction (players st) as [|p l IH]; [done|].
  cbn [map]. rewrite !fmap_cons, IH. by destruct (p_id p =? i).
Qed.

(** Every handler leaves the keys of both tables unique. *)
Lemma record_result_unique `{FloatArith F} st i k res fa fb now :
  unique_keys st → unique_keys (record_result st i k res fa fb now).2.
Proof.
  intros Hst. unfold record_result.
  destruct (get_match st i) as [m|]; [|done].
  destruct (decide (result m ≠ pending)); [done|].
  destruct (get_player st (player_a_id m)) as [pa|]; [|done].
  destruct (match player_b_id m with Some b => get_player st b | None => None end) as [pb|].
  - destruct (update_elo _ _ _ _) as [new_a new_b]. destruct Hst as [Hp Hm].
    unfold unique_keys. cbn [snd]. rewrite put_match_ids.
    change (players (put_match ?m ?s)) with (players s).
    by rewrite !set_rating_ids.
  - destruct Hst as [Hp Hm]. unfold unique_keys. cbn [snd]. by rewrite put_match_ids.
Qed.

Lemma generate_pairings_unique `{RatingOrder F} st w :
  unique_keys st → unique_keys (generate_pairings st w).2.
Proof.
  intros Hst. unfold generate_pairings.
  destruct (filter _ (matches st)); [|done].
  match goal with |- context [generate_weekly_pairings st w ?r] =>
    assert (unique_keys (generate_weekly_pairings st w r).2) as Hu;
    [|by destruct (generate_weekly_pairings st w r)] end.
  unfold generate_weekly_pairings.
  destruct (eligible_ids st _); [done|]. by apply create_matches_unique.
Qed.

Lemma apply_manual_pairings_unique st w manual_order clear_pending :
  unique_keys st → unique_keys (apply_manual_pairings st w manual_order clear_pending).2.
Proof.
  intros Hst. unfold apply_manual_pairings.
  destruct (scan_tokens _ _ _) as [t| |ids hb]; [done..|].
  repeat case_decide; try done.
  match goal with |- context [manual_loop w ids 0 ?s] =>
    assert (unique_keys (manual_loop w ids 0 s).2) as Hu;
    [|by destruct (manual_loop w ids 0 s)] end.
  apply manual_loop_unique. destruct clear_pending; [by apply delete_pending_unique|done].
Qed.
End Keys.

(** ** The theorems at work on the example ledgers *)

Section ClaimExamples.
#[local] Existing Instance cpython_sqlite.

Example league_first_round :
  pair_of_match <$> (generate_weekly_pairings league "12/11/2025"
                       (Some (attendance_ids league "12/11/2025"))).1
  = [(7, Some 12); (3, Some 21)].
Proof. vm_compute. reflexivity. Qed.

Example league_second_round :
  pair_of_match <$> (generate_weekly_pairings league_after_a_week "12/11/2025"
                       (Some (attendance_ids league "12/11/2025"))).1
  = [(7, Some 3); (12, Some 21)].
Proof. vm_compute. reflexivity. Qed.

Example league_nobody_present :
  pair_of_match <$> matches (generate_pairings league "19/11/2025").2
  = [(5, Some 7); (12, Some 3); (21, None)].
Proof. vm_compute. reflexivity. Qed.

Example manual_order_with_bye :
  (λ r, (r.1, pair_of_match <$> matches r.2))
    (apply_manual_pairings league "12/11/2025" (str_of_ascii " 7, bye ,12,,3 ") true)
  = (success_manual 2, [(7, Some 12); (3, None)]).
Proof. vm_compute. reflexivity. Qed.

(** A piece that is a no-break space is white space and gives no token. *)
Example manual_order_no_break_space :
  tokens_of [0x31; 0x2C; 0xA0]%N = [str_of_ascii "1"] ∧
  (λ r, (r.1, pair_of_match <$> matches r.2))
    (apply_manual_pairings league "12/11/2025" [0x31; 0x2C; 0xA0]%N true)
  = (success_manual 1, [(1, None)]).
Proof. vm_compute. done. Qed.

(** Arabic-Indic digits are decimal digits: ["١,٢"] pairs 1 with 2, and
    ["١"] names the same id as ["1"]. *)
Example manual_order_arabic_indic :
  (λ r, (r.1, pair_of_match <$> matches r.2))
    (apply_manual_pairings league "12/11/2025" [0x661; 0x2C; 0x662]%N true)
  = (success_manual 1, [(1, Some 2)]) ∧
  (apply_manual_pairings league "12/11/2025" [0x661; 0x2C; 0x31]%N true).1
  = error_duplicate_ids.
Proof. vm_compute. done. Qed.

(** Case mapping is that of [str.upper]: ["ß"] becomes ["SS"], and only the
    ASCII spellings of the marker become ["BYE"]. *)
Example upper_sharp_s :
  upper [0xDF]%N = str_of_ascii "SS" ∧ upper (str_of_ascii "bYe") = BYE ∧
  upper [0x62; 0x1E99; 0x65]%N ≠ BYE.
Proof. vm_compute. done. Qed.

Example most_played_three_to_one :
  most_played_faction empire_thrice 1 = Some "Empire of Man" ∧
  most_played_faction empire_thrice 2 = Some "Skaven" ∧
  most_played_faction empire_thrice 3 = None.
Proof. vm_compute. done. Qed.

Example most_played_tie :
  most_played_faction two_each 1 = Some "Dwarfen Mountain Holds".
Proof. vm_compute. reflexivity. Qed.

Example record_after_bye :
  player_record small_ledger 1 = (1, 0, 0) ∧
  player_record (record_result small_ledger 2 Casual choose_draw None None 18).2 1
    = (2, 0, 0).
Proof. split; reflexivity. Qed.

(** The reported match of [small_ledger] cannot be recorded again. *)
Lemma record_result_already_recorded_witness :
  (∀ m, get_match small_ledger 1 = Some m → result m ≠ pending) ∧
  record_result small_ledger 1 Casual choose_draw None None 18
    = (error_already_recorded, small_ledger).
Proof.
  assert (∀ m, get_match small_ledger 1 = Some m → result m ≠ pending) as Hres.
  { intros m Hm. unfold get_match in Hm. simpl in Hm. injection Hm as <-. simpl. discriminate. }
  split; [exact Hres|].
  exact (record_result_already_recorded small_ledger 1 Casual choose_draw None None 18 Hres).
Defined.

(** The bye of [small_ledger] is resolved as the theorem says. *)
Lemma record_result_bye_witness :
  NoDup (m_id <$> matches small_ledger) ∧
  get_match small_ledger 2 = Some pending_bye ∧
  result pending_bye = pending ∧ player_b_id pending_bye = None ∧
  get_player small_ledger (player_a_id pending_bye) = Some karl ∧
  ∃ st' m',
    record_result small_ledger 2 Competitive choose_a_win (Some "Empire of Man") None 18
      = (success_bye, st') ∧
    players st' = players small_ledger ∧
    get_match st' 2 = Some m' ∧
    player_a_id m' = player_a_id pending_bye ∧ player_b_id m' = None ∧
    result m' = a_win ∧
    a_rating_before m' = Some (rating karl) ∧
    a_rating_after m' = a_rating_before m' ∧
    k_factor_used m' = None ∧
    player_record st' (player_a_id pending_bye) =
      (let '(w, d, l) := player_record small_ledger (player_a_id pending_bye) in
       (w + 1, d, l)).
Proof.
  assert (NoDup (m_id <$> matches small_ledger)) as Hnd.
  { simpl. apply NoDup_cons. split; [|apply NoDup_singleton].
    intros Hin. apply list_elem_of_singleton in Hin. discriminate. }
  assert (get_match small_ledger 2 = Some pending_bye) as Hget by reflexivity.
  assert (get_player small_ledger (player_a_id pending_bye) = Some karl) as Hpa by reflexivity.
  repeat (split; [done|]).
  exact (record_result_bye small_ledger 2 Competitive choose_a_win (Some "Empire of Man")
           None 18 pending_bye karl Hnd Hget eq_refl eq_refl Hpa).
Defined.

(** The four players present in [league] are a pool as in the theorem.  No
    match has been played in [league]; in [league_after_a_week] Albrecht and
    Bertha have met, and nobody else. *)
Lemma four_player_round_witness :
  let restrict := Some (attendance_ids league "12/11/2025") in
  let round st := pair_of_match <$> (generate_weekly_pairings st "12/11/2025" restrict).1 in
  fetch_past_pairs league = ∅ ∧
  fetch_past_pairs league_after_a_week = {[sorted_pair 7 12]} ∧
  round league = [(7, Some 12); (3, Some 21)] ∧
  round league_after_a_week = [(7, Some 3); (12, Some 21)].
Proof.
  intros restrict round.
  set (pa := league_player 7 "Albrecht" 1200 true).
  set (pb := league_player 12 "Bertha" 1100 true).
  set (pc := league_player 3 "Conrad" 1000 true).
  set (pd := league_player 21 "Dieter" 900 true).
  assert (NoDup [p_id pa; p_id pb; p_id pc; p_id pd]) as Hnd
    by (refine (bool_decide_unpack _ _); vm_compute; exact I).
  assert (filter (λ p, active p = true ∧ in_pool restrict (p_id p)) league_players
          ≡ₚ [pa; pb; pc; pd]) as Hpool.
  { assert (filter (λ p, active p = true ∧ in_pool restrict (p_id p)) league_players
            = [pb; pa; pc; pd]) as -> by (vm_compute; reflexivity).
    apply Permutation_swap. }
  assert (fetch_past_pairs league = ∅) as Hnone by (vm_compute; reflexivity).
  assert (fetch_past_pairs league_after_a_week = {[sorted_pair 7 12]}) as Hone
    by (vm_compute; reflexivity).
  split; [exact Hnone|]. split; [exact Hone|]. split.
  - exact (proj1 (four_player_round league "12/11/2025" restrict pa pb pc pd
                    Hnd eq_refl eq_refl eq_refl eq_refl Hpool) Hnone).
  - exact (proj1 (proj2 (four_player_round league_after_a_week "12/11/2025" restrict
                           pa pb pc pd Hnd eq_refl eq_refl eq_refl eq_refl Hpool)) Hone).
Defined.

(** Primary keys of [league] are unique, so its rounds cover the pool. *)
Lemma generate_weekly_pairings_cover_witness :
  NoDup (p_id <$> players league) ∧
  let ids := eligible_ids league None in
  let created := (generate_weekly_pairings league "12/11/2025" None).1 in
  NoDup ids ∧
  created ≫= ids_of_match ≡ₚ ids ∧
  (∀ n : nat, length ids = (2 * n + 1)%nat →
     length (filter is_two_sided created) = n ∧ length (filter is_bye created) = 1%nat) ∧
  (∀ n : nat, length ids = (2 * n)%nat →
     length (filter is_two_sided created) = n ∧ length (filter is_bye created) = 0%nat) ∧
  (ids = [] → created = []).
Proof.
  assert (NoDup (p_id <$> players league)) as Hnd
    by (refine (bool_decide_unpack _ _); vm_compute; exact I).
  split; [exact Hnd|].
  exact (generate_weekly_pairings_cover league "12/11/2025" None Hnd).
Defined.

(** [league_after_a_week] has a row for 05/11/2025, so the button refuses. *)
Lemma generate_pairings_refuses_witness :
  earlier_match ∈ matches league_after_a_week ∧ week earlier_match = "05/11/2025" ∧
  generate_pairings league_after_a_week "05/11/2025" =
    (error_pairings_exist
       (length (filter (λ m, week m = "05/11/2025") (matches league_after_a_week))),
     league_after_a_week) ∧
  (0 < length (filter (λ m, week m = "05/11/2025") (matches league_after_a_week)))%nat.
Proof.
  assert (earlier_match ∈ matches league_after_a_week) as Hin by (simpl; constructor).
  split; [exact Hin|]. split; [reflexivity|].
  exact (generate_pairings_refuses league_after_a_week "05/11/2025" earlier_match Hin eq_refl).
Defined.



(** Nobody is marked present in [league] for 19/11/2025. *)
Lemma generate_pairings_nobody_present_witness :
  NoDup (p_id <$> players league) ∧
  (∀ m, m ∈ matches league → week m ≠ "19/11/2025") ∧
  attendance_ids league "19/11/2025" = ∅ ∧
  let st0 := with_attendance
               (filter (λ r, att_week r ≠ "19/11/2025") (attendance league)) league in
  ∃ fb created st',
    generate_pairings league "19/11/2025" = (fb, st') ∧
    generate_pairings st0 "19/11/2025" = (fb, with_attendance (attendance st0) st') ∧
    matches st' = matches league ++ created ∧
    created ≫= ids_of_match ≡ₚ p_id <$> filter (λ p, active p = true) (players league) ∧
    (created = [] ↔ filter (λ p, active p = true) (players league) = []).
Proof.
  assert (NoDup (p_id <$> players league)) as Hnd
    by (refine (bool_decide_unpack _ _); vm_compute; exact I).
  assert (∀ m, m ∈ matches league → week m ≠ "19/11/2025") as Hw.
  { intros m Hm. simpl in Hm. by apply elem_of_nil in Hm. }
  assert (attendance_ids league "19/11/2025" = ∅) as Hatt by (vm_compute; reflexivity).
  split; [exact Hnd|]. split; [exact Hw|]. split; [exact Hatt|].
  exact (generate_pairings_nobody_present league "19/11/2025" Hnd Hw Hatt).
Defined.

(** A manual order of three ids with a bye marker in the middle. *)
Lemma apply_manual_pairings_pairs_witness :
  let order := str_of_ascii " 7, bye ,12,,3 " in
  let tokens := tokens_of order in
  let ids := ids_of_tokens tokens in
  Forall valid_token tokens ∧ NoDup ids ∧ ids ≠ [] ∧
  Forall (λ i, fits_INTEGER i = true) ids ∧
  ∃ created,
    let pairs := pair_of_match <$> created in
    apply_manual_pairings league "12/11/2025" order true =
      (success_manual (Z.of_nat (length created)),
       mkStore (players league)
               (matches (if true then delete_pending "12/11/2025" league else league)
                  ++ created)
               (attendance league)) ∧
    Forall (λ m, week m = "12/11/2025" ∧ result m = pending) created ∧
    (∀ i : nat,
       pairs !! i = (λ a, (a, ids !! (2 * i + 1)%nat)) <$> ids !! (2 * i)%nat) ∧
    filter (λ p : Z * option Z, p.2 = None) pairs =
      (if Nat.odd (length ids) then (λ a, (a, None)) <$> option_list (last ids) else []) ∧
    (∀ a, ids = [a] → pairs = [(a, None)]) ∧
    (∀ other,
       filter (λ t, t ≠ BYE) (tokens_of other) = filter (λ t, t ≠ BYE) tokens →
       apply_manual_pairings league "12/11/2025" other true =
       apply_manual_pairings league "12/11/2025" order true).
Proof.
  intros order tokens ids.
  assert (Forall valid_token tokens) as Hall
    by (refine (bool_decide_unpack _ _); vm_compute; exact I).
  assert (NoDup ids) as Hnd by (refine (bool_decide_unpack _ _); vm_compute; exact I).
  assert (ids ≠ []) as Hne by (vm_compute; discriminate).
  assert (Forall (λ i, fits_INTEGER i = true) ids) as Hfit
    by (refine (bool_decide_unpack _ _); vm_compute; exact I).
  split; [exact Hall|]. split; [exact Hnd|]. split; [exact Hne|]. split; [exact Hfit|].
  exact (apply_manual_pairings_pairs league "12/11/2025" order true Hall Hnd Hne Hfit).
Defined.

(** An id of 2^63 is a decimal integer that SQLite cannot hold: the order is
    valid and names two different ids, but the commit of its first row
    raises; no pair is created, and the pending rows of the week are gone. *)
Lemma apply_manual_pairings_pairs_counterexample :
  let order := str_of_ascii "7,9223372036854775808" in
  let tokens := tokens_of order in
  let ids := ids_of_tokens tokens in
  Forall valid_token tokens ∧ NoDup ids ∧ ids = [7; 2 ^ 63] ∧
  matches league_with_round = [pending_first; pending_second] ∧
  apply_manual_pairings league_with_round "12/11/2025" order true =
    (raised_OverflowError, mkStore league_players [] league_attendance).
Proof.
  intros order tokens ids.
  split; [refine (bool_decide_unpack _ _); vm_compute; exact I|].
  split; [refine (bool_decide_unpack _ _); vm_compute; exact I|].
  split; [vm_compute; reflexivity|]. split; [reflexivity|].
  vm_compute. reflexivity.
Qed.
End ClaimExamples.

(** ** Records and results *)

Section LedgerFacts.
Context {F : Type}.
Implicit Types (st : Store F) (m : Match F).

Lemma record_step_total (player : Z) m (w d l : Z) :
  involves player m →
  let '(w', d', l') := record_step player (w, d, l) m in
  w' + d' + l' = w + d + l + (if decide (result m ≠ pending) then 1 else 0) ∧
  w ≤ w' ∧ d ≤ d' ∧ l ≤ l'.
Proof.
  intros Hin. unfold record_step, involves in *.
  destruct (player_b_id m) as [b|], (result m); repeat case_decide; try lia;
    try (exfalso; naive_solver).
Qed.

Lemma record_loop_total (player : Z) (ms : list (Match F)) (w d l : Z) :
  Forall (involves player) ms →
  let '(w', d', l') := foldl (record_step player) (w, d, l) ms in
  w' + d' + l' = w + d + l + Z.of_nat (length (filter (λ m, result m ≠ pending) ms)) ∧
  w ≤ w' ∧ d ≤ d' ∧ l ≤ l'.
Proof.
  intros Hall. revert w d l. induction Hall as [|m ms Hm _ IH]; intros w d l.
  - simpl. lia.
  - cbn [foldl]. pose proof (record_step_total player m w d l Hm) as Hstep.
    destruct (record_step player (w, d, l) m) as [[w1 d1] l1].
    specialize (IH w1 d1 l1). destruct (foldl _ _ ms) as [[w2 d2] l2].
    destruct (decide (result m ≠ pending)).
    + rewrite filter_cons_True by done. simpl length. lia.
    + rewrite filter_cons_False by done. lia.
Qed.

(** X4: the wins, draws and losses of a player are never negative and add up
    to the number of rows that name the player and are no longer pending, a
    resolved bye included. *)
Theorem player_record_total st (player : Z) :
  let '(w, d, l) := player_record st player in
  w + d + l = Z.of_nat (length (reported_games st player)) ∧ 0 ≤ w ∧ 0 ≤ d ∧ 0 ≤ l.
Proof.
  unfold player_record, reported_games.
  pose proof (record_loop_total player (filter (involves player) (matches st)) 0 0 0) as Hloop.
  unfold involves in *.
  destruct (foldl _ _ _) as [[w d] l].
  destruct Hloop as (Hsum & ? & ? & ?).
  { apply Forall_forall. intros m Hm. by apply list_elem_of_filter in Hm as [? _]. }
  rewrite list_filter_filter in Hsum. split; [|done]. rewrite Hsum.
  rewrite !Z.add_0_l. do 2 f_equal. apply list_filter_iff. tauto.
Qed.

Lemma triple_eq (a b c a' b' c' : Z) : a = a' → b = b' → c = c' → (a, b, c) = (a', b', c').
Proof. by intros -> -> ->. Qed.

Lemma record_step_add (player : Z) m (r g : Z * Z * Z) :
  record_step player (add_record r g) m = add_record (record_step player r m) g.
Proof.
  destruct r as [[w d] l], g as [[gw gd] gl]. unfold record_step, add_record. simpl.
  destruct (player_b_id m), (result m); repeat case_decide; simpl; apply triple_eq; lia.
Qed.

Lemma record_loop_add (player : Z) (ms : list (Match F)) (r g : Z * Z * Z) :
  foldl (record_step player) (add_record r g) ms =
  add_record (foldl (record_step player) r ms) g.
Proof.
  revert r. induction ms as [|m ms IH]; intros r; [done|].
  cbn [foldl]. by rewrite record_step_add, IH.
Qed.

(** Replacing one row of the ledger changes a record by what the new row
    adds in place of the old one. *)
Lemma player_record_replace st st' (l1 l2 : list (Match F)) m m' (player : Z) (g : Z * Z * Z) :
  matches st = l1 ++ m :: l2 → matches st' = l1 ++ m' :: l2 →
  involves player m → involves player m' →
  (∀ r, record_step player r m = r) →
  (∀ r, record_step player r m' = add_record r g) →
  player_record st' player = add_record (player_record st player) g.
Proof.
  intros Hst Hst' Hm Hm' Hold Hnew. unfold player_record, involves in *.
  rewrite Hst, Hst', !filter_app, !filter_cons_True, !foldl_app by done.
  cbn [foldl]. by rewrite Hold, Hnew, record_loop_add.
Qed.

Lemma find_map_same {A} (P : A → bool) (f : A → A) (l : list A) :
  (∀ x, P (f x) = P x) → find P (map f l) = f <$> find P l.
Proof.
  intros HP. induction l as [|x l IH]; [done|]. simpl. rewrite HP.
  by destruct (P x).
Qed.

Lemma get_player_set_rating st (i j : Z) (r : F) :
  get_player (set_rating i r st) j =
  (λ p, if p_id p =? i then with_rating r p else p) <$> get_player st j.
Proof.
  unfold get_player, set_rating. cbn [players]. apply find_map_same.
  intros p. by destruct (p_id p =? i).
Qed.

Lemma get_match_put_match st m' (j : Z) :
  get_match (put_match m' st) j =
  (λ r, if m_id r =? m_id m' then m' else r) <$> get_match st j.
Proof.
  unfold get_match, put_match. cbn [matches]. apply find_map_same.
  intros r. by destruct (Z.eqb_spec (m_id r) (m_id m')) as [->|].
Qed.

Lemma get_player_Some st i (p : Player F) : get_player st i = Some p → p ∈ players st ∧ p_id p = i.
Proof.
  unfold get_player. intros Hf. apply find_some in Hf as [Hin Heq].
  split; [by apply list_elem_of_In | lia].
Qed.
End LedgerFacts.

Section ResultFacts.
Context {F : Type} `{FloatArith F}.
Implicit Types (st : Store F) (m : Match F).

(** X5: recording the result of a pending match between two different
    players stores the chosen result, both ratings before, both ratings that
    [update_elo] returns, the K-factor, the time and the factions on the
    match, gives the two players those new ratings, and leaves every other
    player and every other match as they were. *)
Theorem record_result_two_sided st i k res fa fb now m b pa pb :
  get_match st i = Some m → result m = pending → player_b_id m = Some b →
  get_player st (player_a_id m) = Some pa → get_player st b = Some pb →
  player_a_id m ≠ b →
  let kf := k_of_choice k in
  let new := update_elo (rating pa) (rating pb) (score_of_choice res) kf in
  ∃ st' m',
    record_result st i k res fa fb now = (success_saved kf, st') ∧
    get_match st' i = Some m' ∧
    result m' = result_of_choice res ∧
    a_rating_before m' = Some (rating pa) ∧ b_rating_before m' = Some (rating pb) ∧
    a_rating_after m' = Some new.1 ∧ b_rating_after m' = Some new.2 ∧
    k_factor_used m' = Some kf ∧ reported_at m' = Some now ∧
    a_faction m' = fa ∧ b_faction m' = fb ∧
    get_player st' (player_a_id m) = Some (with_rating new.1 pa) ∧
    get_player st' b = Some (with_rating new.2 pb) ∧
    (∀ j, j ≠ player_a_id m → j ≠ b → get_player st' j = get_player st j) ∧
    (∀ j, j ≠ i → get_match st' j = get_match st j).
Proof.
  intros Hget Hres Hb Hpa Hpb Hne kf new. unfold record_result.
  rewrite Hget, Hpa, Hb, Hpb. rewrite decide_False by (by rewrite Hres; intros []).
  fold kf. fold new. destruct new as [new_a new_b] eqn:Hnew.
  destruct (get_match_Some _ _ _ Hget) as [_ Hid].
  destruct (get_player_Some _ _ _ Hpa) as [_ Hida].
  destruct (get_player_Some _ _ _ Hpb) as [_ Hidb].
  eexists _, _. split; [reflexivity|]. split.
  { apply get_put_match with (m := m); [|done]. by rewrite !get_match_set_rating. }
  cbn [result a_rating_before b_rating_before a_rating_after b_rating_after k_factor_used
       reported_at a_faction b_faction fst snd].
  do 9 (split; [done|]).
  change (players (put_match ?x ?s)) with (players s).
  assert (∀ x s j, get_player (put_match (F:=F) x s) j = get_player s j) as Hput by done.
  rewrite !Hput. split; [|split; [|split]].
  - rewrite !get_player_set_rating, Hpa. simpl. rewrite Hida, Z.eqb_refl. simpl.
    rewrite Hida, Hidb. by destruct (Z.eqb_spec (player_a_id m) b).
  - rewrite !get_player_set_rating, Hpb. simpl. rewrite Hida, Hidb.
    destruct (Z.eqb_spec b (player_a_id m)) as [Heq|_]; [by destruct Hne|].
    simpl. by rewrite Hidb, Z.eqb_refl.
  - intros j Hja Hjb. rewrite Hput, !get_player_set_rating.
    destruct (get_player st j) as [p|] eqn:Hp; [|done].
    destruct (get_player_Some _ _ _ Hp) as [_ Hidp]. simpl. rewrite Hida, Hidb, Hidp.
    destruct (Z.eqb_spec j (player_a_id m)); [done|]. rewrite Hidp.
    by destruct (Z.eqb_spec j b).
  - intros j Hj. rewrite get_match_put_match, !get_match_set_rating.
    destruct (get_match st j) as [r|] eqn:Hr; [|done].
    destruct (get_match_Some _ _ _ Hr) as [_ Hidr]. simpl. rewrite Hidr, Hid.
    by destruct (Z.eqb_spec j i).
Qed.

(** X6: a reported result enters both records: a win and a loss, or a draw
    on each side. *)
Theorem record_result_enters_records st i k res fa fb now m b pa pb :
  NoDup (m_id <$> matches st) →
  get_match st i = Some m → result m = pending → player_b_id m = Some b →
  get_player st (player_a_id m) = Some pa → get_player st b = Some pb →
  player_a_id m ≠ b →
  let st' := (record_result st i k res fa fb now).2 in
  player_record st' (player_a_id m) =
    add_record (player_record st (player_a_id m)) (record_gain res true) ∧
  player_record st' b = add_record (player_record st b) (record_gain res false).
Proof.
  intros Hnd Hget Hres Hb Hpa Hpb Hne st'. subst st'. unfold record_result.
  rewrite Hget, Hpa, Hb, Hpb. rewrite decide_False by (by rewrite Hres; intros []).
  destruct (update_elo _ _ _ _) as [new_a new_b]. cbn [snd].
  destruct (find_id_split _ _ _ Hnd Hget) as (l1 & l2 & Hst & Hid & H1 & H2).
  match goal with |- context [put_match ?x ?s] => set (m' := x); set (s1 := s) end.
  assert (matches (put_match m' s1) = l1 ++ m' :: l2) as Hst'.
  { apply (put_match_split s1 l1 l2 m m'); [done|done|by rewrite Hid..]. }
  split.
  - apply (player_record_replace st _ l1 l2 m m'); try done.
    + by left.
    + by left.
    + intros [[w d] l]. unfold record_step. by rewrite Hb, Hres.
    + intros [[w d] l]. unfold record_step, add_record. subst m'. simpl.
      destruct res; simpl; rewrite ?decide_True by done; rewrite ?decide_False by done;
        apply triple_eq; lia.
  - apply (player_record_replace st _ l1 l2 m m'); try done.
    + by right.
    + by right.
    + intros [[w d] l]. unfold record_step. by rewrite Hb, Hres.
    + intros [[w d] l]. unfold record_step, add_record. subst m'. simpl.
      destruct res; simpl; rewrite ?decide_True by done; rewrite ?decide_False by done;
        apply triple_eq; lia.
Qed.

(** X7: a pending match whose player B has no row is resolved as a bye
    whatever result was chosen: the result is [a_win], no rating changes and
    no K-factor is stored, although the row still names player B; it then
    counts as a win for A and as a loss for B. *)
Theorem record_result_missing_opponent st i k res fa fb now m b pa :
  NoDup (m_id <$> matches st) →
  get_match st i = Some m → result m = pending → player_b_id m = Some b →
  get_player st (player_a_id m) = Some pa → get_player st b = None →
  ∃ st' m',
    record_result st i k res fa fb now = (success_bye, st') ∧
    players st' = players st ∧
    get_match st' i = Some m' ∧
    result m' = a_win ∧ player_b_id m' = Some b ∧
    a_rating_after m' = Some (rating pa) ∧ b_rating_before m' = None ∧
    k_factor_used m' = None ∧ b_faction m' = None ∧
    player_record st' (player_a_id m) =
      add_record (player_record st (player_a_id m)) (1, 0, 0) ∧
    player_record st' b = add_record (player_record st b) (0, 0, 1).
Proof.
  intros Hnd Hget Hres Hb Hpa Hpb. unfold record_result.
  rewrite Hget, Hpa, Hb, Hpb. rewrite decide_False by (by rewrite Hres; intros []).
  destruct (get_match_Some _ _ _ Hget) as [_ Hid].
  destruct (get_player_Some _ _ _ Hpa) as [_ Hida].
  assert (player_a_id m ≠ b) as Hne by (intros <-; congruence).
  eexists _, _. split; [reflexivity|]. split; [done|].
  split; [by apply get_put_match with (m := m)|].
  cbn [result player_b_id a_rating_after b_rating_before k_factor_used b_faction].
  do 6 (split; [done|]).
  destruct (find_id_split _ _ _ Hnd Hget) as (l1 & l2 & Hst & _ & H1 & H2).
  match goal with |- context [put_match ?x st] => set (m' := x) end.
  assert (matches (put_match m' st) = l1 ++ m' :: l2) as Hst'.
  { apply (put_match_split st l1 l2 m m'); [done|done|by rewrite Hid..]. }
  split.
  - apply (player_record_replace st _ l1 l2 m m'); try done; try (by left).
    + intros [[w d] l]. unfold record_step. by rewrite Hb, Hres.
    + intros [[w d] l]. unfold record_step, add_record. subst m'. simpl.
      rewrite decide_True by done. apply triple_eq; lia.
  - apply (player_record_replace st _ l1 l2 m m'); try done; try (by right).
    + intros [[w d] l]. unfold record_step. by rewrite Hb, Hres.
    + intros [[w d] l]. unfold record_step, add_record. subst m'. simpl.
      rewrite decide_False by done. apply triple_eq; lia.
Qed.
End ResultFacts.

Section AdHocFacts.
Context {F : Type} `{FloatArith F}.
Implicit Types (st : Store F) (m : Match F).

Lemma get_match_fresh st (l : list (Match F)) m :
  m_id m = next_match_id st →
  find (λ r, m_id r =? next_match_id st) (matches st ++ m :: l) = Some m.
Proof.
  intros Hid.
  assert (∀ l0 : list (Match F), Forall (λ r, m_id r < next_match_id st) l0 →
            find (λ r, m_id r =? next_match_id st) (l0 ++ m :: l) = Some m) as Hfind.
  { induction 1 as [|r l0 Hr _ IH]; simpl.
    - by rewrite Hid, Z.eqb_refl.
    - by destruct (Z.eqb_spec (m_id r) (next_match_id st)); [lia|]. }
  apply Hfind, Forall_forall. intros r Hr. by apply next_match_id_fresh.
Qed.

Lemma put_match_last (l : list (Match F)) (x y m' : Match F) :
  m_id x = m_id m' → m_id y = m_id m' →
  map (λ r, if m_id r =? m_id m' then m' else r) (l ++ [x]) =
  map (λ r, if m_id r =? m_id m' then m' else r) (l ++ [y]).
Proof. intros Hx Hy. rewrite !map_app. simpl. by rewrite Hx, Hy, Z.eqb_refl. Qed.

(** X9: saving an ad-hoc result is the same as creating the pending match
    and then recording its result with the "Save result" button: the store
    is the same, and the match is the new row. *)
Theorem adhoc_match_as_record_result st w pid_a pid_b k res fa fb now pa pb :
  get_player st pid_a = Some pa → get_player st pid_b = Some pb →
  let i := next_match_id st in
  let st1 := (add_match st w pid_a (Some pid_b)).2 in
  adhoc_match st w pid_a pid_b k res fa fb now =
    (success_adhoc (k_of_choice k) i, (record_result st1 i k res fa fb now).2) ∧
  (record_result st1 i k res fa fb now).1 = success_saved (k_of_choice k) ∧
  (∃ m', get_match (adhoc_match st w pid_a pid_b k res fa fb now).2 i = Some m' ∧
         week m' = w ∧ player_a_id m' = pid_a ∧ player_b_id m' = Some pid_b ∧
         result m' = result_of_choice res ∧ result m' ≠ pending).
Proof.
  intros Hpa Hpb i st1.
  assert (get_match st1 i = Some (new_match st w pid_a (Some pid_b))) as Hget
    by (by apply get_match_fresh).
  unfold adhoc_match, record_result. rewrite Hget, Hpa, Hpb.
  cbn [result new_match player_a_id player_b_id]. rewrite decide_False by (by intros []).
  change (get_player st1 ?j) with (get_player st j). rewrite Hpa, Hpb.
  destruct (update_elo _ _ _ _) as [new_a new_b]. cbn [fst snd m_id week].
  split; [|split; [done|]].
  - f_equal. unfold put_match. f_equal. cbn [matches set_rating add_match snd].
    by apply put_match_last.
  - eexists. split.
    + unfold get_match, put_match. cbn [matches set_rating].
      rewrite map_app. cbn [map m_id]. rewrite Z.eqb_refl.
      rewrite map_replace_other.
      * by apply get_match_fresh.
      * apply Forall_forall. intros r Hr. apply next_match_id_fresh in Hr. fold i. lia.
    + cbn. repeat split; by destruct res.
Qed.
End AdHocFacts.

(** ** Who is paired *)

Section PoolFacts.
Context {F : Type} `{RatingOrder F}.
Implicit Types (st : Store F) (m : Match F).

Lemma elem_of_eligible_ids st restrict (i : Z) :
  i ∈ eligible_ids st restrict ↔
  ∃ p, p ∈ players st ∧ p_id p = i ∧ active p = true ∧ in_pool restrict i.
Proof.
  unfold eligible_ids. rewrite restrict_ids_fmap, list_elem_of_fmap. split.
  - intros (p & -> & Hp). apply list_elem_of_filter in Hp as [Hpool Hp].
    rewrite active_by_rating_perm in Hp. apply list_elem_of_filter in Hp as [Hact Hp].
    by exists p.
  - intros (p & Hp & <- & Hact & Hpool). exists p. split; [done|].
    apply list_elem_of_filter. split; [done|].
    rewrite active_by_rating_perm. by apply list_elem_of_filter.
Qed.

Lemma NoDup_bind_elem {A B} (f : A → list B) (l : list A) (x : A) :
  NoDup (l ≫= f) → x ∈ l → NoDup (f x).
Proof.
  intros Hnd Hx. apply list_elem_of_split in Hx as (l1 & l2 & ->).
  rewrite bind_app, bind_cons in Hnd.
  apply NoDup_app in Hnd as (_ & _ & Hnd). by apply NoDup_app in Hnd as (? & _).
Qed.

(** X10: a generated round never pairs an archived player, a player outside
    the attendance restriction or an id without a row, never pairs a player
    with themselves, and never names a player in two rows. *)
Theorem generated_round_sound st w restrict :
  NoDup (p_id <$> players st) →
  let created := (generate_weekly_pairings st w restrict).1 in
  NoDup (created ≫= ids_of_match) ∧
  ∀ m, m ∈ created →
    player_b_id m ≠ Some (player_a_id m) ∧
    ∀ i, i ∈ ids_of_match m →
      ∃ p, p ∈ players st ∧ p_id p = i ∧ active p = true ∧ in_pool restrict i.
Proof.
  intros Hnd created.
  pose proof (generate_weekly_pairings_ids st w restrict Hnd) as Hperm. fold created in Hperm.
  assert (NoDup (created ≫= ids_of_match)) as Hflat
    by (rewrite Hperm; by apply eligible_ids_NoDup).
  split; [done|]. intros m Hm. split.
  - pose proof (NoDup_bind_elem ids_of_match created m Hflat Hm) as Hm'.
    unfold ids_of_match in Hm'. intros Hb. rewrite Hb in Hm'. simpl in Hm'.
    apply NoDup_cons in Hm' as [Hin _]. apply Hin. by left.
  - intros i Hi. apply (elem_of_eligible_ids st restrict). rewrite <- Hperm.
    apply list_elem_of_bind. by exists m.
Qed.

Lemma pair_loop_no_history (past : gset (Z * Z)) (used : gset Z) (ids : list Z) :
  NoDup ids →
  (∀ a b, a ∈ ids → b ∈ ids → sorted_pair a b ∉ past) →
  (∀ a, a ∈ ids → a ∉ used) →
  pair_loop past used ids = consecutive_pairs ids.
Proof.
  revert used. induction ids as [|a|a b ids IH] using list_pair_ind;
    intros used Hnd Hpast Hused; [done| |].
  - cbn [pair_loop]. rewrite decide_False by (apply Hused; by left). done.
  - apply NoDup_cons in Hnd as [Ha Hnd]. apply NoDup_cons in Hnd as [Hb Hnd].
    rewrite (pair_loop_paired _ _ a _ b).
    + rewrite pair_loop_used by set_solver. cbn [consecutive_pairs]. f_equal.
      apply IH; [done| |].
      * intros x y Hx Hy. apply Hpast; by do 2 right.
      * intros x Hx. assert (x ∉ used) by (apply Hused; by do 2 right).
        assert (x ≠ a) by (intros ->; apply Ha; by right).
        assert (x ≠ b) by (by intros ->). set_solver.
    + apply Hused. by left.
    + apply pick_opponent_next; [apply Hused; right; by left|].
      apply Hpast; [by left|right; by left].
Qed.

(** X11: when no two players of the pool have been paired before, the round
    pairs the pool in rating order: first with second, third with fourth,
    and so on, the last player alone when the pool is odd. *)
Theorem first_round_pairs_neighbours st w restrict :
  NoDup (p_id <$> players st) →
  (∀ a b, a ∈ eligible_ids st restrict → b ∈ eligible_ids st restrict →
     sorted_pair a b ∉ fetch_past_pairs st) →
  pair_of_match <$> (generate_weekly_pairings st w restrict).1 =
    consecutive_pairs (eligible_ids st restrict).
Proof.
  intros Hnd Hpast.
  pose proof (generate_weekly_pairings_spec st w restrict) as Hspec.
  destruct (generate_weekly_pairings st w restrict) as [created st'].
  destruct Hspec as (_ & _ & _ & Hps & _). cbn [fst]. rewrite Hps.
  apply pair_loop_no_history; [by apply eligible_ids_NoDup|done|set_solver].
Qed.

Lemma same_id_same_row (l : list (Player F)) (p q : Player F) :
  NoDup (p_id <$> l) → p ∈ l → q ∈ l → p_id p = p_id q → p = q.
Proof.
  induction l as [|x l IH]; [by intros _ ?%elem_of_nil|].
  rewrite fmap_cons, NoDup_cons. intros [Hx Hnd] Hp Hq Heq.
  apply elem_of_cons in Hp as [->|Hp]; apply elem_of_cons in Hq as [->|Hq]; [done| | |auto].
  - destruct Hx. rewrite Heq. by apply list_elem_of_fmap_2.
  - destruct Hx. rewrite <- Heq. by apply list_elem_of_fmap_2.
Qed.

Lemma elem_of_set_active st (i : Z) (flag : bool) (q : Player F) :
  q ∈ players (set_active i flag st) ↔
  ∃ p, p ∈ players st ∧
       q = if p_id p =? i
           then mkPlayer (p_id p) (name p) (rating p) flag (faction p) (created_at p)
           else p.
Proof.
  unfold set_active. cbn [players].
  change (map ?f ?l) with (f <$> l). rewrite list_elem_of_fmap. naive_solver.
Qed.

Lemma eligible_set_active st (i : Z) (flag : bool) restrict (j : Z) :
  j ∈ eligible_ids (set_active i flag st) restrict ↔
  if decide (j = i)
  then flag = true ∧ in_pool restrict i ∧ ∃ p, p ∈ players st ∧ p_id p = i
  else j ∈ eligible_ids st restrict.
Proof.
  rewrite (elem_of_eligible_ids (set_active i flag st)).
  setoid_rewrite elem_of_set_active. split.
  - intros (q & (p & Hp & ->) & Hid & Hact & Hpool).
    destruct (Z.eqb_spec (p_id p) i) as [Hpi|Hpi]; simpl in *.
    + subst. rewrite decide_True by done. eauto.
    + rewrite decide_False by congruence. apply elem_of_eligible_ids. eauto.
  - case_decide as Hj.
    + intros (-> & Hpool & p & Hp & Hid). subst j.
      eexists. split; [exists p; split; [done|reflexivity]|].
      rewrite Hid, Z.eqb_refl. done.
    + intros (p & Hp & Hid & Hact & Hpool)%elem_of_eligible_ids. exists p. split; [|done].
      exists p. split; [done|]. by destruct (Z.eqb_spec (p_id p) i); [congruence|].
Qed.

(** X12: an archived player is in no pool and a restored player is in every
    pool that attendance admits them to; neither button changes whether any
    other player is eligible. *)
Theorem archive_restore_pool st (pid : Z) (p : Player F) restrict :
  NoDup (p_id <$> players st) → get_player st pid = Some p →
  (pid ∉ eligible_ids (archive_player st pid) restrict) ∧
  (pid ∈ eligible_ids (restore_player st pid) restrict ↔ in_pool restrict pid) ∧
  ∀ j, j ≠ pid →
    (j ∈ eligible_ids (archive_player st pid) restrict ↔ j ∈ eligible_ids st restrict) ∧
    (j ∈ eligible_ids (restore_player st pid) restrict ↔ j ∈ eligible_ids st restrict).
Proof.
  intros Hnd Hget. destruct (get_player_Some _ _ _ Hget) as [Hin Hid].
  unfold archive_player, restore_player. rewrite Hget.
  assert (pid ∈ eligible_ids st restrict ↔ active p = true ∧ in_pool restrict pid) as Hpid.
  { rewrite elem_of_eligible_ids. split.
    - intros (q & Hq & Hidq & Hact & Hpool).
      assert (q = p) as -> by (apply (same_id_same_row (players st)); congruence). done.
    - intros [Hact Hpool]. by exists p. }
  destruct (active p) eqn:Hact.
  - split; [|split].
    + rewrite eligible_set_active, decide_True by done. by intros [? _].
    + rewrite Hpid. tauto.
    + intros j Hj. by rewrite eligible_set_active, decide_False.
  - split; [|split].
    + rewrite Hpid. by intros [? _].
    + rewrite eligible_set_active, decide_True by done. split; [tauto|].
      intros Hpool. split; [done|]. split; [done|]. by exists p.
    + intros j Hj. by rewrite eligible_set_active, decide_False.
Qed.

Lemma filter_all_elem {A} (P : A → Prop) `{!∀ x, Decision (P x)} (l : list A) :
  (∀ x, x ∈ l → P x) → filter P l = l.
Proof.
  intros HP. induction l as [|x l IH]; [done|].
  rewrite filter_cons_True by (apply HP; by left).
  rewrite IH; [done|]. intros y Hy. apply HP. by right.
Qed.

Lemma filter_none_elem {A} (P : A → Prop) `{!∀ x, Decision (P x)} (l : list A) :
  (∀ x, x ∈ l → ¬ P x) → filter P l = [].
Proof.
  intros HP. induction l as [|x l IH]; [done|].
  rewrite filter_cons_False by (apply HP; by left).
  apply IH. intros y Hy. apply HP. by right.
Qed.

(** X13: the manual pairing editor lists as eligible exactly the ids that
    "Generate pairings" would pair for the week, each once when keys are
    unique; only the order differs (by name instead of by rating). *)
Theorem editor_lists_the_pool st w :
  editor_eligible_ids st w ≡ₚ
  eligible_ids st (if decide (attendance_ids st w = ∅) then None
                   else Some (attendance_ids st w)).
Proof.
  unfold editor_eligible_ids, eligible_ids.
  assert (p_id <$> merge_sort (λ p q, String.leb (name p) (name q))
                     (filter (λ p, active p = true) (players st))
          ≡ₚ p_id <$> active_by_rating st) as Hperm
    by (by rewrite merge_sort_Permutation, active_by_rating_perm).
  case_decide as Hatt.
  - simpl. rewrite <- Hperm. apply reflexive_eq, filter_all_elem.
    intros i Hi. by apply elem_of_list_to_set.
  - simpl. rewrite decide_False by done. by rewrite Hperm.
Qed.
End PoolFacts.

(** ** Resetting a week and deleting pairings *)

Section ResetFacts.
Context {F : Type} `{RatingOrder F}.
Implicit Types (st : Store F) (m : Match F).

(** X14: a reset that includes reported results removes exactly the rows of
    the week, keeps the order of the others, and "Generate pairings" is then
    never refused for that week. *)
Theorem reset_then_generate st w :
  let st' := reset_pairings st w true in
  matches st' = filter (λ m, week m ≠ w) (matches st) ∧
  players st' = players st ∧ attendance st' = attendance st ∧
  ∀ n, (generate_pairings st' w).1 ≠ error_pairings_exist n.
Proof.
  intros st'.
  assert (matches st' = filter (λ m, week m ≠ w) (matches st)) as Hm.
  { unfold st', reset_pairings. cbn [matches]. apply list_filter_iff. intros m.
    destruct (decide (week m = w)); naive_solver. }
  split; [done|]. split; [done|]. split; [done|]. intros n.
  unfold generate_pairings. rewrite Hm, list_filter_filter.
  rewrite filter_none by (intros m; tauto).
  destruct (generate_weekly_pairings _ _ _) as [[|m created] st2]; done.
Qed.

(** X15: a reset that spares reported results keeps every reported row and
    every row of another week, in their order, and removes the pending rows
    of the week; it is what the manual editor does before it applies an
    order, and doing it twice changes nothing more. *)
Theorem reset_keeps_reported st w :
  let st' := reset_pairings st w false in
  matches st' = filter (λ m, week m ≠ w ∨ result m ≠ pending) (matches st) ∧
  st' = delete_pending w st ∧
  reset_pairings st' w false = st'.
Proof.
  intros st'.
  assert (matches st' = filter (λ m, week m ≠ w ∨ result m ≠ pending) (matches st)) as Hm.
  { unfold st', reset_pairings. cbn [matches]. apply list_filter_iff. intros m.
    destruct (decide (week m = w)), (decide (result m = pending)); naive_solver. }
  split; [done|]. split.
  - unfold st', reset_pairings, delete_pending. f_equal. apply list_filter_iff.
    intros m. naive_solver.
  - unfold st', reset_pairings. cbn [players matches attendance]. f_equal.
    rewrite list_filter_filter. apply list_filter_iff. intros m. naive_solver.
Qed.

Lemma delete_pairing_spec (allow : bool) st (mid : Z) :
  NoDup (m_id <$> matches st) →
  let st' := delete_pairing allow st mid in
  NoDup (m_id <$> matches st') ∧
  players st' = players st ∧ attendance st' = attendance st ∧
  matches st' =
    filter (λ m, ¬ (m_id m = mid ∧ (allow = true ∨ result m = pending))) (matches st).
Proof.
  intros Hnd st'. unfold st', delete_pairing.
  destruct (get_match st mid) as [m|] eqn:Hget.
  - destruct (get_match_Some _ _ _ Hget) as [Hin Hid].
    assert (∀ r, r ∈ matches st → m_id r = mid → r = m) as Hsame.
    { intros r Hr Hidr. destruct (find_id_split _ _ _ Hnd Hget) as (l1 & l2 & Hst & _ & H1 & H2).
      rewrite Hst in Hr. rewrite Forall_forall in H1, H2.
      apply elem_of_app in Hr as [Hr|Hr]; [by destruct (H1 r Hr)|].
      apply elem_of_cons in Hr as [->|Hr]; [done|by destruct (H2 r Hr)]. }
    destruct (negb allow && bool_decide (result m ≠ pending)) eqn:Hskip.
    + split; [done|]. split; [done|]. split; [done|].
      symmetry. apply filter_all_elem. intros r Hr [Hidr Hdel].
      apply andb_true_iff in Hskip as [Hallow Hrep].
      apply bool_decide_eq_true in Hrep. rewrite (Hsame r Hr Hidr) in Hdel.
      destruct allow; naive_solver.
    + cbn [matches players attendance]. split.
      { eapply sublist_NoDup; [exact Hnd|]. apply fmap_sublist, sublist_filter. }
      split; [done|]. split; [done|]. apply filter_ext_elem. intros r Hr.
      rewrite Hid. split.
      * intros Hne [? _]. done.
      * intros Hkeep Hidr. apply Hkeep. split; [done|].
        rewrite (Hsame r Hr Hidr). apply andb_false_iff in Hskip as [Hskip|Hskip].
        -- left. by destruct allow.
        -- right. apply bool_decide_eq_false in Hskip.
           by destruct (decide (result m = pending)).
  - split; [done|]. split; [done|]. split; [done|].
    symmetry. apply filter_all_elem. intros r Hr [Hidr _].
    unfold get_match in Hget. eapply find_none in Hget; [|by apply list_elem_of_In].
    simpl in Hget. lia.
Qed.

(** X16: "Delete selected pairings" removes exactly the selected rows that
    are pending, or all selected rows when deleting reported results is
    allowed; a reported row is never deleted otherwise, and the count it
    reports is the number of selected ids, not of deleted rows. *)
Theorem delete_selected_pairings_spec st (selected_ids : list Z) (allow : bool) :
  NoDup (m_id <$> matches st) →
  let '(reported, st') := delete_selected_pairings st selected_ids allow in
  reported = length selected_ids ∧
  players st' = players st ∧ attendance st' = attendance st ∧
  matches st' =
    filter (λ m, ¬ (m_id m ∈ selected_ids ∧ (allow = true ∨ result m = pending)))
           (matches st).
Proof.
  intros Hnd. unfold delete_selected_pairings. split; [done|].
  revert st Hnd. induction selected_ids as [|mid ids IH]; intros st Hnd.
  - simpl. split; [done|]. split; [done|]. symmetry. apply filter_all.
    intros m [Hin _]. by apply elem_of_nil in Hin.
  - cbn [foldl]. destruct (delete_pairing_spec allow st mid Hnd) as (Hnd' & Hp & Ha & Hm).
    destruct (IH _ Hnd') as (Hp' & Ha' & Hm').
    split; [congruence|]. split; [congruence|].
    rewrite Hm', Hm, list_filter_filter. apply list_filter_iff. intros m.
    rewrite elem_of_cons. naive_solver.
Qed.
End ResetFacts.

(** ** Attendance *)

Section AttendanceFacts.
Context {F : Type} `{RatingOrder F}.
Implicit Types (st : Store F) (m : Match F).

Lemma attendance_rows_spec (w : string) (next : Z) (pids : list Z) :
  player_id <$> attendance_rows w next pids = pids ∧
  Forall (λ r, att_week r = w ∧ present r = true) (attendance_rows w next pids).
Proof.
  revert next. induction pids as [|pid pids IH]; intros next; [done|].
  destruct (IH (next + 1)) as [Hids Hall]. cbn [attendance_rows]. split.
  - by rewrite fmap_cons, Hids.
  - by constructor.
Qed.

Lemma attendance_ids_app (players0 : list (Player F)) (matches0 : list (Match F))
    (l1 l2 : list Attendance) (w : string) :
  attendance_ids (mkStore players0 matches0 (l1 ++ l2)) w =
  attendance_ids (mkStore players0 matches0 l1) w ∪
  attendance_ids (mkStore players0 matches0 l2) w.
Proof.
  unfold attendance_ids. cbn [attendance].
  by rewrite filter_app, fmap_app, list_to_set_app_L.
Qed.

Lemma attendance_ids_clear st w w' :
  attendance_ids (clear_attendance st w) w' =
    if decide (w' = w) then ∅ else attendance_ids st w'.
Proof.
  unfold attendance_ids, clear_attendance. cbn [attendance].
  rewrite list_filter_filter. case_decide as Hw.
  - subst. rewrite filter_none; [done|]. tauto.
  - do 2 f_equal. apply list_filter_iff. intros r. naive_solver.
Qed.

Lemma attendance_ids_save st w (selected_ids : gset Z) w' :
  attendance_ids (save_attendance st w selected_ids) w' =
    if decide (w' = w) then selected_ids else attendance_ids st w'.
Proof.
  destruct (attendance_rows_spec w (next_attendance_id st) (elements selected_ids))
    as [Hids Hrows].
  unfold save_attendance. rewrite attendance_ids_app.
  change (attendance_ids (mkStore (players st) (matches st)
            (filter (λ r, att_week r ≠ w) (attendance st))) w')
    with (attendance_ids (clear_attendance st w) w').
  rewrite attendance_ids_clear.
  assert (attendance_ids
            (mkStore (players st) (matches st)
               (attendance_rows w (next_attendance_id st) (elements selected_ids))) w'
          = if decide (w' = w) then selected_ids else ∅) as ->.
  { unfold attendance_ids. cbn [attendance]. case_decide as Hw.
    - subst. rewrite filter_all_elem.
      + by rewrite Hids, list_to_set_elements_L.
      + intros r Hr. rewrite Forall_forall in Hrows. by apply Hrows.
    - rewrite filter_none_elem; [done|].
      intros r Hr [Hweek _]. rewrite Forall_forall in Hrows.
      destruct (Hrows r Hr) as [? _]. congruence. }
  case_decide; set_solver.
Qed.

(** X17: after "Save attendance" the players present in the week are exactly
    the selected ones, whatever was stored for the week before; the presence
    recorded for every other week, the players and the matches are
    untouched; and after "Clear attendance" nobody is present in the week. *)
Theorem save_attendance_round_trip st w (selected_ids : gset Z) :
  attendance_ids (save_attendance st w selected_ids) w = selected_ids ∧
  attendance_ids (clear_attendance st w) w = ∅ ∧
  (∀ w', w' ≠ w →
     attendance_ids (save_attendance st w selected_ids) w' = attendance_ids st w' ∧
     attendance_ids (clear_attendance st w) w' = attendance_ids st w') ∧
  players (save_attendance st w selected_ids) = players st ∧
  matches (save_attendance st w selected_ids) = matches st.
Proof.
  split; [by rewrite attendance_ids_save, decide_True|].
  split; [by rewrite attendance_ids_clear, decide_True|].
  split; [|done]. intros w' Hw.
  by rewrite attendance_ids_save, attendance_ids_clear, !decide_False.
Qed.

(** X18: when a non-empty selection has been saved for a week without
    matches, "Generate pairings" pairs exactly the active players among the
    selected ones, each in one row. *)
Theorem save_attendance_then_generate st w (selected_ids : gset Z) :
  NoDup (p_id <$> players st) →
  selected_ids ≠ ∅ →
  (∀ m, m ∈ matches st → week m ≠ w) →
  let st1 := save_attendance st w selected_ids in
  ∃ created,
    matches (generate_pairings st1 w).2 = matches st ++ created ∧
    Forall (λ m, week m = w ∧ result m = pending) created ∧
    created ≫= ids_of_match
      ≡ₚ filter (λ i, i ∈ selected_ids) (p_id <$> filter (λ p, active p = true) (players st)).
Proof.
  intros Hnd Hsel Hweek st1.
  assert (attendance_ids st1 w = selected_ids) as Hids
    by (unfold st1; by rewrite attendance_ids_save, decide_True).
  assert (players st1 = players st) as Hp by done.
  assert (matches st1 = matches st) as Hm by done.
  unfold generate_pairings. rewrite Hm.
  rewrite (proj2 (filter_week_nil st w) Hweek), Hids, decide_False by done.
  pose proof (generate_weekly_pairings_spec st1 w (Some selected_ids)) as Hspec.
  pose proof (generate_weekly_pairings_ids st1 w (Some selected_ids)) as Hcover.
  rewrite Hp in Hcover. specialize (Hcover Hnd).
  destruct (generate_weekly_pairings st1 w (Some selected_ids)) as [created st2].
  destruct Hspec as (_ & _ & Hm2 & _ & Hall). exists created.
  split; [by rewrite <- Hm|]. split; [done|].
  cbn [fst] in Hcover. rewrite Hcover. unfold eligible_ids, restrict_ids.
  rewrite decide_False by done. apply filter_Permutation.
  unfold active_by_rating. by rewrite merge_sort_Permutation, Hp.
Qed.
End AttendanceFacts.

(** ** Text *)

Section TextFacts.
Implicit Types (s : str) (c : N).

Lemma blank_cons c s : blank (c :: s) ↔ is_space c = true ∧ blank s.
Proof. unfold blank. apply (Forall_cons (λ x, is_space x = true)). Qed.

Lemma lstrip_blank s : lstrip s = [] ↔ blank s.
Proof.
  induction s as [|c s IH]; [split; [constructor|done]|].
  rewrite blank_cons. simpl. destruct (is_space c); [rewrite IH; tauto|].
  split; [done|]. by intros [? _].
Qed.

Lemma lstrip_keeps_blank s : blank (lstrip s) ↔ blank s.
Proof.
  induction s as [|c s IH]; [done|]. simpl. destruct (is_space c) eqn:Hc; [|done].
  rewrite blank_cons, IH. tauto.
Qed.

Lemma rstrip_blank s : rstrip s = [] ↔ blank s.
Proof.
  induction s as [|c s IH]; [split; [constructor|done]|].
  rewrite blank_cons. simpl. destruct (rstrip s) as [|c' r].
  - destruct (is_space c); [tauto|]. split; [done|]. by intros [? _].
  - split; [done|]. intros [_ Hs]. by apply IH in Hs.
Qed.

Lemma strip_blank s : strip s = [] ↔ blank s.
Proof. unfold strip. by rewrite rstrip_blank, lstrip_keeps_blank. Qed.

(** What [lstrip] removes is white space, and what it leaves does not begin
    with white space. *)
Lemma lstrip_spec s :
  ∃ l, s = l ++ lstrip s ∧ blank l ∧ ∀ c, head (lstrip s) = Some c → is_space c = false.
Proof.
  induction s as [|c s (l & Hs & Hl & Hhead)];
    [exists []; split; [done|split; [constructor|done]]|].
  simpl. destruct (is_space c) eqn:Hc.
  - exists (c :: l). split; [by rewrite <- app_comm_cons, <- Hs|].
    split; [by apply blank_cons|done].
  - exists []. split; [done|]. split; [constructor|]. by intros ? [= <-].
Qed.

Lemma rstrip_spec s :
  ∃ r, s = rstrip s ++ r ∧ blank r ∧ ∀ c, last (rstrip s) = Some c → is_space c = false.
Proof.
  induction s as [|c s (r & Hs & Hr & Hlast)];
    [exists []; split; [done|split; [constructor|done]]|].
  simpl. destruct (rstrip s) as [|c' t] eqn:Ht.
  - simpl in Hs. subst r. destruct (is_space c) eqn:Hc.
    + exists (c :: s). split; [done|]. split; [by apply blank_cons|done].
    + exists s. split; [done|]. split; [done|]. by intros ? [= <-].
  - exists r. split; [by rewrite Hs|]. split; [done|]. intros c0 Hc0. by apply Hlast.
Qed.

Lemma rstrip_head c s : is_space c = false → head (rstrip (c :: s)) = Some c.
Proof. intros Hc. simpl. destruct (rstrip s); by rewrite ?Hc. Qed.

(** [s.strip()]: [s] without the white space at its two ends. *)
Lemma strip_spec s :
  ∃ l r, s = l ++ strip s ++ r ∧ blank l ∧ blank r ∧
         (∀ c, head (strip s) = Some c → is_space c = false) ∧
         (∀ c, last (strip s) = Some c → is_space c = false).
Proof.
  destruct (lstrip_spec s) as (l & Hs & Hl & Hhead).
  destruct (rstrip_spec (lstrip s)) as (r & Ht & Hr & Hlast).
  exists l, r. unfold strip. split; [by rewrite <- Ht|]. split; [done|]. split; [done|].
  split; [|done]. intros c Hc. destruct (lstrip s) as [|c0 t]; [done|].
  assert (is_space c0 = false) as Hc0 by by apply Hhead.
  rewrite rstrip_head in Hc by done. by injection Hc as <-.
Qed.

Lemma strip_not_blank s : ¬ blank s → ¬ blank (strip s).
Proof.
  intros Hs Hb. destruct (strip_spec s) as (l & r & _ & _ & _ & Hhead & _).
  destruct (strip s) as [|c t] eqn:Ht; [by apply strip_blank in Ht|].
  apply blank_cons in Hb as [Hc _]. rewrite (Hhead c) in Hc; done.
Qed.

Lemma strip_scalar s : Forall scalar_value s → Forall scalar_value (strip s).
Proof.
  intros Hs. destruct (strip_spec s) as (l & r & Heq & _). rewrite Heq in Hs.
  by apply Forall_app in Hs as [_ [? _]%Forall_app].
Qed.

Lemma utf8_not_nil c : utf8 c ≠ [].
Proof. unfold utf8. by repeat case_match. Qed.

Lemma encode_nil s : encode s = "" ↔ s = [].
Proof.
  split; [|by intros ->]. unfold encode. destruct s as [|c s]; [done|].
  cbn [mbind list_bind]. pose proof (utf8_not_nil c) as Hc.
  destruct (utf8 c) as [|b bs]; [done|]. done.
Qed.

Lemma utf8_bytes c : scalar_value c → Forall (λ b, (b < 256)%N) (utf8 c).
Proof.
  unfold utf8, scalar_value. intros Hc.
  repeat (match goal with |- context [(?a <? ?b)%N] => destruct (N.ltb_spec a b) end);
    repeat first [apply Forall_nil_2 | apply Forall_cons_2];
    zify; Z.to_euclidean_division_equations; lia.
Qed.

(** UTF-8 is a prefix code. *)
Lemma utf8_app_inj c1 c2 (r1 r2 : list N) :
  scalar_value c1 → scalar_value c2 → utf8 c1 ++ r1 = utf8 c2 ++ r2 → c1 = c2 ∧ r1 = r2.
Proof.
  unfold utf8, scalar_value. intros H1 H2.
  repeat (match goal with |- context [(?a <? ?b)%N] => destruct (N.ltb_spec a b) end);
    cbn [app]; intros [= ];
    (split; [|first [assumption | exfalso]]); zify; Z.to_euclidean_division_equations; lia.
Qed.

Lemma bind_utf8_inj s1 s2 :
  Forall scalar_value s1 → Forall scalar_value s2 → s1 ≫= utf8 = s2 ≫= utf8 → s1 = s2.
Proof.
  intros H1. revert s2. induction H1 as [|c1 s1 Hc1 _ IH]; intros s2 H2 Heq.
  - destruct H2 as [|c2 s2 _ _]; [done|]. cbn [mbind list_bind] in Heq.
    pose proof (utf8_not_nil c2). by destruct (utf8 c2).
  - destruct H2 as [|c2 s2 Hc2 H2].
    + cbn [mbind list_bind] in Heq. pose proof (utf8_not_nil c1). by destruct (utf8 c1).
    + cbn [mbind list_bind] in Heq. apply utf8_app_inj in Heq as [-> Heq]; [|done..].
      f_equal. by apply IH.
Qed.

(** Two texts without surrogates are stored alike only when they are equal. *)
Lemma encode_inj s1 s2 :
  Forall scalar_value s1 → Forall scalar_value s2 → encode s1 = encode s2 → s1 = s2.
Proof.
  intros H1 H2 Heq. apply bind_utf8_inj; [done..|].
  assert (∀ s, Forall scalar_value s → Forall (λ b, (b < 256)%N) (s ≫= utf8)) as Hbytes.
  { intros s Hs. apply Forall_bind. eapply Forall_impl; [exact Hs|]. apply utf8_bytes. }
  assert (∀ l : list N, Forall (λ b, (b < 256)%N) l → N_of_ascii <$> (ascii_of_N <$> l) = l)
    as Hround.
  { intros l Hl. induction Hl as [|b l Hb _ IH]; [done|].
    rewrite !fmap_cons, IH. f_equal. by apply N_ascii_embedding. }
  rewrite <- (Hround (s1 ≫= utf8)), <- (Hround (s2 ≫= utf8)) by auto. f_equal.
  unfold encode in Heq. apply (f_equal list_ascii_of_string) in Heq.
  by rewrite !list_ascii_of_string_of_list_ascii in Heq.
Qed.
End TextFacts.

(** ** Week passwords *)

Section WeekKeyFacts.
Implicit Types (keys : list WeekKey) (w : string) (wk : WeekKey).

Lemma find_week_Some keys w wk :
  find (λ r, bool_decide (wk_week r = w)) keys = Some wk → wk ∈ keys ∧ wk_week wk = w.
Proof.
  intros Hf. apply find_some in Hf as [Hin Hw]. apply bool_decide_eq_true in Hw.
  split; [by apply list_elem_of_In|done].
Qed.

Lemma find_week_None keys w :
  find (λ r, bool_decide (wk_week r = w)) keys = None ↔ w ∉ wk_week <$> keys.
Proof.
  induction keys as [|r keys IH]; simpl.
  - split; [intros _; apply not_elem_of_nil|done].
  - rewrite not_elem_of_cons. case_bool_decide as Hw; [naive_solver|].
    rewrite IH. naive_solver.
Qed.

Lemma same_key_same_row keys (r wk : WeekKey) :
  NoDup (wk_id <$> keys) → r ∈ keys → wk ∈ keys → wk_id r = wk_id wk → r = wk.
Proof.
  induction keys as [|x keys IH]; [by intros _ ?%elem_of_nil|].
  rewrite fmap_cons, NoDup_cons. intros [Hx Hnd] Hr Hwk Heq.
  apply elem_of_cons in Hr as [->|Hr]; apply elem_of_cons in Hwk as [->|Hwk]; [done| | |auto].
  - destruct Hx. rewrite Heq. by apply list_elem_of_fmap_2.
  - destruct Hx. rewrite <- Heq. by apply list_elem_of_fmap_2.
Qed.

Lemma same_week_same_row keys (r wk : WeekKey) :
  NoDup (wk_week <$> keys) → r ∈ keys → wk ∈ keys → wk_week r = wk_week wk → r = wk.
Proof.
  induction keys as [|x keys IH]; [by intros _ ?%elem_of_nil|].
  rewrite fmap_cons, NoDup_cons. intros [Hx Hnd] Hr Hwk Heq.
  apply elem_of_cons in Hr as [->|Hr]; apply elem_of_cons in Hwk as [->|Hwk]; [done| | |auto].
  - destruct Hx. rewrite Heq. by apply list_elem_of_fmap_2.
  - destruct Hx. rewrite <- Heq. by apply list_elem_of_fmap_2.
Qed.

Lemma find_filter_same {A} (P : A → bool) (Q : A → Prop) `{!∀ x, Decision (Q x)}
    (l : list A) :
  (∀ x, x ∈ l → ¬ Q x → P x = false) → find P (filter Q l) = find P l.
Proof.
  induction l as [|x l IH]; intros Hl; [done|].
  assert (find P (filter Q l) = find P l) as IH' by (apply IH; intros y Hy; apply Hl; by right).
  destruct (decide (Q x)) as [Hx|Hx].
  - rewrite filter_cons_True by done. simpl. by rewrite IH'.
  - rewrite filter_cons_False by done. simpl.
    rewrite (Hl x) by (done || by left). done.
Qed.

Lemma find_map_ext {A} (P : A → bool) (f : A → A) (l : list A) :
  (∀ x, x ∈ l → P (f x) = P x ∧ (P x = true → f x = x)) → find P (map f l) = find P l.
Proof.
  induction l as [|x l IH]; intros Hl; [done|]. simpl.
  destruct (Hl x) as [HP Hf]; [by left|]. rewrite HP.
  destruct (P x); [by rewrite Hf|]. apply IH. intros y Hy. apply Hl. by right.
Qed.

Lemma next_week_key_id_fresh keys r : r ∈ keys → wk_id r < next_week_key_id keys.
Proof.
  unfold next_week_key_id. induction keys as [|x keys IH]; intros Hr.
  - by apply elem_of_nil in Hr.
  - simpl. apply elem_of_cons in Hr as [->|Hr]; [lia|]. specialize (IH Hr). lia.
Qed.

Lemma remove_key_ok keys wk :
  week_keys_ok keys → week_keys_ok (filter (λ r, wk_id r ≠ wk_id wk) keys).
Proof.
  intros (Hids & Hweeks & Hpw). split; [|split].
  - eapply sublist_NoDup; [exact Hids|]. apply fmap_sublist, sublist_filter.
  - eapply sublist_NoDup; [exact Hweeks|]. apply fmap_sublist, sublist_filter.
  - apply Forall_forall. intros r [_ Hr]%list_elem_of_filter.
    rewrite Forall_forall in Hpw. by apply Hpw.
Qed.

Lemma week_password_remove keys w wk w' :
  week_keys_ok keys → wk ∈ keys → wk_week wk = w →
  week_password (filter (λ r, wk_id r ≠ wk_id wk) keys) w' =
  if decide (w' = w) then None else week_password keys w'.
Proof.
  intros (Hids & Hweeks & _) Hwk Hw. unfold week_password. case_decide as Hw'.
  - subst w'. assert (find (λ r, bool_decide (wk_week r = w))
                        (filter (λ r, wk_id r ≠ wk_id wk) keys) = None) as ->; [|done].
    apply find_week_None. intros Hin. apply list_elem_of_fmap in Hin as (r & Hwr & Hr).
    apply list_elem_of_filter in Hr as [Hne Hr]. apply Hne.
    by rewrite (same_week_same_row keys r wk) by (done || congruence).
  - rewrite find_filter_same; [done|]. intros r Hr Hid.
    apply bool_decide_eq_false. intros Hwr.
    assert (r = wk) as -> by (apply (same_key_same_row keys); [done..|]; by destruct (decide (wk_id r = wk_id wk))).
    congruence.
Qed.

Lemma update_row_spec keys wk (pw : string) (r : WeekKey) :
  NoDup (wk_id <$> keys) → wk ∈ keys → r ∈ keys →
  let r' := if wk_id r =? wk_id wk then mkWeekKey (wk_id wk) (wk_week wk) pw else r in
  wk_id r' = wk_id r ∧ wk_week r' = wk_week r ∧ (r ≠ wk → r' = r).
Proof.
  intros Hnd Hwk Hr. cbn zeta. destruct (Z.eqb_spec (wk_id r) (wk_id wk)) as [Heq|Hne].
  - by rewrite (same_key_same_row keys r wk).
  - done.
Qed.

Lemma set_week_password_lookup keys w (pw : string) :
  pw ≠ "" → week_password (set_week_password keys w (Some pw)) w = Some pw.
Proof.
  intros Hpw. unfold set_week_password, week_password. destruct pw as [|c pw]; [done|].
  destruct (find _ keys) as [wk|] eqn:Hfind.
  - destruct (find_week_Some _ _ _ Hfind) as [_ Hw].
    set (f := λ r, if wk_id r =? wk_id wk
                   then mkWeekKey (wk_id wk) (wk_week wk) (String c pw) else r).
    assert (∀ l, find (λ r, bool_decide (wk_week r = w)) l = Some wk →
              find (λ r, bool_decide (wk_week r = w)) (map f l) =
                Some (mkWeekKey (wk_id wk) (wk_week wk) (String c pw))) as Hupd.
    { assert (∀ r, f r = if wk_id r =? wk_id wk
                           then mkWeekKey (wk_id wk) (wk_week wk) (String c pw) else r)
        as Hfeq by done.
      induction l as [|r l IH]; [done|]. simpl. rewrite (Hfeq r).
      case_bool_decide as Hr.
      - intros [= ->]. rewrite Z.eqb_refl. simpl. by rewrite bool_decide_true.
      - intros Hl. destruct (Z.eqb_spec (wk_id r) (wk_id wk)); simpl.
        + by rewrite bool_decide_true.
        + rewrite bool_decide_false by done. auto. }
    by rewrite Hupd.
  - assert (∀ l, find (λ r, bool_decide (wk_week r = w))
                   (l ++ [mkWeekKey (next_week_key_id keys) w (String c pw)]) =
                 match find (λ r, bool_decide (wk_week r = w)) l with
                 | Some r => Some r
                 | None => Some (mkWeekKey (next_week_key_id keys) w (String c pw))
                 end) as Happ.
    { induction l as [|r l IH]; simpl; [by rewrite bool_decide_true|].
      destruct (bool_decide (wk_week r = w)); [done|auto]. }
    by rewrite Happ, Hfind.
Qed.

Lemma set_week_password_ok keys w (pw : string) :
  week_keys_ok keys → pw ≠ "" → week_keys_ok (set_week_password keys w (Some pw)).
Proof.
  intros (Hids & Hweeks & Hpws) Hpw. unfold set_week_password.
  destruct pw as [|c pw]; [done|].
  destruct (find _ keys) as [wk|] eqn:Hfind.
  - destruct (find_week_Some _ _ _ Hfind) as [Hwk Hw].
    pose proof (update_row_spec keys wk (String c pw)) as Hf. cbn zeta in Hf.
    change (map ?f keys) with (f <$> keys). split; [|split].
    + rewrite <- list_fmap_compose.
      erewrite list_fmap_ext; [exact Hids|].
      intros ? r Hr%list_elem_of_lookup_2. simpl. by destruct (Hf r Hids Hwk Hr) as [-> _].
    + rewrite <- list_fmap_compose.
      erewrite list_fmap_ext; [exact Hweeks|].
      intros ? r Hr%list_elem_of_lookup_2. simpl. by destruct (Hf r Hids Hwk Hr) as (_ & -> & _).
    + apply Forall_forall. intros r' Hr'.
      apply list_elem_of_fmap in Hr' as (r & -> & Hr).
      destruct (wk_id r =? wk_id wk); [done|]. rewrite Forall_forall in Hpws. by apply Hpws.
  - apply find_week_None in Hfind as Hfresh. split; [|split].
    + rewrite fmap_app. apply NoDup_app. split; [done|]. split; [|apply NoDup_singleton].
      intros i Hi Hnew%list_elem_of_singleton. apply list_elem_of_fmap in Hi as (r & -> & Hr).
      apply next_week_key_id_fresh in Hr. simpl in Hnew. lia.
    + rewrite fmap_app. apply NoDup_app. split; [done|]. split; [|apply NoDup_singleton].
      intros x Hx Hnew%list_elem_of_singleton. simpl in Hnew. by subst.
    + apply Forall_app. split; [done|]. by constructor.
Qed.

(** X19: a password set for a week is the password read back for that week,
    also when it replaces an earlier one; the passwords of all other weeks
    are as before, and the table still has one row per week, unique keys
    and no empty password. *)
Theorem set_week_password_round_trip keys w (pw : string) :
  week_keys_ok keys → pw ≠ "" →
  let keys' := set_week_password keys w (Some pw) in
  week_password keys' w = Some pw ∧
  (∀ w', w' ≠ w → week_password keys' w' = week_password keys w') ∧
  week_keys_ok keys'.
Proof.
  intros Hok Hpw keys'. split; [by apply set_week_password_lookup|].
  split; [|by apply set_week_password_ok].
  intros w' Hw'. destruct Hok as (Hids & _ & _).
  unfold keys', set_week_password, week_password. destruct pw as [|c pw]; [done|].
  destruct (find _ keys) as [wk|] eqn:Hfind.
  - destruct (find_week_Some _ _ _ Hfind) as [Hwk Hw].
    rewrite find_map_ext; [done|]. intros r Hr.
    destruct (update_row_spec keys wk (String c pw) r Hids Hwk Hr) as (_ & Hweek & Hsame).
    cbn zeta in Hweek, Hsame. rewrite Hweek. split; [done|].
    intros Hr'%bool_decide_eq_true. apply Hsame. intros ->. congruence.
  - f_equal. generalize (next_week_key_id keys). intros n.
    induction keys as [|r l IH] in |- *; simpl; [by rewrite bool_decide_false|].
    destruct (bool_decide (wk_week r = w')); [done|apply IH].
Qed.

(** X20: clearing the password of a week, or setting it to nothing or to the
    empty string, leaves the week without a password and every other week's
    password as it was, and keeps the table well formed. *)
Theorem clear_week_password_spec keys w :
  week_keys_ok keys →
  let keys' := clear_week_password keys w in
  week_password keys' w = None ∧
  (∀ w', w' ≠ w → week_password keys' w' = week_password keys w') ∧
  week_keys_ok keys' ∧
  set_week_password keys w None = keys' ∧
  set_week_password keys w (Some "") = keys'.
Proof.
  intros Hok keys'. unfold keys', clear_week_password, set_week_password.
  destruct (find _ keys) as [wk|] eqn:Hfind.
  - destruct (find_week_Some _ _ _ Hfind) as [Hwk Hw].
    split; [by rewrite (week_password_remove keys w wk), decide_True|].
    split; [|split; [by apply remove_key_ok|done]].
    intros w' Hw'. by rewrite (week_password_remove keys w wk), decide_False.
  - split; [by unfold week_password; rewrite Hfind|]. done.
Qed.

(** X21: the "Set / Update password" button stores the typed password
    without the white space around it, and clears the password when nothing
    but white space was typed.  With a password stored the week is locked in
    a new session, an attempt with any other text leaves it locked, and the
    stored password unlocks it; without one the week is never locked. *)
Theorem update_password_then_lock keys w (pw_new : str) :
  week_keys_ok keys →
  let keys' := update_password_clicked keys w pw_new in
  week_keys_ok keys' ∧
  week_password keys' w =
    (if decide (blank pw_new) then None else Some (encode (strip pw_new))) ∧
  results_locked keys' w false = bool_decide (¬ blank pw_new) ∧
  ∀ pw_try,
    Forall scalar_value pw_new → Forall scalar_value pw_try →
    results_locked keys' w (unlock_week_clicked keys' w false pw_try) =
      bool_decide (¬ blank pw_new ∧ pw_try ≠ strip pw_new).
Proof.
  intros Hok keys'.
  assert (week_keys_ok keys' ∧
          week_password keys' w =
            (if decide (blank pw_new) then None else Some (encode (strip pw_new))))
    as [Hok' Hpw].
  { unfold keys', update_password_clicked. destruct (strip pw_new) as [|c s] eqn:Hs.
    - rewrite decide_True by (by apply strip_blank). unfold clear_week_password.
      destruct (find _ keys) as [wk|] eqn:Hfind.
      + destruct (find_week_Some _ _ _ Hfind) as [Hwk Hw].
        split; [by apply remove_key_ok|].
        by rewrite (week_password_remove keys w wk), decide_True.
      + split; [done|]. by unfold week_password; rewrite Hfind.
    - rewrite decide_False by (rewrite <- strip_blank; congruence).
      assert (encode (c :: s) ≠ "") as Hne by (by rewrite encode_nil).
      split; [by apply set_week_password_ok|by apply set_week_password_lookup]. }
  split; [done|]. split; [done|].
  unfold results_locked, unlock_week_clicked. rewrite Hpw.
  destruct (decide (blank pw_new)) as [Hb|Hb].
  - split; [by rewrite bool_decide_false by tauto|]. intros pw_try _ _.
    rewrite bool_decide_false; [done|]. by intros [? _].
  - assert (encode (strip pw_new) ≠ "") as Hne by (by rewrite encode_nil, strip_blank).
    destruct (encode (strip pw_new)) as [|b e] eqn:He; [done|].
    split; [by rewrite bool_decide_true|]. intros pw_try Hnew Htry.
    case_bool_decide as Hsame; cbn [negb].
    + rewrite bool_decide_false; [done|]. intros [_ Hdiff]. apply Hdiff.
      apply encode_inj; [done|by apply strip_scalar|congruence].
    + rewrite bool_decide_true; [done|]. split; [done|]. intros ->. congruence.
Qed.
End WeekKeyFacts.

(** ** Faction pickers *)

Section FactionPickers.

Lemma index_Some (value : string) (l : list string) (i : nat) :
  index value l = Some i → l !! i = Some value.
Proof.
  revert i. induction l as [|x l IH]; intros i; simpl; [done|].
  case_decide as Hx; [intros [= <-]; by subst|].
  destruct (index value l) as [j|]; [|done]. intros [= <-]. by apply IH.
Qed.

Lemma index_None (value : string) (l : list string) : index value l = None ↔ value ∉ l.
Proof.
  induction l as [|x l IH]; simpl.
  - split; [intros _; apply not_elem_of_nil|done].
  - rewrite not_elem_of_cons. case_decide as Hx; [split; [done|]; intros [? _]; congruence|].
    destruct (index value l) as [j|]; simpl.
    + split; [done|]. intros [_ Hl]. by apply IH in Hl.
    + split; [|done]. intros _. split; [congruence|by apply IH].
Qed.

Lemma factions_with_blank_NoDup : NoDup PLACEHOLDER_FACTIONS_WITH_BLANK.
Proof. apply (bool_decide_unpack _). by vm_compute. Qed.

Lemma blank_is_no_faction : blank_choice ∉ PLACEHOLDER_FACTIONS.
Proof.
  pose proof factions_with_blank_NoDup as Hnd.
  unfold PLACEHOLDER_FACTIONS_WITH_BLANK in Hnd. by apply NoDup_cons in Hnd as [? _].
Qed.

(** X22: the entry that [_faction_index_or_blank] preselects in a faction
    select box, read back the way the forms read a choice, is the faction it
    was given when that is one of the listed factions, and otherwise no
    faction; the index is always inside the list. *)
Theorem faction_index_round_trip (value : option string) :
  ∃ choice,
    PLACEHOLDER_FACTIONS_WITH_BLANK !! faction_index_or_blank value = Some choice ∧
    normalize_choice choice =
      match value with
      | Some f => if decide (f ∈ PLACEHOLDER_FACTIONS) then Some f else None
      | None => None
      end.
Proof.
  assert (normalize_choice blank_choice = None) as Hblank
    by (unfold normalize_choice; by rewrite decide_True).
  destruct value as [[|c s]|].
  - exists blank_choice. split; [done|]. rewrite Hblank.
    rewrite decide_False; [done|]. apply (bool_decide_unpack _). by vm_compute.
  - unfold faction_index_or_blank.
    destruct (index (String c s) PLACEHOLDER_FACTIONS) as [i|] eqn:Hi.
    + apply index_Some in Hi. exists (String c s). split; [done|].
      assert (String c s ∈ PLACEHOLDER_FACTIONS) as Hin by by eapply list_elem_of_lookup_2.
      rewrite decide_True by done. unfold normalize_choice.
      rewrite decide_False; [done|]. intros Heq. apply blank_is_no_faction. by rewrite <- Heq.
    + apply index_None in Hi. exists blank_choice. split; [done|].
      by rewrite Hblank, decide_False.
  - by exists blank_choice.
Qed.

(** X23: the ad-hoc form takes the position of the player's faction in the
    list without the blank entry and uses it in the select box whose list
    begins with the blank entry: what it preselects is never that faction
    but the entry before it, the faction itself being one place further.
    The form of a match without a stored faction preselects the most played
    faction itself. *)
Theorem adhoc_form_default_shifted (most_played player_faction : option string) (f : string) :
  f ∈ PLACEHOLDER_FACTIONS →
  most_played = Some f ∨
    ((∀ g, most_played = Some g → g ∉ PLACEHOLDER_FACTIONS) ∧ player_faction = Some f) →
  let i := adhoc_form_default most_played player_faction in
  PLACEHOLDER_FACTIONS !! i = Some f ∧
  PLACEHOLDER_FACTIONS_WITH_BLANK !! S i = Some f ∧
  PLACEHOLDER_FACTIONS_WITH_BLANK !! i ≠ Some f ∧
  (most_played = Some f →
   PLACEHOLDER_FACTIONS_WITH_BLANK !! result_form_default None most_played player_faction
     = Some f).
Proof.
  intros Hf Hcase i.
  assert (most_played = Some f →
          PLACEHOLDER_FACTIONS_WITH_BLANK !!
            result_form_default None most_played player_faction = Some f) as Hform.
  { intros ->. unfold result_form_default, or_else.
    destruct f as [|c s]; [exfalso; revert Hf; apply (bool_decide_unpack _); by vm_compute|].
    unfold faction_index_or_blank.
    destruct (index (String c s) PLACEHOLDER_FACTIONS) as [j|] eqn:Hj;
      [by apply index_Some in Hj|by apply index_None in Hj]. }
  assert (PLACEHOLDER_FACTIONS !! i = Some f) as Hi.
  { destruct (index f PLACEHOLDER_FACTIONS) as [j|] eqn:Hj;
      [|by apply index_None in Hj].
    assert (i = j) as ->; [|by apply index_Some].
    unfold i, adhoc_form_default. destruct Hcase as [->|[Hmost ->]]; cbn [mbind option_bind].
    - by rewrite Hj.
    - destruct most_played as [g|]; cbn [mbind option_bind]; [|by rewrite Hj].
      destruct (index g PLACEHOLDER_FACTIONS) as [?|] eqn:Hg; [|by rewrite Hj].
      apply index_Some, list_elem_of_lookup_2 in Hg. by destruct (Hmost g). }
  split; [done|]. split; [done|]. split; [|done]. intros Hshift.
  assert (i = S i) as Heq; [|lia].
  by eapply (NoDup_lookup _ _ _ f factions_with_blank_NoDup).
Qed.
End FactionPickers.

(** ** Week ids *)

Section WeekIds.

Lemma weekday_range d : 0 ≤ weekday d < 7.
Proof. unfold weekday. apply Z.mod_pos_bound. lia. Qed.

Lemma week_wednesday_facts d :
  valid_date d →
  week_wednesday d = Some (week_monday d + 2) ∧
  valid_date (week_monday d + 2) ∧
  weekday (week_monday d + 2) = 2 ∧
  week_monday (week_monday d + 2) = week_monday d.
Proof.
  unfold valid_date, week_wednesday, date_add, week_monday, weekday, date_min, date_max.
  intros Hd.
  assert (date_ok : 1 ≤ d - (d + 6) `mod` 7 + 2 ≤ 3652059) by (Z.div_mod_to_equations; lia).
  assert ((d - (d + 6) `mod` 7 + 2 + 6) `mod` 7 = 2) as Hwd by (Z.div_mod_to_equations; lia).
  split; [|split; [done|split; [done|]]].
  - rewrite decide_True by lia. f_equal. lia.
  - rewrite Hwd. lia.
Qed.

(** X24: for every date of the calendar the Wednesday that [week_id_wed]
    formats exists (the date arithmetic never leaves the calendar, whose
    first day is a Monday and whose last day is a Friday); it is a
    Wednesday, lies from four days before to two days after the date, in
    the same Monday-to-Sunday week, and is its own week's Wednesday. *)
Theorem week_wednesday_spec d :
  valid_date d →
  ∃ wed,
    week_wednesday d = Some wed ∧ valid_date wed ∧ weekday wed = 2 ∧
    d - 4 ≤ wed ≤ d + 2 ∧
    week_monday wed = week_monday d ∧
    week_wednesday wed = Some wed.
Proof.
  intros Hd. destruct (week_wednesday_facts d Hd) as (Hwed & Hvalid & Hday & Hmon).
  exists (week_monday d + 2). split; [done|]. split; [done|]. split; [done|].
  split; [pose proof (weekday_range d); unfold week_monday; lia|]. split; [done|].
  destruct (week_wednesday_facts _ Hvalid) as (-> & _). by rewrite Hmon.
Qed.

(** X25: two dates get the same week id date exactly when they lie in the
    same Monday-to-Sunday week, and a date seven days later gets the
    Wednesday seven days later. *)
Theorem week_wednesday_same_week d1 d2 :
  valid_date d1 → valid_date d2 →
  (week_wednesday d1 = week_wednesday d2 ↔ week_monday d1 = week_monday d2) ∧
  (d2 = d1 + 7 → week_wednesday d2 = (λ wed, wed + 7) <$> week_wednesday d1).
Proof.
  intros Hd1 Hd2.
  destruct (week_wednesday_facts d1 Hd1) as (-> & _).
  destruct (week_wednesday_facts d2 Hd2) as (-> & _). split.
  - split; [intros [= ?]; lia|by intros ->].
  - intros ->. simpl. f_equal. unfold week_monday, weekday.
    replace (d1 + 7 + 6) with (d1 + 6 + 1 * 7) by lia. rewrite Z.mod_add by lia. lia.
Qed.
End WeekIds.

(** ** Players *)

Section PlayerFacts.
Context {F : Type}.
Implicit Types (st : Store F) (m : Match F) (p q : Player F).

Lemma next_player_id_fresh st p : p ∈ players st → p_id p < next_player_id st.
Proof.
  unfold next_player_id. induction (players st) as [|x l IH]; intros Hp.
  - by apply elem_of_nil in Hp.
  - simpl. apply elem_of_cons in Hp as [->|Hp]; [lia|]. specialize (IH Hp). lia.
Qed.

Lemma get_player_None st (i : Z) : get_player st i = None ↔ i ∉ p_id <$> players st.
Proof.
  unfold get_player. induction (players st) as [|x l IH]; simpl.
  - split; [intros _; apply not_elem_of_nil|done].
  - rewrite not_elem_of_cons. destruct (Z.eqb_spec (p_id x) i) as [Hx|Hx].
    + split; [done|]. by intros [? _].
    + rewrite IH. naive_solver.
Qed.

Lemma find_app_l {A} (P : A → bool) (l1 l2 : list A) (x : A) :
  find P l1 = Some x → find P (l1 ++ l2) = Some x.
Proof. induction l1 as [|y l1 IH]; [done|]. simpl. destruct (P y); auto. Qed.

Lemma find_app_r {A} (P : A → bool) (l1 l2 : list A) :
  find P l1 = None → find P (l1 ++ l2) = find P l2.
Proof. induction l1 as [|y l1 IH]; [done|]. simpl. destruct (P y); [done|auto]. Qed.

Lemma add_player_facts st (player_name : str) (starting : F) (faction_choice : string) now :
  ¬ blank player_name →
  let p := mkPlayer (next_player_id st) (encode (strip player_name)) starting true
             (normalize_choice faction_choice) now in
  add_player st player_name starting faction_choice now =
    (success_player_added, mkStore (players st ++ [p]) (matches st) (attendance st)) ∧
  get_player st (p_id p) = None.
Proof.
  intros Hname p. split.
  - unfold add_player. destruct (strip player_name) as [|c s] eqn:Hs; [|done].
    by apply strip_blank in Hs.
  - apply get_player_None. intros (q & Hq & Hin)%list_elem_of_fmap.
    apply next_player_id_fresh in Hin. simpl in Hq. lia.
Qed.

(** X26: "Add player" refuses a name of white space only and changes
    nothing; any other name adds one active player under a key no player
    had, named by the typed name without the white space at its two ends,
    with the chosen rating and the chosen faction (none for the blank
    entry), after the players there were, who can all be looked up as
    before; keys stay unique. *)
Theorem add_player_spec st (player_name : str) (starting : F) (faction_choice : string)
    now :
  NoDup (p_id <$> players st) →
  let r := add_player st player_name starting faction_choice now in
  (blank player_name → r = (error_name_required, st)) ∧
  (¬ blank player_name →
     ∃ p, r = (success_player_added,
                mkStore (players st ++ [p]) (matches st) (attendance st)) ∧
          get_player st (p_id p) = None ∧
          get_player r.2 (p_id p) = Some p ∧
          (∀ i q, get_player st i = Some q → get_player r.2 i = Some q) ∧
          NoDup (p_id <$> players r.2) ∧
          (∃ stripped l r',
             name p = encode stripped ∧ name p ≠ "" ∧
             player_name = l ++ stripped ++ r' ∧ blank l ∧ blank r' ∧
             (∀ c, head stripped = Some c → is_space c = false) ∧
             (∀ c, last stripped = Some c → is_space c = false)) ∧
          rating p = starting ∧ active p = true ∧
          faction p ≠ Some blank_choice ∧
          (faction_choice ≠ blank_choice → faction p = Some faction_choice)).
Proof.
  intros Hnd r. split.
  - intros Hname%strip_blank. unfold r, add_player. by rewrite Hname.
  - intros Hname. destruct (add_player_facts st player_name starting faction_choice now Hname)
      as [Hr Hfresh]. fold r in Hr. eexists. split; [exact Hr|]. rewrite Hr. cbn [snd].
    split; [done|]. split; [|split; [|split]].
    + unfold get_player in *. cbn [players]. rewrite find_app_r by done.
      simpl. by rewrite Z.eqb_refl.
    + intros i q Hq. unfold get_player in *. cbn [players]. by apply find_app_l.
    + cbn [players]. rewrite fmap_app. apply NoDup_app. split; [done|].
      split; [|apply NoDup_singleton].
      intros i Hi ->%list_elem_of_singleton. by apply get_player_None in Hfresh.
    + cbn [name rating active faction]. split.
      { destruct (strip_spec player_name) as (l & r' & Heq & Hl & Hr' & Hhead & Hlast).
        exists (strip player_name), l, r'. split; [done|].
        split; [by rewrite encode_nil, strip_blank|]. done. }
      split; [done|]. split; [done|]. unfold normalize_choice.
      case_decide as Hc; [done|]. split; [|done]. by intros [= ?].
Qed.

Lemma not_Exists_filter {A} (P : A → Prop) `{!∀ x, Decision (P x)} (l : list A) :
  ¬ Exists P l ↔ filter P l = [].
Proof.
  rewrite <- Forall_Exists_neg. split.
  - intros Hl. apply filter_none_elem. intros x Hx. rewrite Forall_forall in Hl. by apply Hl.
  - intros Hnil. apply Forall_forall. intros x Hx HP.
    assert (x ∈ filter P l) as Hin by by apply list_elem_of_filter.
    rewrite Hnil in Hin. by apply elem_of_nil in Hin.
Qed.

Lemma delete_row_spec st (sel_id : Z) :
  let st' := match get_player st sel_id with
             | Some pl => mkStore (filter (λ p, p_id p ≠ p_id pl) (players st))
                                  (matches st) (attendance st)
             | None => st
             end in
  players st' = filter (λ p, p_id p ≠ sel_id) (players st) ∧
  matches st' = matches st ∧ attendance st' = attendance st.
Proof.
  destruct (get_player st sel_id) as [pl|] eqn:Hpl; cbn zeta.
  - apply get_player_Some in Hpl as [_ ->]. done.
  - split; [|done]. symmetry. apply filter_all_elem. intros p Hp Heq.
    apply get_player_None in Hpl. apply Hpl. rewrite <- Heq. by apply list_elem_of_fmap_2.
Qed.

Lemma delete_player_facts st (sel_id : Z) (hard_delete : bool) :
  let r := delete_player st sel_id hard_delete in
  (hard_delete = false → has_related st sel_id → r = (error_related_records, st)) ∧
  (hard_delete = true ∨ ¬ has_related st sel_id →
     r.1 = (if decide (sel_id ∈ p_id <$> players st)
            then success_player_deleted else nothing_shown) ∧
     players r.2 = filter (λ p, p_id p ≠ sel_id) (players st) ∧
     matches r.2 = filter (λ m, ¬ involves sel_id m) (matches st) ∧
     attendance r.2 = filter (λ a, player_id a ≠ sel_id) (attendance st)).
Proof.
  intros r. unfold r, delete_player, has_related. split.
  - intros -> Hrel.
    destruct (filter (involves sel_id) (matches st)) as [|m ms] eqn:Hm; [|done].
    destruct (filter (λ a, player_id a = sel_id) (attendance st)) as [|a l] eqn:Ha; [|done].
    apply not_Exists_filter in Hm, Ha. tauto.
  - intros Hcase.
    assert (∃ st1 : Store F,
              (if hard_delete
               then Some (mkStore (players st)
                            (filter (λ m, ¬ involves sel_id m) (matches st))
                            (filter (λ a, player_id a ≠ sel_id) (attendance st)))
               else match filter (involves sel_id) (matches st),
                          filter (λ a, player_id a = sel_id) (attendance st) with
                    | [], [] => Some st
                    | _, _ => None
                    end) = Some st1 ∧
              players st1 = players st ∧
              matches st1 = filter (λ m, ¬ involves sel_id m) (matches st) ∧
              attendance st1 = filter (λ a, player_id a ≠ sel_id) (attendance st))
      as (st1 & -> & Hp1 & Hm1 & Ha1).
    { destruct hard_delete; [by eexists|].
      destruct Hcase as [?|Hnone]; [done|].
      apply Decidable.not_or in Hnone as [Hm Ha].
      assert (filter (involves sel_id) (matches st) = []) as Hm'
        by (by apply not_Exists_filter).
      assert (filter (λ a, player_id a = sel_id) (attendance st) = []) as Ha'
        by (by apply not_Exists_filter).
      rewrite Hm', Ha'.
      exists st. split; [done|]. split; [done|].
      apply Forall_Exists_neg in Hm. apply Forall_Exists_neg in Ha.
      rewrite Forall_forall in Hm. rewrite Forall_forall in Ha.
      split; symmetry; apply filter_all_elem; auto. }
    pose proof (delete_row_spec st1 sel_id) as Hrow. cbn zeta in Hrow.
    assert (get_player st1 sel_id = None ↔ sel_id ∉ p_id <$> players st) as Hnone
      by (by rewrite get_player_None, Hp1).
    destruct (get_player st1 sel_id) as [pl|] eqn:Hpl; cbn [fst snd].
    + destruct Hrow as (-> & -> & ->). rewrite Hp1, Hm1, Ha1.
      rewrite decide_True; [done|].
      destruct (decide (sel_id ∈ p_id <$> players st)) as [|Hn]; [done|].
      by apply Hnone in Hn.
    + destruct Hrow as (-> & _). rewrite Hp1, Hm1, Ha1.
      rewrite decide_False by (by apply Hnone). done.
Qed.

(** X27: "Delete player now" without the checkbox refuses, and changes
    nothing, when a match or an attendance row names the player; in every
    other case what is left is the tables without the player and without
    the rows that name the player, so no reference to the deleted key is
    left behind; success is shown only when the player existed. *)
Theorem delete_player_spec st (sel_id : Z) (hard_delete : bool) :
  let r := delete_player st sel_id hard_delete in
  (hard_delete = false → has_related st sel_id → r = (error_related_records, st)) ∧
  (hard_delete = true ∨ ¬ has_related st sel_id →
     r.1 = (if decide (sel_id ∈ p_id <$> players st)
            then success_player_deleted else nothing_shown) ∧
     players r.2 = filter (λ p, p_id p ≠ sel_id) (players st) ∧
     matches r.2 = filter (λ m, ¬ involves sel_id m) (matches st) ∧
     attendance r.2 = filter (λ a, player_id a ≠ sel_id) (attendance st) ∧
     (sel_id ∉ p_id <$> players r.2) ∧
     ¬ has_related r.2 sel_id).
Proof.
  intros r. destruct (delete_player_facts st sel_id hard_delete) as [Hrefuse Hdone].
  split; [done|]. intros Hcase. destruct (Hdone Hcase) as (Hfb & Hp & Hm & Ha).
  fold r in Hfb, Hp, Hm, Ha. do 4 (split; [done|]). split.
  - rewrite Hp. intros (p & Hid & Hin)%list_elem_of_fmap.
    apply list_elem_of_filter in Hin as [Hne _]. done.
  - unfold has_related. rewrite Hm, Ha. intros [Hex|Hex]; apply Exists_exists in Hex.
    + destruct Hex as (m & Hin & Hinv). by apply list_elem_of_filter in Hin as [? _].
    + destruct Hex as (a & Hin & Hinv). by apply list_elem_of_filter in Hin as [? _].
Qed.
End PlayerFacts.

(** ** Invariants of the handlers *)

Section Invariants.
Context {F : Type} `{!FloatArith F} `{!RatingOrder F} `{!Platform}.
Implicit Types (st : Store F) (m : Match F).

Lemma unique_keys_sub st st' :
  unique_keys st →
  p_id <$> players st' `sublist_of` p_id <$> players st →
  matches st' `sublist_of` matches st →
  unique_keys st'.
Proof.
  intros [Hp Hm] Hps Hms. split; [by apply (sublist_NoDup _ _ Hp)|].
  eapply sublist_NoDup; [exact Hm|]. by apply fmap_sublist.
Qed.

Lemma set_active_ids (i : Z) (flag : bool) st :
  p_id <$> players (set_active i flag st) = p_id <$> players st.
Proof.
  unfold set_active. cbn [players]. induction (players st) as [|p l IH]; [done|].
  cbn [map]. rewrite !fmap_cons, IH. by destruct (p_id p =? i).
Qed.

Lemma archive_restore_ids st (pid : Z) :
  p_id <$> players (archive_player st pid) = p_id <$> players st ∧
  matches (archive_player st pid) = matches st ∧
  attendance (archive_player st pid) = attendance st ∧
  p_id <$> players (restore_player st pid) = p_id <$> players st ∧
  matches (restore_player st pid) = matches st ∧
  attendance (restore_player st pid) = attendance st.
Proof.
  unfold archive_player, restore_player.
  destruct (get_player st pid) as [p|]; [|done].
  destruct (active p); by rewrite ?set_active_ids.
Qed.

Lemma delete_pairing_sub (allow : bool) st (mid : Z) :
  players (delete_pairing allow st mid) = players st ∧
  attendance (delete_pairing allow st mid) = attendance st ∧
  matches (delete_pairing allow st mid) `sublist_of` matches st.
Proof.
  unfold delete_pairing. destruct (get_match st mid) as [m|]; [|done].
  destruct (negb allow && bool_decide (result m ≠ pending)); [done|].
  split; [done|]. split; [done|]. apply sublist_filter.
Qed.

Lemma delete_selected_sub (allow : bool) (ids : list Z) st :
  players (foldl (delete_pairing allow) st ids) = players st ∧
  attendance (foldl (delete_pairing allow) st ids) = attendance st ∧
  matches (foldl (delete_pairing allow) st ids) `sublist_of` matches st.
Proof.
  revert st. induction ids as [|mid ids IH]; intros st; [done|]. cbn [foldl].
  destruct (delete_pairing_sub allow st mid) as (Hp & Ha & Hm).
  destruct (IH (delete_pairing allow st mid)) as (Hp' & Ha' & Hm').
  split; [congruence|]. split; [congruence|]. by etrans.
Qed.

Lemma adhoc_match_tables st w (pid_a pid_b : Z) k res fa fb now :
  let st' := (adhoc_match st w pid_a pid_b k res fa fb now).2 in
  st' = st ∨
  (pid_a ∈ p_id <$> players st) ∧ (pid_b ∈ p_id <$> players st) ∧
  p_id <$> players st' = p_id <$> players st ∧
  attendance st' = attendance st ∧
  ∃ m', matches st' = matches st ++ [m'] ∧ m_id m' = next_match_id st ∧
        ids_of_match m' = [pid_a; pid_b].
Proof.
  unfold adhoc_match.
  destruct (get_player st pid_a) as [pa|] eqn:Hpa; [|by left].
  destruct (get_player st pid_b) as [pb|] eqn:Hpb; [|by left].
  apply get_player_Some in Hpa as [Hina <-]. apply get_player_Some in Hpb as [Hinb <-].
  destruct (update_elo _ _ _ _) as [new_a new_b]. cbn zeta. right.
  split; [by apply list_elem_of_fmap_2|]. split; [by apply list_elem_of_fmap_2|].
  cbn [snd]. change (players (put_match ?x ?s)) with (players s).
  rewrite !set_rating_ids. split; [done|]. split; [done|].
  exists (mkMatch (next_match_id st) w (p_id pa) (Some (p_id pb)) (result_of_choice res)
            (Some (rating pa)) (Some (rating pb)) (Some new_a) (Some new_b) (Some now)
            (Some (k_of_choice k)) fa fb).
  split; [|done].
  unfold put_match, set_rating. cbn [matches m_id].
  rewrite map_app. f_equal.
  - rewrite <- (map_id (matches st)) at 2. apply map_ext_in. intros r Hr%list_elem_of_In.
    apply next_match_id_fresh in Hr. destruct (Z.eqb_spec (m_id r) (next_match_id st)); [lia|done].
  - simpl. by rewrite Z.eqb_refl.
Qed.

Lemma add_player_tables st (player_name : str) (starting : F) (faction_choice : string)
    now :
  let st' := (add_player st player_name starting faction_choice now).2 in
  st' = st ∨
  ∃ p, players st' = players st ++ [p] ∧ p_id p = next_player_id st ∧
       matches st' = matches st ∧ attendance st' = attendance st.
Proof.
  unfold add_player. destruct (strip player_name); [by left|]. right. by eexists.
Qed.

Lemma delete_player_tables st (sel_id : Z) (hard_delete : bool) :
  let st' := (delete_player st sel_id hard_delete).2 in
  st' = st ∨
  players st' = filter (λ p, p_id p ≠ sel_id) (players st) ∧
  matches st' = filter (λ m, ¬ involves sel_id m) (matches st) ∧
  attendance st' = filter (λ a, player_id a ≠ sel_id) (attendance st).
Proof.
  intros st'. destruct (delete_player_facts st sel_id hard_delete) as [Hrefuse Hdone].
  destruct hard_delete.
  - right. by destruct Hdone as (_ & ?); [left|].
  - destruct (decide (Exists (involves sel_id) (matches st) ∨
                      Exists (λ r, player_id r = sel_id) (attendance st))) as [Hrel|Hrel].
    + left. unfold st'. by rewrite Hrefuse.
    + right. by destruct Hdone as (_ & ?); [right|].
Qed.

Lemma record_result_tables st (i : Z) k res fa fb now :
  let st' := (record_result st i k res fa fb now).2 in
  p_id <$> players st' = p_id <$> players st ∧
  attendance st' = attendance st ∧
  m_id <$> matches st' = m_id <$> matches st ∧
  ∀ x, x ∈ matches st' → ∃ m0, m0 ∈ matches st ∧ ids_of_match x = ids_of_match m0.
Proof.
  assert (∀ (s : Store F) m m', m ∈ matches s → ids_of_match m' = ids_of_match m →
            ∀ x, x ∈ matches (put_match m' s) →
                 ∃ m0, m0 ∈ matches s ∧ ids_of_match x = ids_of_match m0) as Hput.
  { intros s m m' Hm Hids x. unfold put_match. cbn [matches].
    change (map ?f ?l) with (f <$> l). intros (r & -> & Hr)%list_elem_of_fmap.
    destruct (m_id r =? m_id m'); eauto. }
  unfold record_result.
  destruct (get_match st i) as [m|] eqn:Hm; [|by eauto 10].
  apply get_match_Some in Hm as [Hin _].
  destruct (decide (result m ≠ pending)); [by eauto 10|].
  destruct (get_player st (player_a_id m)) as [pa|]; [|by eauto 10].
  destruct (match player_b_id m with Some b => get_player st b | None => None end) as [pb|].
  - destruct (update_elo _ _ _ _) as [new_a new_b]. cbn zeta. cbn [snd].
    rewrite put_match_ids. change (players (put_match ?x ?s)) with (players s).
    rewrite !set_rating_ids. do 3 (split; [done|]).
    intros x Hx. eapply Hput in Hx; [exact Hx|exact Hin|done].
  - cbn zeta. cbn [snd]. rewrite put_match_ids. do 3 (split; [done|]).
    intros x Hx. eapply Hput in Hx; [exact Hx|exact Hin|done].
Qed.

Lemma generate_pairings_tables st w :
  NoDup (p_id <$> players st) →
  let st' := (generate_pairings st w).2 in
  players st' = players st ∧ attendance st' = attendance st ∧
  ∃ created, matches st' = matches st ++ created ∧
             ∀ m i, m ∈ created → i ∈ ids_of_match m → i ∈ p_id <$> players st.
Proof.
  intros Hnd. unfold generate_pairings.
  destruct (filter _ (matches st)).
  2:{ do 2 (split; [done|]). exists []. split; [by rewrite app_nil_r|].
      by intros ?? ?%elem_of_nil. }
  match goal with |- context [generate_weekly_pairings st w ?r] =>
    pose proof (generate_weekly_pairings_spec st w r) as Hspec;
    pose proof (generate_weekly_pairings_ids st w r Hnd) as Hids;
    destruct (generate_weekly_pairings st w r) as [created st2] end.
  destruct Hspec as (Hp & Ha & Hm & _). cbn zeta. cbn [fst snd] in *.
  do 2 (split; [done|]). exists created. split; [done|].
  intros m i Hin Hi.
  assert (i ∈ created ≫= ids_of_match) as Hbind by (apply list_elem_of_bind; eauto).
  rewrite Hids in Hbind. apply elem_of_eligible_ids in Hbind as (p & Hp' & <- & _).
  by apply list_elem_of_fmap_2.
Qed.

(** X28: every handler leaves the keys of the players and of the matches
    unique: the generator, the manual editor, a saved result, an ad-hoc
    match, adding, archiving, restoring and deleting a player, resetting and
    deleting pairings, saving and clearing attendance. *)
Theorem handlers_keep_unique_keys st :
  unique_keys st →
  (∀ w, unique_keys (generate_pairings st w).2) ∧
  (∀ w manual_order clear_pending,
     unique_keys (apply_manual_pairings st w manual_order clear_pending).2) ∧
  (∀ i k res fa fb now, unique_keys (record_result st i k res fa fb now).2) ∧
  (∀ w pid_a pid_b k res fa fb now,
     unique_keys (adhoc_match st w pid_a pid_b k res fa fb now).2) ∧
  (∀ player_name starting faction_choice now,
     unique_keys (add_player st player_name starting faction_choice now).2) ∧
  (∀ pid, unique_keys (archive_player st pid) ∧ unique_keys (restore_player st pid)) ∧
  (∀ sel_id hard_delete, unique_keys (delete_player st sel_id hard_delete).2) ∧
  (∀ w include_reported, unique_keys (reset_pairings st w include_reported)) ∧
  (∀ selected_ids allow, unique_keys (delete_selected_pairings st selected_ids allow).2) ∧
  (∀ w selected_ids,
     unique_keys (save_attendance st w selected_ids) ∧ unique_keys (clear_attendance st w)).
Proof.
  intros Hst. pose proof Hst as [Hp Hm].
  split; [intros; by apply generate_pairings_unique|].
  split; [intros; by apply apply_manual_pairings_unique|].
  split; [intros; by apply record_result_unique|].
  split; [|split; [|split; [|split; [|split; [|split]]]]].
  - intros w pid_a pid_b k res fa fb now.
    destruct (adhoc_match_tables st w pid_a pid_b k res fa fb now)
      as [->|(_ & _ & Hps & _ & m' & Hms & Hid & _)]; [done|].
    split; [by rewrite Hps|]. rewrite Hms, fmap_app. apply NoDup_app.
    split; [done|]. split; [|apply NoDup_singleton].
    intros j Hj ->%list_elem_of_singleton. apply list_elem_of_fmap in Hj as (r & Hr & Hin).
    apply next_match_id_fresh in Hin. simpl in Hr. lia.
  - intros player_name starting faction_choice now.
    destruct (add_player_tables st player_name starting faction_choice now)
      as [->|(p & Hps & Hid & Hms & _)]; [done|].
    split; [|by rewrite Hms]. rewrite Hps, fmap_app. apply NoDup_app.
    split; [done|]. split; [|apply NoDup_singleton].
    intros j Hj ->%list_elem_of_singleton. apply list_elem_of_fmap in Hj as (r & Hr & Hin).
    apply next_player_id_fresh in Hin. simpl in Hr. lia.
  - intros pid. destruct (archive_restore_ids st pid) as (Ha & Hma & _ & Hr & Hmr & _).
    split; (split; [|congruence]); congruence.
  - intros sel_id hard_delete.
    destruct (delete_player_tables st sel_id hard_delete) as [->|(Hps & Hms & _)]; [done|].
    apply (unique_keys_sub st); [done|rewrite Hps|rewrite Hms].
    + apply fmap_sublist, sublist_filter.
    + apply sublist_filter.
  - intros w include_reported. apply (unique_keys_sub st); [done|done|apply sublist_filter].
  - intros selected_ids allow. unfold delete_selected_pairings. cbn [snd].
    destruct (delete_selected_sub allow selected_ids st) as (Hps & _ & Hms).
    apply (unique_keys_sub st); [done|by rewrite Hps|done].
  - intros w selected_ids. by split.
Qed.

(** X29: every handler but the manual editor keeps the references of the
    ledger sound: when each match and each attendance row names players of
    the table, it still does after the generator, a saved result, an ad-hoc
    match, adding, archiving, restoring and deleting a player, resetting
    and deleting pairings, and after saving attendance for players of the
    table. *)
Theorem handlers_keep_references st :
  NoDup (p_id <$> players st) →
  references_ok st →
  (∀ w, references_ok (generate_pairings st w).2) ∧
  (∀ i k res fa fb now, references_ok (record_result st i k res fa fb now).2) ∧
  (∀ w pid_a pid_b k res fa fb now,
     references_ok (adhoc_match st w pid_a pid_b k res fa fb now).2) ∧
  (∀ player_name starting faction_choice now,
     references_ok (add_player st player_name starting faction_choice now).2) ∧
  (∀ pid, references_ok (archive_player st pid) ∧ references_ok (restore_player st pid)) ∧
  (∀ sel_id hard_delete, references_ok (delete_player st sel_id hard_delete).2) ∧
  (∀ w include_reported, references_ok (reset_pairings st w include_reported)) ∧
  (∀ selected_ids allow,
     references_ok (delete_selected_pairings st selected_ids allow).2) ∧
  (∀ w (selected_ids : gset Z),
     (∀ i, i ∈ selected_ids → i ∈ p_id <$> players st) →
     references_ok (save_attendance st w selected_ids)) ∧
  (∀ w, references_ok (clear_attendance st w)).
Proof.
  intros Hnd [Hms Has].
  split; [|split; [|split; [|split; [|split; [|split; [|split; [|split; [|split]]]]]]]].
  - intros w. destruct (generate_pairings_tables st w Hnd) as (Hp & Ha & created & Hm & Hnew).
    split.
    + intros m i Hin Hi. rewrite Hp. rewrite Hm in Hin.
      apply elem_of_app in Hin as [Hin|Hin]; eauto.
    + intros r Hr. rewrite Hp. rewrite Ha in Hr. auto.
  - intros i k res fa fb now.
    destruct (record_result_tables st i k res fa fb now) as (Hp & Ha & _ & Hm). split.
    + intros m j Hin Hj. rewrite Hp. destruct (Hm m Hin) as (m0 & Hin0 & Hids).
      rewrite Hids in Hj. eauto.
    + intros r Hr. rewrite Hp. rewrite Ha in Hr. auto.
  - intros w pid_a pid_b k res fa fb now.
    destruct (adhoc_match_tables st w pid_a pid_b k res fa fb now)
      as [->|(Hina & Hinb & Hps & Ha & m' & Hm & _ & Hids)]; [done|]. split.
    + intros m j Hin Hj. rewrite Hps. rewrite Hm in Hin.
      apply elem_of_app in Hin as [Hin|Hin]; [eauto|].
      apply list_elem_of_singleton in Hin as ->. rewrite Hids in Hj. set_solver.
    + intros r Hr. rewrite Hps. rewrite Ha in Hr. auto.
  - intros player_name starting faction_choice now.
    destruct (add_player_tables st player_name starting faction_choice now)
      as [->|(p & Hps & _ & Hm & Ha)]; [done|]. split.
    + intros m j Hin Hj. rewrite Hps, fmap_app, elem_of_app. left. rewrite Hm in Hin. eauto.
    + intros r Hr. rewrite Hps, fmap_app, elem_of_app. left. rewrite Ha in Hr. auto.
  - intros pid. destruct (archive_restore_ids st pid) as (Hp & Hm & Ha & Hp' & Hm' & Ha').
    split; split.
    + intros m j Hin Hj. rewrite Hp. rewrite Hm in Hin. eauto.
    + intros r Hr. rewrite Hp. rewrite Ha in Hr. auto.
    + intros m j Hin Hj. rewrite Hp'. rewrite Hm' in Hin. eauto.
    + intros r Hr. rewrite Hp'. rewrite Ha' in Hr. auto.
  - intros sel_id hard_delete.
    destruct (delete_player_tables st sel_id hard_delete) as [->|(Hps & Hm & Ha)]; [done|].
    assert (∀ j, j ∈ p_id <$> players st → j ≠ sel_id →
                 j ∈ p_id <$> filter (λ p, p_id p ≠ sel_id) (players st)) as Hleft.
    { intros j (p & -> & Hin)%list_elem_of_fmap Hne.
      by apply list_elem_of_fmap_2, list_elem_of_filter. }
    split.
    + intros m j Hin Hj. rewrite Hps. rewrite Hm in Hin.
      apply list_elem_of_filter in Hin as [Hinv Hin]. apply Hleft; [eauto|].
      intros ->. apply Hinv. unfold involves. unfold ids_of_match in Hj.
      apply elem_of_cons in Hj as [Hj|Hj]; [by left|]. right.
      destruct (player_b_id m) as [b|]; simpl in Hj; [|by apply elem_of_nil in Hj].
      by apply list_elem_of_singleton in Hj as ->.
    + intros r Hr. rewrite Hps. rewrite Ha in Hr.
      apply list_elem_of_filter in Hr as [Hne Hr]. apply Hleft; auto.
  - intros w include_reported. split; [|done].
    intros m j Hin Hj. unfold reset_pairings in Hin. cbn [matches] in Hin.
    apply list_elem_of_filter in Hin as [_ Hin]. eauto.
  - intros selected_ids allow. unfold delete_selected_pairings. cbn [snd].
    destruct (delete_selected_sub allow selected_ids st) as (Hps & Ha & Hsub). split.
    + intros m j Hin Hj. rewrite Hps. eapply elem_of_sublist in Hin; [|exact Hsub]. eauto.
    + intros r Hr. rewrite Hps. rewrite Ha in Hr. auto.
  - intros w selected_ids Hsel. split; [done|].
    intros r Hr. unfold save_attendance in Hr. cbn [attendance players] in *.
    apply elem_of_app in Hr as [Hr|Hr].
    + apply list_elem_of_filter in Hr as [_ Hr]. auto.
    + destruct (attendance_rows_spec w (next_attendance_id st) (elements selected_ids))
        as [Hids _].
      apply Hsel, elem_of_elements. rewrite <- Hids. by apply list_elem_of_fmap_2.
  - intros w. split; [done|]. intros r Hr. unfold clear_attendance in Hr.
    cbn [attendance players] in *. apply list_elem_of_filter in Hr as [_ Hr]. auto.
Qed.
End Invariants.

Section EditorFacts.
Context {F : Type} `{!Platform}.
Implicit Types (st : Store F).

Lemma manual_loop_players w (ids : list Z) (n : Z) st st' :
  matches st = matches st' →
  (manual_loop w ids n st).1 = (manual_loop w ids n st').1 ∧
  matches (manual_loop w ids n st).2 = matches (manual_loop w ids n st').2.
Proof.
  revert n st st'. induction ids as [|a|a b ids IH] using list_pair_ind; intros n st st' Hm.
  - done.
  - cbn [manual_loop]. destruct (fits_INTEGER a); [|done]. split; [done|].
    unfold add_match, new_match, next_match_id. cbn [snd matches]. by rewrite Hm.
  - cbn [manual_loop]. destruct (fits_INTEGER a && fits_INTEGER b); [|done].
    apply IH. unfold add_match, new_match, next_match_id.
    cbn [snd matches]. by rewrite Hm.
Qed.

(** The loop stores the pairs before the first one with an id that the
    engine cannot hold, and raises when there is such a pair. *)
Lemma manual_loop_overflow w (ids : list Z) (n : Z) st :
  ∃ created,
    manual_loop w ids n st =
      ((if forallb fits_INTEGER ids then Some (n + Z.of_nat (length created)) else None),
       mkStore (players st) (matches st ++ created) (attendance st)) ∧
    pair_of_match <$> created = pairs_before_overflow (consecutive_pairs ids) ∧
    Forall (λ m, week m = w ∧ result m = pending) created.
Proof.
  revert n st. induction ids as [|a|a b ids IH] using list_pair_ind; intros n st.
  - exists []. simpl. rewrite app_nil_r, Z.add_0_r. by destruct st.
  - cbn [manual_loop forallb consecutive_pairs pairs_before_overflow].
    unfold fits_pair. cbn [fst snd from_option]. destruct (fits_INTEGER a).
    + exists [new_match st w a None]. simpl. repeat split; auto.
    + exists []. simpl. rewrite app_nil_r. by destruct st.
  - cbn [manual_loop forallb consecutive_pairs pairs_before_overflow].
    unfold fits_pair at 1. cbn [fst snd from_option].
    destruct (fits_INTEGER a); cbn [andb]; [destruct (fits_INTEGER b); cbn [andb]|].
    + destruct (IH (n + 1) (add_match st w a (Some b)).2) as (created & -> & Hps & Hall).
      exists (new_match st w a (Some b) :: created).
      rewrite fmap_cons, Hps. cbn [add_match snd players matches attendance length].
      rewrite <- app_assoc. split; [|split; [done|by constructor]].
      destruct (forallb fits_INTEGER ids); [do 2 f_equal; lia|done].
    + exists []. simpl. rewrite app_nil_r. by destruct st.
    + exists []. simpl. rewrite app_nil_r. by destruct st.
Qed.

(** X31: a valid manual order is applied pair by pair, each row committed
    on its own: the rows stored are the consecutive pairs before the first
    pair with an id that the engine cannot hold.  When there is such a pair
    the handler raises instead of reporting success, and what it did before
    stays: the pending rows of the week are deleted when that was asked,
    and the earlier pairs are stored. *)
Theorem apply_manual_pairings_partial st w (manual_order : str) (clear_pending : bool) :
  let tokens := tokens_of manual_order in
  let ids := ids_of_tokens tokens in
  Forall valid_token tokens → NoDup ids → ids ≠ [] →
  ∃ created,
    apply_manual_pairings st w manual_order clear_pending =
      ((if forallb fits_INTEGER ids
        then success_manual (Z.of_nat (length created)) else raised_OverflowError),
       mkStore (players st)
               (matches (if clear_pending then delete_pending w st else st) ++ created)
               (attendance st)) ∧
    pair_of_match <$> created = pairs_before_overflow (consecutive_pairs ids) ∧
    Forall (λ m, week m = w ∧ result m = pending) created.
Proof.
  intros tokens ids Hall Hnd Hne. unfold apply_manual_pairings. fold tokens.
  destruct (scan_tokens_valid tokens [] false Hall) as [hb' ->]. simpl. fold ids.
  rewrite decide_False by (by destruct ids).
  rewrite decide_False by (by intros Hlen; apply Hlen, length_size_NoDup).
  match goal with |- context [manual_loop w ids 0 ?s] =>
    destruct (manual_loop_overflow w ids 0 s) as (created & -> & Hps & Hw) end.
  exists created. split; [|done].
  destruct (forallb fits_INTEGER ids); by destruct clear_pending.
Qed.

(** X30: the manual pairing editor never looks at the player table: what
    it shows and the matches it leaves are the same whatever players
    exist, so an id of an archived, an absent or an unknown player is
    paired like any other. *)
Theorem apply_manual_pairings_ignores_players st (others : list (Player F)) w
    (manual_order : str) (clear_pending : bool) :
  let st' := mkStore others (matches st) (attendance st) in
  (apply_manual_pairings st' w manual_order clear_pending).1 =
    (apply_manual_pairings st w manual_order clear_pending).1 ∧
  matches (apply_manual_pairings st' w manual_order clear_pending).2 =
    matches (apply_manual_pairings st w manual_order clear_pending).2.
Proof.
  intros st'. unfold apply_manual_pairings.
  destruct (scan_tokens _ _ _) as [t| |ids hb]; [done..|].
  repeat case_decide; try done.
  pose proof (manual_loop_players w ids 0
                (if clear_pending then delete_pending w st' else st')
                (if clear_pending then delete_pending w st else st)) as Hloop.
  destruct (manual_loop w ids 0 (if clear_pending then delete_pending w st' else st'))
    as [created1 st1].
  destruct (manual_loop w ids 0 (if clear_pending then delete_pending w st else st))
    as [created2 st2].
  cbn [fst snd] in *. destruct Hloop as [-> ->]; [by destruct clear_pending|done].
Qed.
End EditorFacts.

(** ** The further theorems at work on the examples *)

Section FurtherExamples.
#[local] Existing Instance cpython_sqlite.

(** The rematch of [ledger_with_rematch] is won by side B at K = 40. *)
Lemma record_result_two_sided_witness :
  get_match ledger_with_rematch 3 = Some rematch ∧ result rematch = pending ∧
  player_b_id rematch = Some 1 ∧
  get_player ledger_with_rematch (player_a_id rematch) = Some grimgor ∧
  get_player ledger_with_rematch 1 = Some karl ∧ player_a_id rematch ≠ 1 ∧
  let kf := k_of_choice Competitive in
  let new := update_elo (rating grimgor) (rating karl) (score_of_choice choose_b_win) kf in
  ∃ st' m',
    record_result ledger_with_rematch 3 Competitive choose_b_win None (Some "Empire of Man") 18
      = (success_saved kf, st') ∧
    get_match st' 3 = Some m' ∧
    result m' = result_of_choice choose_b_win ∧
    a_rating_before m' = Some (rating grimgor) ∧ b_rating_before m' = Some (rating karl) ∧
    a_rating_after m' = Some new.1 ∧ b_rating_after m' = Some new.2 ∧
    k_factor_used m' = Some kf ∧ reported_at m' = Some 18 ∧
    a_faction m' = None ∧ b_faction m' = Some "Empire of Man" ∧
    get_player st' (player_a_id rematch) = Some (with_rating new.1 grimgor) ∧
    get_player st' 1 = Some (with_rating new.2 karl) ∧
    (∀ j, j ≠ player_a_id rematch → j ≠ 1 → get_player st' j = get_player ledger_with_rematch j) ∧
    (∀ j, j ≠ 3 → get_match st' j = get_match ledger_with_rematch j).
Proof.
  assert (player_a_id rematch ≠ 1) as Hne by discriminate.
  do 5 (split; [reflexivity|]). split; [exact Hne|].
  exact (record_result_two_sided ledger_with_rematch 3 Competitive choose_b_win None
           (Some "Empire of Man") 18 rematch 1 grimgor karl
           eq_refl eq_refl eq_refl eq_refl eq_refl Hne).
Defined.

(** The rematch enters the records of both players of [ledger_with_rematch]. *)
Lemma record_result_enters_records_witness :
  NoDup (m_id <$> matches ledger_with_rematch) ∧
  get_match ledger_with_rematch 3 = Some rematch ∧ result rematch = pending ∧
  player_b_id rematch = Some 1 ∧
  get_player ledger_with_rematch (player_a_id rematch) = Some grimgor ∧
  get_player ledger_with_rematch 1 = Some karl ∧ player_a_id rematch ≠ 1 ∧
  let st' := (record_result ledger_with_rematch 3 Casual choose_draw None None 18).2 in
  player_record st' (player_a_id rematch) =
    add_record (player_record ledger_with_rematch (player_a_id rematch))
               (record_gain choose_draw true) ∧
  player_record st' 1 =
    add_record (player_record ledger_with_rematch 1) (record_gain choose_draw false).
Proof.
  assert (NoDup (m_id <$> matches ledger_with_rematch)) as Hnd
    by (refine (bool_decide_unpack _ _); vm_compute; exact I).
  assert (player_a_id rematch ≠ 1) as Hne by discriminate.
  split; [exact Hnd|]. do 5 (split; [reflexivity|]). split; [exact Hne|].
  exact (record_result_enters_records ledger_with_rematch 3 Casual choose_draw None None 18
           rematch 1 grimgor karl Hnd eq_refl eq_refl eq_refl eq_refl eq_refl Hne).
Defined.

(** Player 9 of the pending game of [ledger_with_orphan] is not in the table. *)
Lemma record_result_missing_opponent_witness :
  NoDup (m_id <$> matches ledger_with_orphan) ∧
  get_match ledger_with_orphan 3 = Some orphan_match ∧ result orphan_match = pending ∧
  player_b_id orphan_match = Some 9 ∧
  get_player ledger_with_orphan (player_a_id orphan_match) = Some karl ∧
  get_player ledger_with_orphan 9 = None ∧
  ∃ st' m',
    record_result ledger_with_orphan 3 Competitive choose_b_win None (Some "Skaven") 18
      = (success_bye, st') ∧
    players st' = players ledger_with_orphan ∧
    get_match st' 3 = Some m' ∧
    result m' = a_win ∧ player_b_id m' = Some 9 ∧
    a_rating_after m' = Some (rating karl) ∧ b_rating_before m' = None ∧
    k_factor_used m' = None ∧ b_faction m' = None ∧
    player_record st' (player_a_id orphan_match) =
      add_record (player_record ledger_with_orphan (player_a_id orphan_match)) (1, 0, 0) ∧
    player_record st' 9 = add_record (player_record ledger_with_orphan 9) (0, 0, 1).
Proof.
  assert (NoDup (m_id <$> matches ledger_with_orphan)) as Hnd
    by (refine (bool_decide_unpack _ _); vm_compute; exact I).
  split; [exact Hnd|]. do 5 (split; [reflexivity|]).
  exact (record_result_missing_opponent ledger_with_orphan 3 Competitive choose_b_win None
           (Some "Skaven") 18 orphan_match 9 karl Hnd eq_refl eq_refl eq_refl eq_refl eq_refl).
Defined.

(** An ad-hoc match between the two players of [small_ledger]. *)
Lemma adhoc_match_as_record_result_witness :
  get_player small_ledger 1 = Some karl ∧ get_player small_ledger 2 = Some grimgor ∧
  let i := next_match_id small_ledger in
  let st1 := (add_match small_ledger "12/11/2025" 1 (Some 2)).2 in
  adhoc_match small_ledger "12/11/2025" 1 2 Casual choose_draw None None 18 =
    (success_adhoc (k_of_choice Casual) i,
     (record_result st1 i Casual choose_draw None None 18).2) ∧
  (record_result st1 i Casual choose_draw None None 18).1 = success_saved (k_of_choice Casual) ∧
  (∃ m', get_match (adhoc_match small_ledger "12/11/2025" 1 2 Casual choose_draw
                      None None 18).2 i = Some m' ∧
         week m' = "12/11/2025" ∧ player_a_id m' = 1 ∧ player_b_id m' = Some 2 ∧
         result m' = result_of_choice choose_draw ∧ result m' ≠ pending).
Proof.
  do 2 (split; [reflexivity|]).
  exact (adhoc_match_as_record_result small_ledger "12/11/2025" 1 2 Casual choose_draw
           None None 18 karl grimgor eq_refl eq_refl).
Defined.

(** A round generated for the players present in [league]. *)
Lemma generated_round_sound_witness :
  NoDup (p_id <$> players league) ∧
  let restrict := Some (attendance_ids league "12/11/2025") in
  let created := (generate_weekly_pairings league "12/11/2025" restrict).1 in
  NoDup (created ≫= ids_of_match) ∧
  ∀ m, m ∈ created →
    player_b_id m ≠ Some (player_a_id m) ∧
    ∀ i, i ∈ ids_of_match m →
      ∃ p, p ∈ players league ∧ p_id p = i ∧ active p = true ∧ in_pool restrict i.
Proof.
  assert (NoDup (p_id <$> players league)) as Hnd
    by (refine (bool_decide_unpack _ _); vm_compute; exact I).
  split; [exact Hnd|].
  exact (generated_round_sound league "12/11/2025"
           (Some (attendance_ids league "12/11/2025")) Hnd).
Defined.

(** No match has been played in [league], so its first round pairs
    neighbours of the rating order. *)
Lemma first_round_pairs_neighbours_witness :
  NoDup (p_id <$> players league) ∧
  (∀ a b, a ∈ eligible_ids league None → b ∈ eligible_ids league None →
     sorted_pair a b ∉ fetch_past_pairs league) ∧
  pair_of_match <$> (generate_weekly_pairings league "12/11/2025" None).1 =
    consecutive_pairs (eligible_ids league None).
Proof.
  assert (NoDup (p_id <$> players league)) as Hnd
    by (refine (bool_decide_unpack _ _); vm_compute; exact I).
  assert (∀ a b, a ∈ eligible_ids league None → b ∈ eligible_ids league None →
            sorted_pair a b ∉ fetch_past_pairs league) as Hfresh.
  { intros a b _ _. change (fetch_past_pairs league) with (∅ : gset (Z * Z)).
    apply not_elem_of_empty. }
  split; [exact Hnd|]. split; [exact Hfresh|].
  exact (first_round_pairs_neighbours league "12/11/2025" None Hnd Hfresh).
Defined.

(** Albrecht of [league] is archived and restored. *)
Lemma archive_restore_pool_witness :
  NoDup (p_id <$> players league) ∧
  get_player league 7 = Some (league_player 7 "Albrecht" 1200 true) ∧
  (7 ∉ eligible_ids (archive_player league 7) None) ∧
  (7 ∈ eligible_ids (restore_player league 7) None ↔ in_pool None 7) ∧
  ∀ j, j ≠ 7 →
    (j ∈ eligible_ids (archive_player league 7) None ↔ j ∈ eligible_ids league None) ∧
    (j ∈ eligible_ids (restore_player league 7) None ↔ j ∈ eligible_ids league None).
Proof.
  assert (NoDup (p_id <$> players league)) as Hnd
    by (refine (bool_decide_unpack _ _); vm_compute; exact I).
  split; [exact Hnd|]. split; [reflexivity|].
  exact (archive_restore_pool league 7 (league_player 7 "Albrecht" 1200 true) None
           Hnd eq_refl).
Defined.

(** Both rows of [small_ledger] are selected; only the pending one goes. *)
Lemma delete_selected_pairings_spec_witness :
  NoDup (m_id <$> matches small_ledger) ∧
  let '(reported, st') := delete_selected_pairings small_ledger [2; 1] false in
  reported = length [2; 1] ∧
  players st' = players small_ledger ∧ attendance st' = attendance small_ledger ∧
  matches st' =
    filter (λ m, ¬ (m_id m ∈ [2; 1] ∧ (false = true ∨ result m = pending)))
           (matches small_ledger).
Proof.
  assert (NoDup (m_id <$> matches small_ledger)) as Hnd
    by (refine (bool_decide_unpack _ _); vm_compute; exact I).
  split; [exact Hnd|].
  exact (delete_selected_pairings_spec small_ledger [2; 1] false Hnd).
Defined.

(** Three players of [league], one of them archived, are saved as present
    in a week without matches. *)
Lemma save_attendance_then_generate_witness :
  NoDup (p_id <$> players league) ∧
  ({[7; 12; 9]} : gset Z) ≠ ∅ ∧
  (∀ m, m ∈ matches league → week m ≠ "26/11/2025") ∧
  let st1 := save_attendance league "26/11/2025" {[7; 12; 9]} in
  ∃ created,
    matches (generate_pairings st1 "26/11/2025").2 = matches league ++ created ∧
    Forall (λ m, week m = "26/11/2025" ∧ result m = pending) created ∧
    created ≫= ids_of_match
      ≡ₚ filter (λ i, i ∈ ({[7; 12; 9]} : gset Z))
           (p_id <$> filter (λ p, active p = true) (players league)).
Proof.
  assert (NoDup (p_id <$> players league)) as Hnd
    by (refine (bool_decide_unpack _ _); vm_compute; exact I).
  assert (({[7; 12; 9]} : gset Z) ≠ ∅) as Hsel
    by (refine (bool_decide_unpack _ _); vm_compute; exact I).
  assert (∀ m, m ∈ matches league → week m ≠ "26/11/2025") as Hw.
  { intros m Hm. simpl in Hm. by apply elem_of_nil in Hm. }
  split; [exact Hnd|]. split; [exact Hsel|]. split; [exact Hw|].
  exact (save_attendance_then_generate league "26/11/2025" {[7; 12; 9]} Hnd Hsel Hw).
Defined.

Lemma example_keys_ok : week_keys_ok example_keys.
Proof.
  split; [|split]; refine (bool_decide_unpack _ _); vm_compute; exact I.
Defined.

(** The password of the second week of [example_keys] is replaced. *)
Lemma set_week_password_round_trip_witness :
  week_keys_ok example_keys ∧ "ulric" ≠ "" ∧
  let keys' := set_week_password example_keys "12/11/2025" (Some "ulric") in
  week_password keys' "12/11/2025" = Some "ulric" ∧
  (∀ w', w' ≠ "12/11/2025" → week_password keys' w' = week_password example_keys w') ∧
  week_keys_ok keys'.
Proof.
  assert ("ulric" ≠ "") as Hpw by discriminate.
  split; [exact example_keys_ok|]. split; [exact Hpw|].
  exact (set_week_password_round_trip example_keys "12/11/2025" "ulric" example_keys_ok Hpw).
Defined.

(** The password of the first week of [example_keys] is cleared. *)
Lemma clear_week_password_spec_witness :
  week_keys_ok example_keys ∧
  let keys' := clear_week_password example_keys "05/11/2025" in
  week_password keys' "05/11/2025" = None ∧
  (∀ w', w' ≠ "05/11/2025" → week_password keys' w' = week_password example_keys w') ∧
  week_keys_ok keys' ∧
  set_week_password example_keys "05/11/2025" None = keys' ∧
  set_week_password example_keys "05/11/2025" (Some "") = keys'.
Proof.
  split; [exact example_keys_ok|].
  exact (clear_week_password_spec example_keys "05/11/2025" example_keys_ok).
Defined.

(** A password typed with a space and a no-break space around it, for a
    week of [example_keys]. *)
Lemma update_password_then_lock_witness :
  let typed : str := [0x20]%N ++ str_of_ascii "ulric" ++ [0xA0]%N in
  week_keys_ok example_keys ∧ strip typed = str_of_ascii "ulric" ∧
  let keys' := update_password_clicked example_keys "19/11/2025" typed in
  week_keys_ok keys' ∧
  week_password keys' "19/11/2025" =
    (if decide (blank typed) then None else Some (encode (strip typed))) ∧
  results_locked keys' "19/11/2025" false = bool_decide (¬ blank typed) ∧
  ∀ pw_try,
    Forall scalar_value typed → Forall scalar_value pw_try →
    results_locked keys' "19/11/2025" (unlock_week_clicked keys' "19/11/2025" false pw_try) =
      bool_decide (¬ blank typed ∧ pw_try ≠ strip typed).
Proof.
  intros typed. split; [exact example_keys_ok|]. split; [vm_compute; reflexivity|].
  exact (update_password_then_lock example_keys "19/11/2025" typed example_keys_ok).
Defined.

(** A password of white space only clears the lock. *)
Example update_password_no_break_space :
  week_password (update_password_clicked example_keys "12/11/2025" [0xA0; 0x3000]%N)
    "12/11/2025" = None.
Proof. vm_compute. reflexivity. Qed.

(** A player who mostly plays Skaven, the tenth faction of the list. *)
Lemma adhoc_form_default_shifted_witness :
  "Skaven" ∈ PLACEHOLDER_FACTIONS ∧
  (Some "Skaven" = Some "Skaven" ∨
     ((∀ g, Some "Skaven" = Some g → g ∉ PLACEHOLDER_FACTIONS) ∧ None = Some "Skaven")) ∧
  let i := adhoc_form_default (Some "Skaven") None in
  PLACEHOLDER_FACTIONS !! i = Some "Skaven" ∧
  PLACEHOLDER_FACTIONS_WITH_BLANK !! S i = Some "Skaven" ∧
  PLACEHOLDER_FACTIONS_WITH_BLANK !! i ≠ Some "Skaven" ∧
  (Some "Skaven" = Some "Skaven" →
   PLACEHOLDER_FACTIONS_WITH_BLANK !! result_form_default None (Some "Skaven") None
     = Some "Skaven").
Proof.
  assert ("Skaven" ∈ PLACEHOLDER_FACTIONS) as Hin
    by (refine (bool_decide_unpack _ _); vm_compute; exact I).
  split; [exact Hin|]. split; [left; reflexivity|].
  exact (adhoc_form_default_shifted (Some "Skaven") None "Skaven" Hin (or_introl eq_refl)).
Defined.

(** The week of Sunday 16 November 2025. *)
Lemma week_wednesday_spec_witness :
  valid_date sun_16_11_2025 ∧
  ∃ wed,
    week_wednesday sun_16_11_2025 = Some wed ∧ valid_date wed ∧ weekday wed = 2 ∧
    sun_16_11_2025 - 4 ≤ wed ≤ sun_16_11_2025 + 2 ∧
    week_monday wed = week_monday sun_16_11_2025 ∧
    week_wednesday wed = Some wed.
Proof.
  assert (valid_date sun_16_11_2025) as Hd by (vm_compute; split; discriminate).
  split; [exact Hd|]. exact (week_wednesday_spec sun_16_11_2025 Hd).
Defined.

(** The Monday and the Sunday of one week. *)
Lemma week_wednesday_same_week_witness :
  valid_date mon_10_11_2025 ∧ valid_date sun_16_11_2025 ∧
  (week_wednesday mon_10_11_2025 = week_wednesday sun_16_11_2025 ↔
     week_monday mon_10_11_2025 = week_monday sun_16_11_2025) ∧
  (sun_16_11_2025 = mon_10_11_2025 + 7 →
     week_wednesday sun_16_11_2025 = (λ wed, wed + 7) <$> week_wednesday mon_10_11_2025).
Proof.
  assert (valid_date mon_10_11_2025) as Hd1 by (vm_compute; split; discriminate).
  assert (valid_date sun_16_11_2025) as Hd2 by (vm_compute; split; discriminate).
  split; [exact Hd1|]. split; [exact Hd2|].
  exact (week_wednesday_same_week mon_10_11_2025 sun_16_11_2025 Hd1 Hd2).
Defined.

(** A new player joins [league]. *)
Lemma add_player_spec_witness :
  let typed : str := str_of_ascii "  Gotrek " in
  NoDup (p_id <$> players league) ∧
  let r := add_player league typed 1000%Q "Dwarfen Mountain Holds" 19 in
  (blank typed → r = (error_name_required, league)) ∧
  (¬ blank typed →
     ∃ p, r = (success_player_added,
                mkStore (players league ++ [p]) (matches league) (attendance league)) ∧
          get_player league (p_id p) = None ∧
          get_player r.2 (p_id p) = Some p ∧
          (∀ i q, get_player league i = Some q → get_player r.2 i = Some q) ∧
          NoDup (p_id <$> players r.2) ∧
          (∃ stripped l r',
             name p = encode stripped ∧ name p ≠ "" ∧
             typed = l ++ stripped ++ r' ∧ blank l ∧ blank r' ∧
             (∀ c, head stripped = Some c → is_space c = false) ∧
             (∀ c, last stripped = Some c → is_space c = false)) ∧
          rating p = 1000%Q ∧ active p = true ∧
          faction p ≠ Some blank_choice ∧
          ("Dwarfen Mountain Holds" ≠ blank_choice →
           faction p = Some "Dwarfen Mountain Holds")).
Proof.
  intros typed.
  assert (NoDup (p_id <$> players league)) as Hnd
    by (refine (bool_decide_unpack _ _); vm_compute; exact I).
  split; [exact Hnd|].
  exact (add_player_spec league typed 1000%Q "Dwarfen Mountain Holds" 19 Hnd).
Defined.

(** A name that is a no-break space is refused; a name in Cyrillic is kept
    in UTF-8. *)
Example add_player_no_break_space :
  add_player league [0xA0]%N 1000%Q blank_choice 19 = (error_name_required, league) ∧
  name <$> last (players (add_player league [0x20; 0x416; 0x3000]%N 1000%Q blank_choice 19).2)
    = Some "Ж".
Proof. vm_compute. done. Qed.

(** The keys of [small_ledger] are unique, and stay so. *)
Lemma handlers_keep_unique_keys_witness :
  unique_keys small_ledger ∧
  (∀ w, unique_keys (@generate_pairings R real_order small_ledger w).2) ∧
  (∀ w manual_order clear_pending,
     unique_keys (apply_manual_pairings small_ledger w manual_order clear_pending).2) ∧
  (∀ i k res fa fb now, unique_keys (record_result small_ledger i k res fa fb now).2) ∧
  (∀ w pid_a pid_b k res fa fb now,
     unique_keys (adhoc_match small_ledger w pid_a pid_b k res fa fb now).2) ∧
  (∀ player_name starting faction_choice now,
     unique_keys (add_player small_ledger player_name starting faction_choice now).2) ∧
  (∀ pid, unique_keys (archive_player small_ledger pid) ∧
          unique_keys (restore_player small_ledger pid)) ∧
  (∀ sel_id hard_delete, unique_keys (delete_player small_ledger sel_id hard_delete).2) ∧
  (∀ w include_reported, unique_keys (reset_pairings small_ledger w include_reported)) ∧
  (∀ selected_ids allow,
     unique_keys (delete_selected_pairings small_ledger selected_ids allow).2) ∧
  (∀ w selected_ids,
     unique_keys (save_attendance small_ledger w selected_ids) ∧
     unique_keys (clear_attendance small_ledger w)).
Proof.
  assert (unique_keys small_ledger) as Hu
    by (split; refine (bool_decide_unpack _ _); vm_compute; exact I).
  split; [exact Hu|].
  exact (@handlers_keep_unique_keys R real_arith real_order cpython_sqlite small_ledger Hu).
Defined.

(** Every row of [small_ledger] names players of its table. *)
Lemma handlers_keep_references_witness :
  NoDup (p_id <$> players small_ledger) ∧ references_ok small_ledger ∧
  (∀ w, references_ok (@generate_pairings R real_order small_ledger w).2) ∧
  (∀ i k res fa fb now, references_ok (record_result small_ledger i k res fa fb now).2) ∧
  (∀ w pid_a pid_b k res fa fb now,
     references_ok (adhoc_match small_ledger w pid_a pid_b k res fa fb now).2) ∧
  (∀ player_name starting faction_choice now,
     references_ok (add_player small_ledger player_name starting faction_choice now).2) ∧
  (∀ pid, references_ok (archive_player small_ledger pid) ∧
          references_ok (restore_player small_ledger pid)) ∧
  (∀ sel_id hard_delete, references_ok (delete_player small_ledger sel_id hard_delete).2) ∧
  (∀ w include_reported, references_ok (reset_pairings small_ledger w include_reported)) ∧
  (∀ selected_ids allow,
     references_ok (delete_selected_pairings small_ledger selected_ids allow).2) ∧
  (∀ w (selected_ids : gset Z),
     (∀ i, i ∈ selected_ids → i ∈ p_id <$> players small_ledger) →
     references_ok (save_attendance small_ledger w selected_ids)) ∧
  (∀ w, references_ok (clear_attendance small_ledger w)).
Proof.
  assert (NoDup (p_id <$> players small_ledger)) as Hnd
    by (refine (bool_decide_unpack _ _); vm_compute; exact I).
  assert (references_ok small_ledger) as Hrefs.
  { split.
    - assert (Forall (λ m, Forall (λ i, i ∈ p_id <$> players small_ledger) (ids_of_match m))
                     (matches small_ledger)) as Hall
        by (refine (bool_decide_unpack _ _); vm_compute; exact I).
      intros m i Hm Hi. rewrite Forall_forall in Hall. specialize (Hall m Hm).
      rewrite Forall_forall in Hall. by apply Hall.
    - intros r Hr. simpl in Hr. by apply elem_of_nil in Hr. }
  split; [exact Hnd|]. split; [exact Hrefs|].
  exact (@handlers_keep_references R real_arith real_order small_ledger Hnd Hrefs).
Defined.

(** The second pair of the order names an id of 2^63: the first pair is
    stored in place of the pending round, and the handler raises. *)
Lemma apply_manual_pairings_partial_witness :
  let order := str_of_ascii "7, 3, 12, 9223372036854775808" in
  let tokens := tokens_of order in
  let ids := ids_of_tokens tokens in
  Forall valid_token tokens ∧ NoDup ids ∧ ids ≠ [] ∧
  (λ r, (r.1, pair_of_match <$> matches r.2))
    (apply_manual_pairings league_with_round "12/11/2025" order true)
    = (raised_OverflowError, [(7, Some 3)]) ∧
  ∃ created,
    apply_manual_pairings league_with_round "12/11/2025" order true =
      ((if forallb fits_INTEGER ids
        then success_manual (Z.of_nat (length created)) else raised_OverflowError),
       mkStore (players league_with_round)
               (matches (if true then delete_pending "12/11/2025" league_with_round
                         else league_with_round) ++ created)
               (attendance league_with_round)) ∧
    pair_of_match <$> created = pairs_before_overflow (consecutive_pairs ids) ∧
    Forall (λ m, week m = "12/11/2025" ∧ result m = pending) created.
Proof.
  intros order tokens ids.
  assert (Forall valid_token tokens) as Hall
    by (refine (bool_decide_unpack _ _); vm_compute; exact I).
  assert (NoDup ids) as Hnd by (refine (bool_decide_unpack _ _); vm_compute; exact I).
  assert (ids ≠ []) as Hne by (vm_compute; discriminate).
  split; [exact Hall|]. split; [exact Hnd|]. split; [exact Hne|].
  split; [vm_compute; reflexivity|].
  exact (apply_manual_pairings_partial league_with_round "12/11/2025" order true
           Hall Hnd Hne).
Defined.
End FurtherExamples.
